(** * CrashGuard-S dispatch engine: a shallow embedding of
      [driver_app/server.py] and [driver_app/init_db.py].

    The SQLite tables are modelled as finite maps and row lists, the
    process-wide SSE registry [_subscribers] as a map from unit id to a list
    of queue references together with the store the references point into,
    and every Flask handler as a function from the state of the process to
    either a raised exception or a response with the next state.

    A finite Python float is the real number it stands for.  [haversine]
    is given twice: in exact arithmetic, where [math.sin], [math.cos],
    [math.sqrt] and [math.atan2] are the functions they approximate, and
    over an arithmetic [fl] whose operations are left open, which covers
    the machine's, rounding included; the callers of [haversine] follow
    suit ([dispatch] and [dispatch_fl], [get_address] and [get_address_fl],
    [get_mission] and [get_mission_fl]). *)

From Stdlib Require Import Reals Lra ZArith.
From stdpp Require Import gmap strings list sorting.

(** ** Exceptions

    A computation either raises ([inl e]) or returns ([inr a]). *)

Inductive exn : Type :=
| Full            (* queue.Full *)
| Empty           (* queue.Empty *)
| ValueError.     (* min() of an empty sequence; math domain error *)

Definition Exc (A : Type) : Type := (exn + A)%type.

Definition exc_bind {A B : Type} (m : Exc A) (k : A → Exc B) : Exc B :=
  match m with
  | inl e => inl e
  | inr a => k a
  end.

Notation "'do' x <- m ; k" := (exc_bind m (fun x => k))
  (at level 10, x pattern, m at level 100, k at level 200).

(** [for x in l: s = body x s], stopping at the first exception. *)
Fixpoint for_each {A S : Type} (body : A → S → Exc S) (l : list A) (s : S) : Exc S :=
  match l with
  | [] => inr s
  | x :: l' => do s' <- body x s; for_each body l' s'
  end.

(** ** Haversine *)

Section Geo.
Local Open Scope R_scope.

(** [math.radians] *)
Definition radians (x : R) : R := x * (PI / 180).

(** [math.atan2 y x]: the angle of the point [(x, y)], in (-PI, PI]. *)
Definition atan2 (y x : R) : R :=
  if Rlt_dec 0 x then atan (y / x)
  else if Rlt_dec x 0 then
    (if Rle_dec 0 y then atan (y / x) + PI else atan (y / x) - PI)
  else if Rlt_dec 0 y then PI / 2
  else if Rlt_dec y 0 then - (PI / 2)
  else 0.

(** The value [a] of [haversine], the haversine of the central angle. *)
Definition hav_a (lat1 lon1 lat2 lon2 : R) : R :=
  let p1 := radians lat1 in
  let p2 := radians lat2 in
  let dp := radians (lat2 - lat1) in
  let dl := radians (lon2 - lon1) in
  sin (dp / 2) ^ 2 + cos p1 * cos p2 * sin (dl / 2) ^ 2.

(** [haversine] in exact arithmetic, where [a] lies between 0 and 1 and
    both square roots are defined; [haversine_fl] below is the function
    on floats, which can raise. *)
Definition haversine (lat1 lon1 lat2 lon2 : R) : R :=
  let R_ := 6371.0 in
  let a := hav_a lat1 lon1 lat2 lon2 in
  R_ * 2 * atan2 (sqrt a) (sqrt (1 - a)).

(** The comparison [x < y] of two floats, as a boolean. *)
Definition Rltb (x y : R) : bool := if Rlt_dec x y then true else false.
End Geo.

(** [min(l, key=key)]: the first element whose key is not above any other;
    [ValueError] on an empty list. *)
Fixpoint min_from {A : Type} (key : A → R) (best : A) (l : list A) : A :=
  match l with
  | [] => best
  | x :: l' => min_from key (if Rltb (key x) (key best) then x else best) l'
  end.

Definition py_min {A : Type} (key : A → R) (l : list A) : Exc A :=
  match l with
  | [] => inl ValueError
  | x :: l' => inr (min_from key x l')
  end.

(** ** Haversine in floating point

    The operations [haversine] performs, as the machine performs them on
    floats.  Nothing is assumed of what they return, so a statement about
    every [fl] holds of the machine's arithmetic whatever its rounding;
    [exact] is the arithmetic that does not round. *)
Record Arith : Type := mkArith {
  fl_radians : R → R;        (* math.radians *)
  fl_sin : R → R;            (* math.sin *)
  fl_cos : R → R;            (* math.cos *)
  fl_sqrt : R → R;           (* math.sqrt, on a float that is not negative *)
  fl_atan2 : R → R → R;      (* math.atan2 *)
  fl_add : R → R → R;        (* x + y *)
  fl_sub : R → R → R;        (* x - y *)
  fl_mul : R → R → R;        (* x * y *)
  fl_div : R → R → R;        (* x / y *)
  fl_sqr : R → R             (* x ** 2 *)
}.

Definition exact : Arith :=
  {| fl_radians := radians; fl_sin := sin; fl_cos := cos; fl_sqrt := sqrt;
     fl_atan2 := atan2; fl_add := Rplus; fl_sub := Rminus; fl_mul := Rmult;
     fl_div := Rdiv; fl_sqr := fun x => (x ^ 2)%R |}.

(** [math.sqrt x]: [ValueError] (math domain error) when [x < 0]. *)
Definition math_sqrt (fl : Arith) (x : R) : Exc R :=
  if Rltb x 0 then inl ValueError else inr (fl_sqrt fl x).

(** The value [a] of [haversine] as the machine computes it. *)
Definition hav_a_fl (fl : Arith) (lat1 lon1 lat2 lon2 : R) : R :=
  let p1 := fl_radians fl lat1 in
  let p2 := fl_radians fl lat2 in
  let dp := fl_radians fl (fl_sub fl lat2 lat1) in
  let dl := fl_radians fl (fl_sub fl lon2 lon1) in
  fl_add fl (fl_sqr fl (fl_sin fl (fl_div fl dp 2)))
    (fl_mul fl (fl_mul fl (fl_cos fl p1) (fl_cos fl p2))
               (fl_sqr fl (fl_sin fl (fl_div fl dl 2)))).

(** [haversine]; [math.sqrt(a)] is evaluated before [math.sqrt(1-a)].
    Nothing clamps [a], so a value of [a] that rounding has pushed above 1
    makes the second square root raise. *)
Definition haversine_fl (fl : Arith) (lat1 lon1 lat2 lon2 : R) : Exc R :=
  let R_ := 6371.0%R in
  let a := hav_a_fl fl lat1 lon1 lat2 lon2 in
  do s1 <- math_sqrt fl a;
  do s2 <- math_sqrt fl (fl_sub fl 1 a);
  inr (fl_mul fl (fl_mul fl R_ 2) (fl_atan2 fl s1 s2)).

(** [min(l, key=key)] with a key that may raise: the keys are computed
    once each, in the order of the list, and the first exception ends the
    call; [best_key] is the key of [best]. *)
Fixpoint min_from_fl {A : Type} (key : A → Exc R) (best : A) (best_key : R)
    (l : list A) : Exc A :=
  match l with
  | [] => inr best
  | x :: l' =>
      do k <- key x;
      if Rltb k best_key then min_from_fl key x k l'
      else min_from_fl key best best_key l'
  end.

Definition py_min_fl {A : Type} (key : A → Exc R) (l : list A) : Exc A :=
  match l with
  | [] => inl ValueError
  | x :: l' => do k <- key x; min_from_fl key x k l'
  end.

(** ** Tables of [init_db.py] *)

Inductive Status : Type :=
| new
| waiting_for_driver
| en_route
| resolved
| no_unit_available.

Record Crash : Type := mkCrash {
  timestamp : string;
  latitude : R;
  longitude : R;
  snapshot_path : option string;
  status : Status;
  assigned_ambulance_id : option string
}.

Record Ambulance : Type := mkAmbulance {
  amb_id : string;
  amb_latitude : R;
  amb_longitude : R;
  is_available : bool
}.

Record Driver : Type := mkDriver {
  driver_id : Z;
  name : string;
  badge : string;
  password : string;
  unit_id : string;
  is_on_duty : bool
}.

(** [crashes] is keyed by its INTEGER PRIMARY KEY; [crash_seq] is the
    AUTOINCREMENT counter (the largest row id handed out so far).  The
    rows of [ambulances] and [drivers] are kept in table order. *)
Record DB : Type := mkDB {
  crashes : gmap Z Crash;
  crash_seq : Z;
  ambulances : list Ambulance;
  drivers : list Driver
}.

(** ** SSE subscribers *)

(** The dictionaries handed to [push_event] and [push_all].  Of the
    [mission_assigned] dictionary the keys [crash_id], [unit_id],
    [crash_lat] and [crash_lon] are kept; [distance_km], [snapshot_url],
    [address] and [timestamp] are presentation fields outside the model. *)
Inductive Payload : Type :=
| mission_assigned_data (crash_id : Z) (unit : string) (crash_lat crash_lon : R)
| status_update_data (crash_id : option Z) (st : Status) (unit : option string)
| availability_update_data (unit : string) (driver : string) (on_duty : bool).

(** The text [f"event: {event_type}\ndata: {json.dumps(data)}\n\n"], kept
    as its two components. *)
Definition Msg : Type := (string * Payload)%type.

(** A [queue.Queue]: FIFO, bounded when [maxsize > 0]. *)
Record Queue : Type := mkQueue {
  maxsize : nat;
  items : list Msg
}.

(** [_subscribers] holds references to queue objects; [queues] maps each
    reference to the object's current contents. *)
Record Fanout : Type := mkFanout {
  subscribers : gmap string (list nat);
  queues : gmap nat Queue
}.

Record World : Type := mkWorld {
  db : DB;
  fan : Fanout
}.

Definition qsize (q : Queue) : nat := length (items q).

Definition full (q : Queue) : bool :=
  (0 <? maxsize q)%nat && (maxsize q <=? qsize q)%nat.

Definition put_nowait (q : Queue) (msg : Msg) : Exc Queue :=
  if full q then inl Full
  else inr {| maxsize := maxsize q; items := items q ++ [msg] |}.

(** [q.get(timeout=25)] once the wait is over: the oldest item, or
    [queue.Empty]. *)
Definition get (q : Queue) : Exc (Msg * Queue) :=
  match items q with
  | [] => inl Empty
  | m :: rest => inr (m, {| maxsize := maxsize q; items := rest |})
  end.

(** [try: q.put_nowait(msg)  except queue.Full: pass] on the queue behind
    reference [r]. *)
Definition try_put (msg : Msg) (r : nat) (qs : gmap nat Queue)
  : Exc (gmap nat Queue) :=
  match qs !! r with
  | None => inr qs
  | Some q =>
      match put_nowait q msg with
      | inr q' => inr (<[r := q']> qs)
      | inl Full => inr qs
      | inl e => inl e
      end
  end.

(** [_subscribers.get(unit_id, [])] *)
Definition subscribed (f : Fanout) (unit_id : string) : list nat :=
  default [] (subscribers f !! unit_id).

Definition push_event (unit_id : string) (event_type : string) (data : Payload)
    (f : Fanout) : Exc Fanout :=
  let msg := (event_type, data) in
  do qs <- for_each (try_put msg) (subscribed f unit_id) (queues f);
  inr {| subscribers := subscribers f; queues := qs |}.

Definition push_all (event_type : string) (data : Payload) (f : Fanout) : Exc Fanout :=
  let msg := (event_type, data) in
  do qs <- for_each (fun queues_ qs => for_each (try_put msg) queues_ qs)
             (map snd (map_to_list (subscribers f))) (queues f);
  inr {| subscribers := subscribers f; queues := qs |}.

(** What [try: q.put_nowait(msg)  except queue.Full: pass] leaves of a
    queue, and of the store after a loop over the references [l]. *)
Definition offer (msg : Msg) (q : Queue) : Queue :=
  if full q then q else {| maxsize := maxsize q; items := items q ++ [msg] |}.

Definition offer_all (msg : Msg) (l : list nat) (qs : gmap nat Queue) : gmap nat Queue :=
  foldl (fun qs r => alter (offer msg) r qs) qs l.

(** Every queue reference the registry holds, unit after unit. *)
Definition all_subscribed (f : Fanout) : list nat :=
  concat (map snd (map_to_list (subscribers f))).

(** ** DB helpers *)

Definition set_status (s : Status) (c : Crash) : Crash :=
  {| timestamp := timestamp c; latitude := latitude c; longitude := longitude c;
     snapshot_path := snapshot_path c; status := s;
     assigned_ambulance_id := assigned_ambulance_id c |}.

Definition set_assignment (s : Status) (a : option string) (c : Crash) : Crash :=
  {| timestamp := timestamp c; latitude := latitude c; longitude := longitude c;
     snapshot_path := snapshot_path c; status := s;
     assigned_ambulance_id := a |}.

Definition set_snapshot_path (p : string) (c : Crash) : Crash :=
  {| timestamp := timestamp c; latitude := latitude c; longitude := longitude c;
     snapshot_path := Some p; status := status c;
     assigned_ambulance_id := assigned_ambulance_id c |}.

(** [UPDATE crashes SET ... WHERE id=?] *)
Definition update_crash (f : Crash → Crash) (crash_id : Z) (d : DB) : DB :=
  {| crashes := alter f crash_id (crashes d); crash_seq := crash_seq d;
     ambulances := ambulances d; drivers := drivers d |}.

Definition set_available (b : bool) (a : Ambulance) : Ambulance :=
  {| amb_id := amb_id a; amb_latitude := amb_latitude a;
     amb_longitude := amb_longitude a; is_available := b |}.

(** [UPDATE ambulances SET is_available=? WHERE id=?] *)
Definition update_is_available (b : bool) (unit : string) (d : DB) : DB :=
  {| crashes := crashes d; crash_seq := crash_seq d;
     ambulances :=
       map (fun a => if String.eqb (amb_id a) unit then set_available b a else a)
           (ambulances d);
     drivers := drivers d |}.

Definition set_on_duty (b : bool) (dr : Driver) : Driver :=
  {| driver_id := driver_id dr; name := name dr; badge := badge dr;
     password := password dr; unit_id := unit_id dr; is_on_duty := b |}.

(** [UPDATE drivers SET is_on_duty=? WHERE id=?] *)
Definition update_is_on_duty (b : bool) (id_ : Z) (d : DB) : DB :=
  {| crashes := crashes d; crash_seq := crash_seq d; ambulances := ambulances d;
     drivers :=
       map (fun dr => if Z.eqb (driver_id dr) id_ then set_on_duty b dr else dr)
           (drivers d) |}.

(** [INSERT INTO crashes (timestamp, latitude, longitude, status)], with
    [cur.lastrowid]. *)
Definition insert_crash (ts : string) (lat lon : R) (st : Status) (d : DB) : Z * DB :=
  let rowid := (crash_seq d + 1)%Z in
  (rowid,
   {| crashes := <[rowid := mkCrash ts lat lon None st None]> (crashes d);
      crash_seq := rowid; ambulances := ambulances d; drivers := drivers d |}).

(** The query of [dispatch]:
    [SELECT a.* FROM ambulances a JOIN drivers d ON d.unit_id = a.id
     WHERE a.is_available=1 AND d.is_on_duty=1], one row per matching pair.
    [ambulances.id] is the primary key and [drivers.unit_id] has no index,
    so SQLite scans [drivers] and looks the unit of each driver up by its
    key: the rows come in the order of [drivers]. *)
Definition available_units (d : DB) : list Ambulance :=
  flat_map
    (fun dr =>
       flat_map
         (fun a =>
            if String.eqb (unit_id dr) (amb_id a) && is_available a && is_on_duty dr
            then [a] else [])
         (ambulances d))
    (drivers d).

(** [units] after [if exclude_unit: units = [u for u in units if ...]]:
    the test is Python truthiness, so [None] and the empty string both
    leave the list as it is. *)
Definition candidates (d : DB) (exclude_unit : option string) : list Ambulance :=
  match exclude_unit with
  | Some x =>
      if String.eqb x "" then available_units d
      else List.filter (fun u => negb (String.eqb (amb_id u) x)) (available_units d)
  | None => available_units d
  end.

(** ** Dispatch *)

(** [dispatch] in exact arithmetic, where [haversine] and [get_address]
    always return; [dispatch_fl] below is [dispatch] on floats.

    [dist_km]: the key of [min] in [dispatch]. *)
Definition dist_km (crash_lat crash_lon : R) (u : Ambulance) : R :=
  haversine crash_lat crash_lon (amb_latitude u) (amb_longitude u).

Definition dispatch (crash_id : Z) (crash_lat crash_lon : R)
    (exclude_unit : option string) (w : World) : Exc (option string * World) :=
  let units := candidates (db w) exclude_unit in
  match units with
  | [] =>
      inr (None,
           {| db := update_crash (set_status no_unit_available) crash_id (db w);
              fan := fan w |})
  | _ :: _ =>
      do nearest <- py_min (dist_km crash_lat crash_lon) units;
      let d' :=
        update_crash (set_assignment waiting_for_driver (Some (amb_id nearest)))
                     crash_id (db w) in
      do f' <- push_event (amb_id nearest) "mission_assigned"
                 (mission_assigned_data crash_id (amb_id nearest) crash_lat crash_lon)
                 (fan w);
      inr (Some (amb_id nearest), {| db := d'; fan := f' |})
  end.

(** [capture_snapshot]: [written] is the path when the video frame could be
    read and the row was updated, [None] on the fallback image, which
    leaves the table alone. *)
Definition capture_snapshot (crash_id : Z) (written : option string) (d : DB) : DB :=
  match written with
  | Some p => update_crash (set_snapshot_path p) crash_id d
  | None => d
  end.

(** ** Auth middleware

    [session] is the [driver_id] entry of the Flask session, if any. *)
Definition get_current_driver (session : option Z) (d : DB) : option Driver :=
  match session with
  | None => None
  | Some i =>
      if Z.eqb i 0 then None
      else List.find (fun dr => Z.eqb (driver_id dr) i) (drivers d)
  end.

(** ** Routes *)

(** The JSON bodies the routes below answer with. *)
Inductive Response : Type :=
| not_logged_in                                        (* 401 *)
| ok_status (st : Status)                              (* accept, arrived *)
| ok_standby (reassigned_to : option string)           (* decline *)
| ok_crash (crash_id : Z) (assigned_to : option string)  (* simulate_crash *)
| ok_on_duty (on_duty : bool)                          (* availability *)
| ok_plain                                             (* logout *)
| ok_stream (q : nat).                                 (* /events *)

(** [/api/logout]: what it does to the process.  [session.clear()] acts
    on the cookie of the browser; see [cookie_after]. *)
Definition logout (session : option Z) (w : World) : Exc (Response * World) :=
  match get_current_driver session (db w) with
  | Some driver =>
      let d1 := update_is_on_duty false (driver_id driver) (db w) in
      let d2 := update_is_available false (unit_id driver) d1 in
      inr (ok_plain, {| db := d2; fan := fan w |})
  | None => inr (ok_plain, w)
  end.

(** [/api/availability] *)
Definition set_availability (session : option Z) (on_duty : bool) (w : World)
  : Exc (Response * World) :=
  match get_current_driver session (db w) with
  | None => inr (not_logged_in, w)
  | Some driver =>
      let d1 := update_is_on_duty on_duty (driver_id driver) (db w) in
      let d2 := update_is_available on_duty (unit_id driver) d1 in
      do f' <- push_all "availability_update"
                 (availability_update_data (unit_id driver) (name driver) on_duty)
                 (fan w);
      inr (ok_on_duty on_duty, {| db := d2; fan := f' |})
  end.

(** [/events]: the part of [sse_stream] that runs on the request; the queue
    is a new object, so its reference is one the store has not used. *)
Definition sse_stream (session : option Z) (w : World) : Exc (Response * World) :=
  match get_current_driver session (db w) with
  | None => inr (not_logged_in, w)
  | Some driver =>
      let unit := unit_id driver in
      let q := fresh (dom (queues (fan w))) in
      let subs := subscribers (fan w) in
      inr (ok_stream q,
           {| db := db w;
              fan := {| subscribers := <[unit := default [] (subs !! unit) ++ [q]]> subs;
                        queues := <[q := mkQueue 30 []]> (queues (fan w)) |} |})
  end.

(** What [generate] yields. *)
Inductive Chunk : Type :=
| connected (unit : string) (driver : string)
| event (msg : Msg)
| heartbeat.

(** The first value of [generate]. *)
Definition generate_first (driver : Driver) : Chunk :=
  connected (unit_id driver) (name driver).

(** One turn of the [while True] loop of [generate] on queue [q]. *)
Definition generate_next (q : nat) (f : Fanout) : Chunk * Fanout :=
  match queues f !! q with
  | None => (heartbeat, f)
  | Some qu =>
      match get qu with
      | inr (msg, qu') =>
          (event msg, {| subscribers := subscribers f; queues := <[q := qu']> (queues f) |})
      | inl _ => (heartbeat, f)
      end
  end.

(** [l.remove(x)]: drops the first occurrence; [ValueError] when there is
    none. *)
Fixpoint list_remove_first (x : nat) (l : list nat) : Exc (list nat) :=
  match l with
  | [] => inl ValueError
  | y :: l' =>
      if Nat.eqb y x then inr l'
      else do r <- list_remove_first x l'; inr (y :: r)
  end.

(** [cleanup] of [sse_stream], with its bare [except: pass].  The source
    defines it and attaches it to nothing, so no route below runs it. *)
Definition cleanup (unit : string) (q : nat) (f : Fanout) : Fanout :=
  match subscribers f !! unit with
  | None => f
  | Some l =>
      match list_remove_first q l with
      | inr l' => {| subscribers := <[unit := l']> (subscribers f); queues := queues f |}
      | inl _ => f
      end
  end.

(** [/api/mission/accept] *)
Definition accept_mission (session : option Z) (crash_id : option Z) (w : World)
  : Exc (Response * World) :=
  match get_current_driver session (db w) with
  | None => inr (not_logged_in, w)
  | Some driver =>
      let d1 := match crash_id with
                | Some i => update_crash (set_status en_route) i (db w)
                | None => db w
                end in
      let d2 := update_is_available false (unit_id driver) d1 in
      do f' <- push_all "status_update"
                 (status_update_data crash_id en_route (Some (unit_id driver)))
                 (fan w);
      inr (ok_status en_route, {| db := d2; fan := f' |})
  end.

(** [/api/mission/decline] *)
Definition decline_mission (session : option Z) (crash_id : option Z) (w : World)
  : Exc (Response * World) :=
  match get_current_driver session (db w) with
  | None => inr (not_logged_in, w)
  | Some driver =>
      match crash_id with
      | None => inr (ok_standby None, w)
      | Some i =>
          let row := crashes (db w) !! i in
          let d1 := update_crash (set_assignment new None) i (db w) in
          let w1 := {| db := d1; fan := fan w |} in
          match row with
          | None => inr (ok_standby None, w1)
          | Some row =>
              do (reassigned_to, w2) <-
                dispatch i (latitude row) (longitude row) (Some (unit_id driver)) w1;
              inr (ok_standby reassigned_to, w2)
          end
      end
  end.

(** [/api/mission/arrived] *)
Definition arrived (session : option Z) (crash_id : option Z) (w : World)
  : Exc (Response * World) :=
  match get_current_driver session (db w) with
  | None => inr (not_logged_in, w)
  | Some driver =>
      let d1 := match crash_id with
                | Some i => update_crash (set_status resolved) i (db w)
                | None => db w
                end in
      let d2 := update_is_available true (unit_id driver) d1 in
      do f' <- push_all "status_update" (status_update_data crash_id resolved None) (fan w);
      inr (ok_status resolved, {| db := d2; fan := f' |})
  end.

(** [/api/simulate_crash]: the random location, the clock and the outcome
    of [capture_snapshot] are inputs. *)
Definition simulate_crash (ts : string) (crash_lat crash_lon : R)
    (snap : option string) (w : World) : Exc (Response * World) :=
  let '(crash_id, d1) := insert_crash ts crash_lat crash_lon new (db w) in
  let d2 := capture_snapshot crash_id snap d1 in
  do (assigned, w') <- dispatch crash_id crash_lat crash_lon None {| db := d2; fan := fan w |};
  inr (ok_crash crash_id assigned, w').

(** ** The process as a transition system *)

Inductive Request : Type :=
| POST_logout (session : option Z)
| POST_availability (session : option Z) (on_duty : bool)
| GET_events (session : option Z)
| POST_accept (session : option Z) (crash_id : option Z)
| POST_decline (session : option Z) (crash_id : option Z)
| POST_arrived (session : option Z) (crash_id : option Z)
| POST_simulate_crash (ts : string) (crash_lat crash_lon : R) (snap : option string)
| stream_next (q : nat).

Definition handle (r : Request) (w : World) : Exc (Response * World) :=
  match r with
  | POST_logout s => logout s w
  | POST_availability s b => set_availability s b w
  | GET_events s => sse_stream s w
  | POST_accept s c => accept_mission s c w
  | POST_decline s c => decline_mission s c w
  | POST_arrived s c => arrived s c w
  | POST_simulate_crash ts lat lon snap => simulate_crash ts lat lon snap w
  | stream_next q =>
      let '(_, f') := generate_next q (fan w) in
      inr (ok_plain, {| db := db w; fan := f' |})
  end.

(** Serving a list of requests one after the other. *)
Fixpoint serve (rs : list Request) (w : World) : Exc World :=
  match rs with
  | [] => inr w
  | r :: rs' => do (_, w') <- handle r w; serve rs' w'
  end.

(** A world is reachable when the process gets to it from a database
    without incidents (any roster, any subscriptions), serving one
    request after the other, each to its end.  Requests that overlap are
    the matter of [running] below. *)
Inductive reachable : World → Prop :=
| reachable_fresh w : crashes (db w) = ∅ → reachable w
| reachable_step w r resp w' :
    reachable w → handle r w = inr (resp, w') → reachable w'.

(** ** The seed of [init_db.py] *)

Definition seed_units : list Ambulance :=
  [ mkAmbulance "Unit-01" 10.5276 76.2144 true;
    mkAmbulance "Unit-02" 10.5167 76.2167 true;
    mkAmbulance "Unit-03" 9.9312 76.2673 true;
    mkAmbulance "Unit-04" 10.0159 76.3419 true;
    mkAmbulance "Unit-05" 10.4515 76.1875 true ].

(** [password] holds [hash_pw] of the plain password; SHA-256 is not
    modelled and the column keeps the plain text as a placeholder. *)
Definition seed_drivers : list Driver :=
  [ mkDriver 1 "Arjun Nair" "DRV-01" "driver01" "Unit-01" false;
    mkDriver 2 "Priya Menon" "DRV-02" "driver02" "Unit-02" false;
    mkDriver 3 "Rahul Krishnan" "DRV-03" "driver03" "Unit-03" false;
    mkDriver 4 "Anitha Suresh" "DRV-04" "driver04" "Unit-04" false;
    mkDriver 5 "Vishnu Kumar" "DRV-05" "driver05" "Unit-05" false ].

(** [init] on a missing database file, and the process right after start. *)
Definition init : DB :=
  {| crashes := ∅; crash_seq := 0; ambulances := seed_units; drivers := seed_drivers |}.

Definition start : World :=
  {| db := init; fan := {| subscribers := ∅; queues := ∅ |} |}.

(** ** Scenarios

    Driver 1 goes on duty; a crash is reported at the station of Unit-01;
    driver 1 accepts and arrives. *)
Definition duty_on : list Request := [POST_availability (Some 1%Z) true].

(** Drivers 1 and 2 are both on duty. *)
Definition duty_on_two : list Request :=
  [POST_availability (Some 1%Z) true; POST_availability (Some 2%Z) true].

Definition crash_reported : list Request :=
  duty_on ++ [POST_simulate_crash "2024-01-01T00:00:00" 10.5276 76.2144 None].

Definition crash_accepted : list Request :=
  crash_reported ++ [POST_accept (Some 1%Z) (Some 1%Z)].

Definition crash_resolved : list Request :=
  crash_accepted ++ [POST_arrived (Some 1%Z) (Some 1%Z)].

(** The rows of drivers 1 (on duty) and 2 (off duty) in these scenarios,
    and the row of crash 1 once it is dispatched, accepted and resolved. *)
Definition driver_1 : Driver := mkDriver 1 "Arjun Nair" "DRV-01" "driver01" "Unit-01" true.

Definition driver_2 : Driver := mkDriver 2 "Priya Menon" "DRV-02" "driver02" "Unit-02" false.

Definition crash_1 (st : Status) (unit : option string) : Crash :=
  mkCrash "2024-01-01T00:00:00" 10.5276 76.2144 None st unit.

(** A crash is reported while nobody is on duty, and driver 1, off duty,
    accepts it all the same. *)
Definition crash_unattended : list Request :=
  [POST_simulate_crash "2024-01-01T00:00:00" 10.5276 76.2144 None].

Definition crash_unattended_accepted : list Request :=
  crash_unattended ++ [POST_accept (Some 1%Z) (Some 1%Z)].

(** After the crash has gone to Unit-01, driver 2 comes on duty. *)
Definition second_unit_on_duty : list Request :=
  crash_reported ++ [POST_availability (Some 2%Z) true].

(** The world [rs] leads to from [w0]; [w0] itself should a request
    raise. *)
Definition after (w0 : World) (rs : list Request) : World :=
  match serve rs w0 with
  | inr w => w
  | inl _ => w0
  end.

(** A roster whose only unit has the empty string as its id. *)
Definition blank_roster : World :=
  {| db := {| crashes := ∅; crash_seq := 0;
              ambulances := [mkAmbulance "" 10.5276 76.2144 true];
              drivers := [mkDriver 1 "Arjun Nair" "DRV-01" "driver01" "" false] |};
     fan := {| subscribers := ∅; queues := ∅ |} |}.

(** The row [simulate_crash] inserts, and the world between its [INSERT]
    and its call of [dispatch]. *)
Definition new_crash : Crash :=
  mkCrash "2024-01-01T00:00:00" 10.5276 76.2144 None new None.

Definition crash_inserted (w : World) : World :=
  {| db := snd (insert_crash "2024-01-01T00:00:00" 10.5276 76.2144 new (db w));
     fan := fan w |}.

(** The world between the commit of [decline_mission] and its call of
    [dispatch], when driver 1, alone on duty, declines crash 1. *)
Definition crash_declined : World :=
  {| db := update_crash (set_assignment new None) 1 (db (after start crash_reported));
     fan := fan (after start crash_reported) |}.

(** Unit-01 has two live streams and Unit-02 one: queue 0 holds 30
    pending messages and is full, queues 1 and 2 are empty. *)
Definition pending : Msg :=
  ("status_update", status_update_data (Some 1%Z) en_route (Some "Unit-01")).

Definition busy_fanout : Fanout :=
  {| subscribers := <["Unit-01" := [0; 1]%nat]> (<["Unit-02" := [2%nat]]> ∅);
     queues := <[0%nat := mkQueue 30 (replicate 30 pending)]>
                 (<[1%nat := mkQueue 30 []]> (<[2%nat := mkQueue 30 []]> ∅)) |}.

Definition assignment : Payload := mission_assigned_data 2 "Unit-01" 10.5276 76.2144.

(** ** Well-formed registries

    Every list of [_subscribers] holds each queue object once, and every
    reference in it points into the store. *)
Definition registry_ok (f : Fanout) : Prop :=
  ∀ u, NoDup (subscribed f u) ∧ ∀ r, r ∈ subscribed f u → is_Some (queues f !! r).

(** ** The pairing of status and assigned unit

    What every route keeps of the two columns [status] and
    [assigned_ambulance_id] of a crash row. *)
Definition paired (c : Crash) : Prop :=
  match status c with
  | new | no_unit_available => assigned_ambulance_id c = None
  | waiting_for_driver => assigned_ambulance_id c ≠ None
  | en_route | resolved => True
  end.

Definition all_paired (d : DB) : Prop :=
  ∀ i c, crashes d !! i = Some c → paired c.

(** The part of the pairing that every single statement of SQL keeps, and
    that therefore holds between the commits of requests that overlap. *)
Definition weakly_paired (c : Crash) : Prop :=
  match status c with
  | new => assigned_ambulance_id c = None
  | waiting_for_driver => assigned_ambulance_id c ≠ None
  | en_route | resolved | no_unit_available => True
  end.

Definition all_weakly_paired (d : DB) : Prop :=
  ∀ i c, crashes d !! i = Some c → weakly_paired c.

(** ** Addresses *)

(** A row of [landmarks] in [get_address]. *)
Record Landmark : Type := mkLandmark {
  lm_latitude : R;
  lm_longitude : R;
  lm_name : string
}.

Definition landmarks : list Landmark :=
  [ mkLandmark 10.5276 76.2144 "Thrissur Medical College, Thrissur, Kerala";
    mkLandmark 10.5167 76.2167 "Sakthan Thampuran Nagar, Thrissur, Kerala";
    mkLandmark 9.9312 76.2673 "General Hospital, Ernakulam, Kerala";
    mkLandmark 10.0159 76.3419 "Aluva Junction, Ernakulam, Kerala";
    mkLandmark 10.4515 76.1875 "Irinjalakuda Town, Thrissur, Kerala";
    mkLandmark 10.8505 76.2711 "Palakkad Town, Kerala";
    mkLandmark 10.3528 76.5120 "Chalakudy, Thrissur, Kerala";
    mkLandmark 9.5916 76.5222 "Kottayam Medical College, Kerala" ].

(** The two texts [get_address] returns: [f"Near {nearest[2]}"], and the
    highway text with the coordinates, whose formatting to four decimals
    is outside the model. *)
Inductive Address : Type :=
| near (landmark : string)
| highway (lat lon : R).

(** The key of [min] in [get_address]. *)
Definition landmark_km (lat lon : R) (l : Landmark) : R :=
  haversine lat lon (lm_latitude l) (lm_longitude l).

Definition get_address (lat lon : R) : Exc Address :=
  do nearest <- py_min (landmark_km lat lon) landmarks;
  let dist := landmark_km lat lon nearest in
  if Rltb dist 5 then inr (near (lm_name nearest)) else inr (highway lat lon).

(** ** The mission of a driver *)

(** The body of [/api/mission] for a crash; [distance_km] is the distance
    before [round(_, 2)], and [snapshot_url], a text made of the crash id,
    is left out. *)
Record Mission : Type := mkMission {
  m_status : Status;
  m_crash_id : Z;
  m_crash_lat : R;
  m_crash_lon : R;
  m_timestamp : string;
  m_address : Address;
  m_distance_km : R
}.

Inductive MissionResponse : Type :=
| mission_not_logged_in                     (* 401 *)
| mission_standby
| mission_active (m : Mission).

(** [c.assigned_ambulance_id=? AND c.status IN ('waiting_for_driver','en_route')] *)
Definition is_active (unit : string) (c : Crash) : bool :=
  match assigned_ambulance_id c with
  | Some a => String.eqb a unit
  | None => false
  end
  && match status c with
     | waiting_for_driver | en_route => true
     | new | resolved | no_unit_available => false
     end.

(** [ORDER BY c.id DESC LIMIT 1]: the row of the largest id. *)
Definition newer (best : option (Z * Crash)) (row : Z * Crash) : option (Z * Crash) :=
  match best with
  | None => Some row
  | Some b => if (fst b <? fst row)%Z then Some row else Some b
  end.

Definition mission_row (unit : string) (d : DB) : option (Z * Crash) :=
  foldl newer None
        (List.filter (fun row => is_active unit (snd row)) (map_to_list (crashes d))).

(** [LEFT JOIN ambulances a ON c.assigned_ambulance_id = a.id] for the unit
    of the driver: its row, if the table has one. *)
Definition unit_row (unit : string) (d : DB) : option Ambulance :=
  List.find (fun a => String.eqb (amb_id a) unit) (ambulances d).

(** [/api/mission]; [row["amb_lat"] or 0] is 0 without a unit row. *)
Definition get_mission (session : option Z) (w : World) : Exc MissionResponse :=
  match get_current_driver session (db w) with
  | None => inr mission_not_logged_in
  | Some driver =>
      match mission_row (unit_id driver) (db w) with
      | None => inr mission_standby
      | Some (i, row) =>
          let amb := unit_row (unit_id driver) (db w) in
          let amb_lat := match amb with Some a => amb_latitude a | None => 0%R end in
          let amb_lon := match amb with Some a => amb_longitude a | None => 0%R end in
          do address <- get_address (latitude row) (longitude row);
          inr (mission_active
                 {| m_status := status row; m_crash_id := i;
                    m_crash_lat := latitude row; m_crash_lon := longitude row;
                    m_timestamp := timestamp row; m_address := address;
                    m_distance_km :=
                      haversine (latitude row) (longitude row) amb_lat amb_lon |})
      end
  end.

(** ** The callers of [haversine] in floating point *)

Definition get_address_fl (fl : Arith) (lat lon : R) : Exc Address :=
  let km l := haversine_fl fl lat lon (lm_latitude l) (lm_longitude l) in
  do nearest <- py_min_fl km landmarks;
  do dist <- km nearest;
  if Rltb dist 5 then inr (near (lm_name nearest)) else inr (highway lat lon).

(** What a call leaves behind: the exception it raised or the value it
    returned, each with the state of the process at that point.  What was
    committed before an exception stays committed. *)
Definition Outcome (A : Type) : Type := (exn * World + A * World)%type.

Definition state_after {A : Type} (o : Outcome A) : World :=
  match o with
  | inl (_, w) => w
  | inr (_, w) => w
  end.

(** [dispatch] from line 80 on, with the rows [units] it has read and
    filtered.  The dictionary of [push_event] is built before the call:
    [get_address] runs after the commit and before anything is published. *)
Definition dispatch_from (fl : Arith) (crash_id : Z) (crash_lat crash_lon : R)
    (units : list Ambulance) (w : World) : Outcome (option string) :=
  match units with
  | [] =>
      inr (None,
           {| db := update_crash (set_status no_unit_available) crash_id (db w);
              fan := fan w |})
  | _ :: _ =>
      let km u := haversine_fl fl crash_lat crash_lon (amb_latitude u) (amb_longitude u) in
      match py_min_fl km units with
      | inl e => inl (e, w)
      | inr nearest =>
          match km nearest with
          | inl e => inl (e, w)
          | inr dist_km =>
              let w1 :=
                {| db := update_crash
                           (set_assignment waiting_for_driver (Some (amb_id nearest)))
                           crash_id (db w);
                   fan := fan w |} in
              match get_address_fl fl crash_lat crash_lon with
              | inl e => inl (e, w1)
              | inr address =>
                  match push_event (amb_id nearest) "mission_assigned"
                          (mission_assigned_data crash_id (amb_id nearest)
                             crash_lat crash_lon)
                          (fan w) with
                  | inl e => inl (e, w1)
                  | inr f' => inr (Some (amb_id nearest), {| db := db w1; fan := f' |})
                  end
              end
          end
      end
  end.

(** [dispatch]: the query and the filter of lines 71 to 78, then the
    rest. *)
Definition dispatch_fl (fl : Arith) (crash_id : Z) (crash_lat crash_lon : R)
    (exclude_unit : option string) (w : World) : Outcome (option string) :=
  dispatch_from fl crash_id crash_lat crash_lon (candidates (db w) exclude_unit) w.

(** [/api/mission]; the dictionary is built in the order it is written:
    [get_address], then [haversine]. *)
Definition get_mission_fl (fl : Arith) (session : option Z) (w : World)
  : Exc MissionResponse :=
  match get_current_driver session (db w) with
  | None => inr mission_not_logged_in
  | Some driver =>
      match mission_row (unit_id driver) (db w) with
      | None => inr mission_standby
      | Some (i, row) =>
          let amb := unit_row (unit_id driver) (db w) in
          let amb_lat := match amb with Some a => amb_latitude a | None => 0%R end in
          let amb_lon := match amb with Some a => amb_longitude a | None => 0%R end in
          do address <- get_address_fl fl (latitude row) (longitude row);
          do km <- haversine_fl fl (latitude row) (longitude row) amb_lat amb_lon;
          inr (mission_active
                 {| m_status := status row; m_crash_id := i;
                    m_crash_lat := latitude row; m_crash_lon := longitude row;
                    m_timestamp := timestamp row; m_address := address;
                    m_distance_km := km |})
      end
  end.

(** A unit [dispatch] may choose: a row [v] of [ambulances] that is
    available, with a row [dr] of [drivers] on duty for it, and not the
    unit to exclude. *)
Definition eligible (d : DB) (exclude_unit : option string)
    (v : Ambulance) (dr : Driver) : Prop :=
  v ∈ ambulances d ∧ dr ∈ drivers d ∧ unit_id dr = amb_id v
  ∧ is_available v = true ∧ is_on_duty dr = true
  ∧ ∀ x, exclude_unit = Some x → x ≠ "" → amb_id v ≠ x.

(** ** Login *)

Inductive LoginResponse : Type :=
| login_refused                                (* 401 *)
| login_ok (session : Z) (driver : Driver).

(** [/api/login].  [hash_pw] is SHA-256 in hexadecimal and [strip_upper]
    is [str.strip] followed by [str.upper]; both are library functions and
    are taken as they come.  A missing key of the request reads as the
    empty string.  The answer carries the row and the [driver_id] the
    session is given. *)
Definition login (hash_pw strip_upper : string → string)
    (data_badge data_password : option string) (d : DB) : LoginResponse :=
  let badge_ := strip_upper (default "" data_badge) in
  let password_ := default "" data_password in
  match List.find (fun dr => String.eqb (badge dr) badge_
                             && String.eqb (password dr) (hash_pw password_))
                  (drivers d) with
  | None => login_refused
  | Some driver => login_ok (driver_id driver) driver
  end.

(** [/api/me]: the driver of the session, or 401. *)
Definition me (session : option Z) (d : DB) : option Driver :=
  get_current_driver session d.

(** ** The initializer on an existing database *)

(** [INSERT OR IGNORE INTO ambulances]: a row whose id is taken is
    skipped. *)
Definition insert_or_ignore_unit (d : DB) (row : Ambulance) : DB :=
  if existsb (fun a => String.eqb (amb_id a) (amb_id row)) (ambulances d) then d
  else {| crashes := crashes d; crash_seq := crash_seq d;
          ambulances := ambulances d ++ [row]; drivers := drivers d |}.

(** The database file as [init] finds it: the tables, and the entry of
    [sqlite_sequence] for [drivers], the largest id AUTOINCREMENT has
    handed out. *)
Record Store : Type := mkStore {
  tables : DB;
  driver_seq : Z
}.

(** The id AUTOINCREMENT hands out: one above the largest id handed out
    before and the largest id in the table. *)
Definition next_driver_id (s : Store) : Z :=
  (Z.max (driver_seq s) (foldr Z.max 0 (map driver_id (drivers (tables s)))) + 1)%Z.

(** [INSERT OR IGNORE INTO drivers (name, badge, password, unit_id)]: a row
    whose badge is taken is skipped; [is_on_duty] defaults to 0.  The id
    is taken before the badge is checked, so a skipped row uses one up as
    well. *)
Definition insert_or_ignore_driver (s : Store) (row : Driver) : Store :=
  let id_ := next_driver_id s in
  let d := tables s in
  if existsb (fun dr => String.eqb (badge dr) (badge row)) (drivers d)
  then {| tables := d; driver_seq := id_ |}
  else {| tables :=
            {| crashes := crashes d; crash_seq := crash_seq d;
               ambulances := ambulances d;
               drivers := drivers d ++
                          [mkDriver id_ (name row) (badge row) (password row)
                                    (unit_id row) false] |};
          driver_seq := id_ |}.

(** [init] of [init_db.py] on the file as it is: the two [executemany]
    over the seed rows. *)
Definition init_db (s : Store) : Store :=
  foldl insert_or_ignore_driver
        {| tables := foldl insert_or_ignore_unit (tables s) seed_units;
           driver_seq := driver_seq s |}
        seed_drivers.

(** ** Data endpoints *)

(** [/api/crashes]: [SELECT * FROM crashes ORDER BY id DESC LIMIT 50]. *)
Definition id_desc (x y : Z * Crash) : Prop := (fst y <= fst x)%Z.

#[global] Instance id_desc_dec x y : Decision (id_desc x y).
Proof. unfold id_desc. apply _. Defined.

Definition list_crashes (d : DB) : list (Z * Crash) :=
  take 50 (merge_sort id_desc (map_to_list (crashes d))).

(** [/api/ambulances]:
    [SELECT a.*, d.name as driver_name, d.badge, d.is_on_duty
     FROM ambulances a LEFT JOIN drivers d ON d.unit_id = a.id]: one row per
    driver of the unit, and one row without a driver for a unit that has
    none.  The units come in table order; the order of the drivers of one
    unit is that of the index SQLite builds for the join, and only which
    rows the list holds, and how often, is stated of it below. *)
Definition list_ambulances (d : DB) : list (Ambulance * option Driver) :=
  flat_map
    (fun a =>
       match List.filter (fun dr => String.eqb (unit_id dr) (amb_id a)) (drivers d) with
       | [] => [(a, None)]
       | ds => map (fun dr => (a, Some dr)) ds
       end)
    (ambulances d).

(** ** Requests that overlap

    [app.run(threaded=True)] serves every request in a thread of its own.
    Each statement of SQL reads or commits the database as a whole, and
    between two of them the threads of other requests may run.  The
    routes that commit more than once are [simulate_crash] (its [INSERT],
    the [UPDATE] of [capture_snapshot], then [dispatch]) and
    [decline_mission] (its [UPDATE], then [dispatch]); [dispatch] reads
    the units before it writes the crash.  A request under way is at one
    of these places, with what it has read so far. *)
Inductive Thread : Type :=
| at_snapshot (crash_id : Z) (crash_lat crash_lon : R) (snap : option string)
    (* simulate_crash, line 387 *)
| at_dispatch (crash_id : Z) (crash_lat crash_lon : R) (exclude_unit : option string)
    (* dispatch, line 70 *)
| at_update (crash_id : Z) (crash_lat crash_lon : R) (units : list Ambulance).
    (* dispatch, line 80 *)

Record Server : Type := mkServer {
  world : World;
  threads : list Thread
}.

(** A request arrives and runs up to its first commit, or the [k]-th
    request under way runs up to its next one. *)
Inductive Turn : Type :=
| arrives (r : Request)
| resumes (k : nat).

(** The events a route publishes after its last commit are placed at that
    commit. *)
Definition turn (fl : Arith) (t : Turn) (s : Server) : Exc Server :=
  let w := world s in
  match t with
  | arrives r =>
      match r with
      | POST_simulate_crash ts crash_lat crash_lon snap =>
          let '(crash_id, d1) := insert_crash ts crash_lat crash_lon new (db w) in
          inr {| world := {| db := d1; fan := fan w |};
                 threads := threads s ++ [at_snapshot crash_id crash_lat crash_lon snap] |}
      | POST_decline session crash_id =>
          match get_current_driver session (db w), crash_id with
          | Some driver, Some i =>
              let row := crashes (db w) !! i in
              inr {| world := {| db := update_crash (set_assignment new None) i (db w);
                                 fan := fan w |};
                     threads :=
                       threads s ++
                       match row with
                       | Some row =>
                           [at_dispatch i (latitude row) (longitude row)
                                        (Some (unit_id driver))]
                       | None => []
                       end |}
          | _, _ => inr s
          end
      | _ => do (_, w') <- handle r w; inr {| world := w'; threads := threads s |}
      end
  | resumes k =>
      match threads s !! k with
      | None => inr s
      | Some (at_snapshot i crash_lat crash_lon snap) =>
          inr {| world := {| db := capture_snapshot i snap (db w); fan := fan w |};
                 threads := <[k := at_dispatch i crash_lat crash_lon None]> (threads s) |}
      | Some (at_dispatch i crash_lat crash_lon exclude_unit) =>
          inr {| world := w;
                 threads := <[k := at_update i crash_lat crash_lon
                                     (candidates (db w) exclude_unit)]> (threads s) |}
      | Some (at_update i crash_lat crash_lon units) =>
          inr {| world := state_after (dispatch_from fl i crash_lat crash_lon units w);
                 threads := delete k (threads s) |}
      end
  end.

Fixpoint play (fl : Arith) (ts : list Turn) (s : Server) : Exc Server :=
  match ts with
  | [] => inr s
  | t :: ts' => do s' <- turn fl t s; play fl ts' s'
  end.

(** The states the threaded server gets to from a database without
    incidents and with no request under way. *)
Inductive running (fl : Arith) : Server → Prop :=
| running_fresh w : crashes (db w) = ∅ → running fl {| world := w; threads := [] |}
| running_turn s t s' : running fl s → turn fl t s = inr s' → running fl s'.

(** The server right after start. *)
Definition boot : Server := {| world := start; threads := [] |}.

(** Driver 1 is on duty and a report has come in: its row is inserted,
    the snapshot and the dispatch are still to come. *)
Definition report_under_way : list Turn :=
  [ arrives (POST_availability (Some 1%Z) true);
    arrives (POST_simulate_crash "2024-01-01T00:00:00" 10.5276 76.2144 None) ].

(** The report runs to its end, the crash going to Unit-01. *)
Definition report_done : list Turn :=
  report_under_way ++ [resumes 0; resumes 0; resumes 0].

(** Drivers 2 and 1 decline crash 1 at the same time: both resets are
    committed, both dispatches read the units, then the dispatch for
    driver 2 writes Unit-01 and the dispatch for driver 1, which has found
    nobody, writes [no_unit_available]. *)
Definition overlapping_declines : list Turn :=
  report_done ++
  [ arrives (POST_decline (Some 2%Z) (Some 1%Z));
    arrives (POST_decline (Some 1%Z) (Some 1%Z));
    resumes 0; resumes 1; resumes 0; resumes 0 ].

(** A report, accepted and resolved, and a report nobody is on duty for,
    accepted all the same, each request served to its end. *)
Definition resolved_in_turn : list Turn :=
  report_done ++ [ arrives (POST_accept (Some 1%Z) (Some 1%Z));
                   arrives (POST_arrived (Some 1%Z) (Some 1%Z)) ].

Definition unattended_in_turn : list Turn :=
  [ arrives (POST_simulate_crash "2024-01-01T00:00:00" 10.5276 76.2144 None);
    resumes 0; resumes 0; resumes 0;
    arrives (POST_accept (Some 1%Z) (Some 1%Z)) ].

(** ** The session cookie

    The session travels in a cookie of the browser.  [login] writes
    [driver_id] into it, [logout] empties it ([session.clear()]), and no
    other route touches it.  A click is a request of the browser, sent
    with its cookie, or a request somebody else sends in between. *)
Inductive Click : Type :=
| own_logout
| own_availability (on_duty : bool)
| own_events
| own_accept (crash_id : option Z)
| own_decline (crash_id : option Z)
| own_arrived (crash_id : option Z)
| other_request (r : Request).

Definition request_of (cookie : option Z) (k : Click) : Request :=
  match k with
  | own_logout => POST_logout cookie
  | own_availability b => POST_availability cookie b
  | own_events => GET_events cookie
  | own_accept c => POST_accept cookie c
  | own_decline c => POST_decline cookie c
  | own_arrived c => POST_arrived cookie c
  | other_request r => r
  end.

Definition cookie_after (cookie : option Z) (k : Click) : option Z :=
  match k with
  | own_logout => None
  | _ => cookie
  end.

Fixpoint browse (ks : list Click) (cookie : option Z) (w : World)
  : Exc (option Z * World) :=
  match ks with
  | [] => inr (cookie, w)
  | k :: ks' =>
      do (_, w') <- handle (request_of cookie k) w;
      browse ks' (cookie_after cookie k) w'
  end.

(** The shift of driver 1: on duty, a crash comes in, accepted, arrived,
    logged out. *)
Definition shift_of_driver_1 : list Click :=
  [ own_availability true;
    other_request (POST_simulate_crash "2024-01-01T00:00:00" 10.5276 76.2144 None);
    own_accept (Some 1%Z); own_arrived (Some 1%Z); own_logout ].

(** ** Further invariants *)

(** No crash has an id above the AUTOINCREMENT counter. *)
Definition ids_bounded (d : DB) : Prop :=
  ∀ i, is_Some (crashes d !! i) → (i <= crash_seq d)%Z.

(** Every queue is one of [sse_stream]: of capacity 30, and within it. *)
Definition queues_bounded (f : Fanout) : Prop :=
  ∀ r q, queues f !! r = Some q → maxsize q = 30%nat ∧ (qsize q <= 30)%nat.

(** No queue is subscribed to two units. *)
Definition exclusive (f : Fanout) : Prop :=
  ∀ u1 u2 r, r ∈ subscribed f u1 → r ∈ subscribed f u2 → u1 = u2.

(** Two rows of [drivers] that differ in [is_on_duty] at most. *)
Definition same_driver (a b : Driver) : Prop :=
  set_on_duty false a = set_on_duty false b.

(** What stays of a crash row whatever happens to it: when and where. *)
Definition same_incident (c c' : Crash) : Prop :=
  timestamp c' = timestamp c ∧ latitude c' = latitude c ∧ longitude c' = longitude c.

(** Every crash of [d] is still a crash of [d'], at the same time and
    place. *)
Definition history_kept (d d' : DB) : Prop :=
  ∀ i c, crashes d !! i = Some c →
         ∃ c', crashes d' !! i = Some c' ∧ same_incident c c'.

(** Driver 1 opens a stream, goes on duty, and a crash is reported. *)
Definition stream_then_crash : list Request :=
  GET_events (Some 1%Z) :: crash_reported.

(** The table has a unit of this id; the table has a driver of this
    badge. *)
Definition has_unit (d : DB) (i : string) : Prop :=
  ∃ a, a ∈ ambulances d ∧ amb_id a = i.

Definition has_badge (d : DB) (b : string) : Prop :=
  ∃ dr, dr ∈ drivers d ∧ badge dr = b.

(** Two rows of [crashes], the first of the larger id. *)
Definition id_above (x y : Z * Crash) : Prop := (fst y < fst x)%Z.

(** * Properties *)

(** ** Event fanout *)

Section FanoutFacts.
Implicit Types (msg : Msg) (q : Queue) (qs : gmap nat Queue) (l : list nat)
  (f : Fanout).

Lemma try_put_alter msg r qs : try_put msg r qs = inr (alter (offer msg) r qs).
Proof.
  unfold try_put, put_nowait.
  assert (Hid : ∀ q, qs !! r = Some q → full q = true → alter (offer msg) r qs = qs).
  { intros q Hq Hfull. apply map_eq. intros i. rewrite lookup_alter.
    case_decide; [subst i|done]. rewrite Hq. simpl. unfold offer. by rewrite Hfull. }
  destruct (qs !! r) as [q|] eqn:Hq.
  - destruct (full q) eqn:Hfull.
    + by rewrite (Hid q).
    + f_equal. apply map_eq. intros i. rewrite lookup_alter, lookup_insert.
      case_decide; [subst i|done]. rewrite Hq. simpl. unfold offer. by rewrite Hfull.
  - f_equal. apply map_eq. intros i. rewrite lookup_alter.
    case_decide; [subst i|done]. by rewrite Hq.
Qed.

Lemma for_each_try_put msg l qs :
  for_each (try_put msg) l qs = inr (offer_all msg l qs).
Proof.
  revert qs. induction l as [|r l IH]; intros qs; [done|].
  simpl. rewrite try_put_alter. simpl. apply IH.
Qed.

Lemma for_each_lists msg (ls : list (list nat)) qs :
  for_each (fun queues_ qs => for_each (try_put msg) queues_ qs) ls qs
  = inr (offer_all msg (concat ls) qs).
Proof.
  revert qs. induction ls as [|l ls IH]; intros qs; [done|].
  simpl. rewrite for_each_try_put. simpl. rewrite IH.
  unfold offer_all. by rewrite foldl_app.
Qed.

Lemma push_event_inr u et data f :
  push_event u et data f =
  inr {| subscribers := subscribers f;
         queues := offer_all (et, data) (subscribed f u) (queues f) |}.
Proof. unfold push_event. by rewrite for_each_try_put. Qed.

Lemma push_all_inr et data f :
  push_all et data f =
  inr {| subscribers := subscribers f;
         queues := offer_all (et, data) (all_subscribed f) (queues f) |}.
Proof. unfold push_all. by rewrite for_each_lists. Qed.

Lemma offer_all_not_elem msg l qs r :
  r ∉ l → offer_all msg l qs !! r = qs !! r.
Proof.
  revert qs. induction l as [|x l IH]; intros qs Hr; [done|].
  apply not_elem_of_cons in Hr as [Hne Hr]. simpl.
  unfold offer_all in *. simpl. rewrite IH by done.
  rewrite lookup_alter. by case_decide; [subst|].
Qed.

Lemma offer_all_elem msg l qs r :
  NoDup l → r ∈ l → offer_all msg l qs !! r = offer msg <$> qs !! r.
Proof.
  revert qs. induction l as [|x l IH]; intros qs Hnd Hr.
  { by apply elem_of_nil in Hr. }
  apply NoDup_cons in Hnd as [Hx Hnd].
  unfold offer_all in *. simpl.
  destruct (decide (r = x)) as [->|Hne].
  - pose proof (offer_all_not_elem msg l (alter (offer msg) x qs) x Hx) as H.
    unfold offer_all in H. rewrite H, lookup_alter. by case_decide.
  - apply elem_of_cons in Hr as [?|Hr]; [done|].
    rewrite IH by done. rewrite lookup_alter. by case_decide; [subst|].
Qed.

Lemma get_offer msg q :
  items q = [] → full q = false →
  get (offer msg q) = inr (msg, {| maxsize := maxsize q; items := [] |}).
Proof. intros Hi Hf. unfold offer, get. rewrite Hf. simpl. by rewrite Hi. Qed.

End FanoutFacts.

(** ** Dispatch, case by case *)

Section DispatchFacts.
Implicit Types (w : World) (d : DB) (u : Ambulance).

Lemma dispatch_none cid lat lon ex w :
  candidates (db w) ex = [] →
  dispatch cid lat lon ex w =
  inr (None, {| db := update_crash (set_status no_unit_available) cid (db w);
                fan := fan w |}).
Proof. intros H. unfold dispatch. by rewrite H. Qed.

Lemma dispatch_some cid lat lon ex w u us :
  candidates (db w) ex = u :: us →
  let nearest := min_from (dist_km lat lon) u us in
  dispatch cid lat lon ex w =
  inr (Some (amb_id nearest),
       {| db := update_crash (set_assignment waiting_for_driver (Some (amb_id nearest)))
                             cid (db w);
          fan := {| subscribers := subscribers (fan w);
                    queues := offer_all ("mission_assigned",
                                         mission_assigned_data cid (amb_id nearest) lat lon)
                                (subscribed (fan w) (amb_id nearest))
                                (queues (fan w)) |} |}).
Proof. intros H. unfold dispatch. rewrite H. simpl. by rewrite push_event_inr. Qed.

Lemma dispatch_returns cid lat lon ex w :
  ∃ r w', dispatch cid lat lon ex w = inr (r, w')
          ∧ subscribers (fan w') = subscribers (fan w)
          ∧ ambulances (db w') = ambulances (db w)
          ∧ drivers (db w') = drivers (db w).
Proof.
  destruct (candidates (db w) ex) as [|u us] eqn:H.
  - rewrite (dispatch_none _ _ _ _ _ H). by eexists _, _.
  - rewrite (dispatch_some _ _ _ _ _ _ _ H). by eexists _, _.
Qed.

End DispatchFacts.

(** Unfolds the route in hypothesis [H], takes the login check apart and
    replaces the two publishers by what they return. *)
Ltac route H :=
  unfold handle, logout, set_availability, sse_stream, accept_mission,
    decline_mission, arrived, simulate_crash, insert_crash in H;
  try match type of H with
    | context [get_current_driver ?s ?d] =>
        let E := fresh "Hdrv" in destruct (get_current_driver s d) eqn:E
    end;
  rewrite ?push_all_inr, ?push_event_inr in H;
  cbn [exc_bind db fan subscribers queues fst snd] in H.

(** Replaces the call of [dispatch] in [H] by its result [(r, w2)]. *)
Ltac dispatched H r w2 Hd :=
  match type of H with
  | context [dispatch ?a ?b ?c ?e ?v] =>
      destruct (dispatch a b c e v) as [?|[r w2]] eqn:Hd;
      [discriminate H|cbn [exc_bind] in H]
  end.

Ltac returned H := inversion H; subst; clear H; cbn [db fan subscribers queues].

Section RegistryFacts.

Lemma dispatch_subscribers cid lat lon ex w r w' :
  dispatch cid lat lon ex w = inr (r, w') →
  subscribers (fan w') = subscribers (fan w).
Proof.
  intros H. destruct (dispatch_returns cid lat lon ex w) as (r0 & w0 & Hd & Hs & _).
  rewrite Hd in H. by inversion H; subst.
Qed.

Lemma handle_subscribers r w resp w' :
  handle r w = inr (resp, w') →
  subscribers (fan w') = subscribers (fan w)
  ∨ ∃ s driver q,
      r = GET_events s ∧ get_current_driver s (db w) = Some driver
      ∧ resp = ok_stream q ∧ queues (fan w) !! q = None
      ∧ subscribers (fan w') =
        <[unit_id driver := subscribed (fan w) (unit_id driver) ++ [q]]>
          (subscribers (fan w)).
Proof.
  intros H. destruct r as [s|s b|s|s c|s c|s c|ts lat lon snap|q].
  - route H; returned H; by left.
  - route H; returned H; by left.
  - route H; returned H; [|by left].
    right. eexists s, _, _. repeat split; [done|].
    apply not_elem_of_dom, is_fresh.
  - route H; returned H; by left.
  - route H; [|returned H; by left].
    destruct c as [i|]; [|returned H; by left].
    destruct (crashes (db w) !! i) as [row|]; [|returned H; by left].
    dispatched H r w2 Hd. returned H. left.
    by rewrite (dispatch_subscribers _ _ _ _ _ _ _ Hd).
  - route H; returned H; by left.
  - route H. dispatched H r w2 Hd. returned H. left.
    by rewrite (dispatch_subscribers _ _ _ _ _ _ _ Hd).
  - cbn [handle] in H. unfold generate_next in H.
    destruct (queues (fan w) !! q) as [qu|]; [|returned H; by left].
    destruct (get qu) as [e|[m qu']]; returned H; by left.
Qed.

Lemma list_remove_first_spec q l :
  match list_remove_first q l with
  | inl _ => q ∉ l
  | inr l' => ∃ l1 l2, l = l1 ++ (q :: l2) ∧ (q ∉ l1) ∧ l' = l1 ++ l2
  end.
Proof.
  induction l as [|y l IH]; simpl.
  - apply not_elem_of_nil.
  - destruct (Nat.eqb_spec y q) as [->|Hne].
    + exists [], l. split_and!; [done| apply not_elem_of_nil |done].
    + destruct (list_remove_first q l) as [e|l']; simpl.
      * apply not_elem_of_cons. split; [by intros ->|apply IH].
      * destruct IH as (l1 & l2 & -> & Hq & ->).
        exists (y :: l1), l2. split_and!; [done| |done].
        apply not_elem_of_cons. split; [by intros ->|apply Hq].
Qed.

Lemma cleanup_subscribers u q f :
  queues (cleanup u q f) = queues f
  ∧ (((q ∉ subscribed f u) ∧ subscribers (cleanup u q f) = subscribers f)
     ∨ ∃ l1 l2, subscribed f u = l1 ++ (q :: l2) ∧ (q ∉ l1)
                ∧ subscribers (cleanup u q f) = <[u := l1 ++ l2]> (subscribers f)).
Proof.
  unfold cleanup, subscribed.
  destruct (subscribers f !! u) as [l|] eqn:Hl; simpl.
  - pose proof (list_remove_first_spec q l) as Hrm.
    destruct (list_remove_first q l) as [e|l']; simpl.
    + split; [done|]. by left.
    + split; [done|]. right. destruct Hrm as (l1 & l2 & -> & Hq & ->). by exists l1, l2.
  - split; [done|]. left. split; [apply not_elem_of_nil|done].
Qed.

End RegistryFacts.

(** ** Reachable worlds *)

Section Invariant.
Implicit Types (w : World) (d : DB) (c : Crash).

Lemma serve_reachable rs w w' : reachable w → serve rs w = inr w' → reachable w'.
Proof.
  revert w. induction rs as [|r rs IH]; intros w Hw H; cbn [serve] in H.
  - by inversion H; subst.
  - destruct (handle r w) as [e|[resp w1]] eqn:Hr; [done|]. cbn [exc_bind] in H.
    eapply IH; [|done]. by eapply reachable_step.
Qed.

Lemma reachable_after w0 rs w :
  reachable w0 → serve rs w0 = inr w → reachable (after w0 rs).
Proof.
  intros Hw0 Hs. unfold after. rewrite Hs. by eapply serve_reachable.
Qed.

Lemma update_crash_lookup g i d c :
  crashes d !! i = Some c → crashes (update_crash g i d) !! i = Some (g c).
Proof. intros Hc. cbn. rewrite lookup_alter. case_decide; [|done]. by rewrite Hc. Qed.

Lemma all_paired_weakly d : all_paired d → all_weakly_paired d.
Proof.
  intros H i c Hc. specialize (H i c Hc). unfold paired, weakly_paired in *.
  by destruct (status c).
Qed.

Lemma all_weakly_paired_alter d i g :
  (∀ c, weakly_paired c → weakly_paired (g c)) →
  all_weakly_paired d → all_weakly_paired (update_crash g i d).
Proof.
  intros Hg Hd j c. unfold update_crash. cbn [crashes]. rewrite lookup_alter.
  case_decide; [subst j|by apply Hd].
  destruct (crashes d !! i) as [c0|] eqn:Hc; [|done].
  cbn. intros [= <-]. apply Hg. by apply (Hd i).
Qed.

Lemma all_weakly_paired_roster d d' :
  all_weakly_paired d → crashes d' = crashes d → all_weakly_paired d'.
Proof. intros Hd Heq i c. rewrite Heq. apply Hd. Qed.

Lemma all_paired_alter d i g :
  all_paired d → (∀ c, crashes d !! i = Some c → paired (g c)) →
  all_paired (update_crash g i d).
Proof.
  intros Hd Hg j c. unfold update_crash. cbn [crashes]. rewrite lookup_alter.
  case_decide; [subst j|by apply Hd].
  destruct (crashes d !! i) as [c0|] eqn:Hc; [|done].
  cbn. intros [= <-]. by apply Hg.
Qed.

Lemma all_paired_roster d d' :
  all_paired d → crashes d' = crashes d → all_paired d'.
Proof. intros Hd Heq i c. rewrite Heq. apply Hd. Qed.

Lemma all_paired_insert d i c :
  all_paired d → paired c →
  all_paired (mkDB (<[i := c]> (crashes d)) i (ambulances d) (drivers d)).
Proof.
  intros Hd Hc j c'. cbn [crashes]. rewrite lookup_insert.
  case_decide; [by intros [= <-]|apply Hd].
Qed.

Lemma dispatch_paired cid lat lon ex w r w' :
  all_paired (db w) →
  (∀ c, crashes (db w) !! cid = Some c → assigned_ambulance_id c = None) →
  dispatch cid lat lon ex w = inr (r, w') →
  all_paired (db w').
Proof.
  intros Hw Hnone H.
  destruct (candidates (db w) ex) as [|u us] eqn:Hc.
  - rewrite (dispatch_none _ _ _ _ _ Hc) in H. returned H.
    apply all_paired_alter; [done|]. intros c Hcid. unfold paired. cbn. by apply Hnone.
  - rewrite (dispatch_some _ _ _ _ _ _ _ Hc) in H. returned H.
    apply all_paired_alter; [done|]. intros c Hcid. by unfold paired.
Qed.

Lemma handle_paired r w resp w' :
  all_paired (db w) → handle r w = inr (resp, w') → all_paired (db w').
Proof.
  intros Hw H. destruct r as [s|s b|s|s c|s c|s c|ts lat lon snap|q].
  - route H; returned H; [|done]. by eapply all_paired_roster.
  - route H; returned H; [|done]. by eapply all_paired_roster.
  - route H; by returned H.
  - route H; returned H; [|done].
    eapply all_paired_roster; [|reflexivity].
    destruct c as [i|]; [|done].
    apply all_paired_alter; [done|]. by intros c _.
  - route H; [|by returned H].
    destruct c as [i|]; [|by returned H].
    assert (Hw1 : all_paired (update_crash (set_assignment new None) i (db w))).
    { apply all_paired_alter; [done|]. by intros c _. }
    destruct (crashes (db w) !! i) as [row|] eqn:Hrow; [|by returned H].
    dispatched H r w2 Hd. returned H.
    eapply dispatch_paired; [| |exact Hd]; [done|].
    cbn. intros c. rewrite lookup_alter. case_decide; [|done].
    rewrite Hrow. cbn. by intros [= <-].
  - route H; returned H; [|done].
    eapply all_paired_roster; [|reflexivity].
    destruct c as [i|]; [|done].
    apply all_paired_alter; [done|]. by intros c _.
  - route H. dispatched H r w2 Hd. returned H.
    pose proof (all_paired_insert (db w) (crash_seq (db w) + 1)
                  (mkCrash ts lat lon None new None) Hw eq_refl) as Hins.
    eapply dispatch_paired; [| |exact Hd].
    + cbn [db]. destruct snap as [p|]; cbn [capture_snapshot]; [|done].
      apply all_paired_alter; [done|].
      intros c. cbn [crashes]. rewrite lookup_insert_eq. by intros [= <-].
    + cbn [db]. intros c. destruct snap as [p|]; cbn [capture_snapshot].
      * unfold update_crash. cbn [crashes]. rewrite lookup_alter. case_decide; [|done].
        rewrite lookup_insert_eq. cbn. by intros [= <-].
      * cbn [crashes]. rewrite lookup_insert_eq. by intros [= <-].
  - cbn [handle] in H. destruct (generate_next q (fan w)). by returned H.
Qed.

Lemma reachable_paired w : reachable w → all_paired (db w).
Proof.
  induction 1 as [w Hfresh|w r resp w' _ IH Hstep].
  - intros i c. by rewrite Hfresh, lookup_empty.
  - by eapply handle_paired.
Qed.

End Invariant.

(** ** Haversine distance *)

Section GeoFacts.
Local Open Scope R_scope.

Lemma radians_minus x y : radians (x - y) = radians x - radians y.
Proof. unfold radians. lra. Qed.

Lemma sin_half_sqr x : sin (x / 2) ^ 2 = (1 - cos x) / 2.
Proof.
  replace x with (2 * (x / 2)) at 2 by lra.
  rewrite cos_2a_sin. simpl. lra.
Qed.

Lemma hav_a_alt lat1 lon1 lat2 lon2 :
  hav_a lat1 lon1 lat2 lon2 =
  (1 - sin (radians lat1) * sin (radians lat2)
     - cos (radians lat1) * cos (radians lat2) * cos (radians (lon2 - lon1))) / 2.
Proof.
  unfold hav_a. cbv zeta. rewrite !sin_half_sqr, radians_minus, cos_minus. lra.
Qed.

Lemma hav_a_sym lat1 lon1 lat2 lon2 :
  hav_a lat1 lon1 lat2 lon2 = hav_a lat2 lon2 lat1 lon1.
Proof.
  rewrite !hav_a_alt.
  replace (radians (lon1 - lon2)) with (- radians (lon2 - lon1))
    by (unfold radians; lra).
  rewrite cos_neg. lra.
Qed.

Lemma hav_a_same lat lon : hav_a lat lon lat lon = 0.
Proof.
  unfold hav_a. cbv zeta.
  replace (radians (lat - lat) / 2) with 0 by (unfold radians; lra).
  replace (radians (lon - lon) / 2) with 0 by (unfold radians; lra).
  rewrite sin_0. simpl. lra.
Qed.

Lemma dot_bound s1 c1 s2 c2 k :
  s1 * s1 + c1 * c1 = 1 → s2 * s2 + c2 * c2 = 1 → -1 <= k <= 1 →
  -1 <= s1 * s2 + c1 * c2 * k <= 1.
Proof.
  intros H1 H2 [Hk1 Hk2].
  assert (Hs : 0 <= (s1 - s2) * (s1 - s2)) by apply Rle_0_sqr.
  assert (Hs' : 0 <= (s1 + s2) * (s1 + s2)) by apply Rle_0_sqr.
  assert (Hc : 0 <= (c1 - c2) * (c1 - c2)) by apply Rle_0_sqr.
  assert (Hc' : 0 <= (c1 + c2) * (c1 + c2)) by apply Rle_0_sqr.
  destruct (Rle_dec 0 (c1 * c2)) as [Hp|Hn].
  - assert (c1 * c2 * k <= c1 * c2) by nra.
    assert (- (c1 * c2) <= c1 * c2 * k) by nra.
    split; lra.
  - assert (c1 * c2 * k <= - (c1 * c2)) by nra.
    assert (c1 * c2 <= c1 * c2 * k) by nra.
    split; lra.
Qed.

Lemma hav_a_range lat1 lon1 lat2 lon2 :
  0 <= hav_a lat1 lon1 lat2 lon2 <= 1.
Proof.
  rewrite hav_a_alt.
  pose proof (dot_bound (sin (radians lat1)) (cos (radians lat1))
                (sin (radians lat2)) (cos (radians lat2))
                (cos (radians (lon2 - lon1)))) as H.
  pose proof (sin2_cos2 (radians lat1)) as H1.
  pose proof (sin2_cos2 (radians lat2)) as H2.
  unfold Rsqr in H1, H2.
  pose proof (COS_bound (radians (lon2 - lon1))) as Hk.
  specialize (H H1 H2 Hk). lra.
Qed.

Lemma atan2_nonneg y x : 0 <= y → 0 <= x → 0 <= atan2 y x.
Proof.
  intros Hy Hx. unfold atan2.
  destruct (Rlt_dec 0 x) as [Hpos|Hnpos].
  - rewrite <- atan_0.
    destruct (Req_dec y 0) as [->|Hne].
    + unfold Rdiv. rewrite Rmult_0_l. lra.
    + left. apply atan_increasing. apply Rdiv_lt_0_compat; lra.
  - destruct (Rlt_dec x 0); [lra|].
    destruct (Rlt_dec 0 y); [pose proof PI_RGT_0; lra|].
    destruct (Rlt_dec y 0); lra.
Qed.

Lemma atan2_0_1 : atan2 0 1 = 0.
Proof.
  unfold atan2. destruct (Rlt_dec 0 1); [|lra].
  unfold Rdiv. rewrite Rmult_0_l. apply atan_0.
Qed.

Lemma haversine_sym lat1 lon1 lat2 lon2 :
  haversine lat1 lon1 lat2 lon2 = haversine lat2 lon2 lat1 lon1.
Proof. unfold haversine. cbv zeta. by rewrite hav_a_sym. Qed.

Lemma haversine_same lat lon : haversine lat lon lat lon = 0.
Proof.
  unfold haversine. cbv zeta. rewrite hav_a_same, Rminus_0_r, sqrt_0, sqrt_1, atan2_0_1.
  lra.
Qed.

Lemma haversine_nonneg lat1 lon1 lat2 lon2 : 0 <= haversine lat1 lon1 lat2 lon2.
Proof.
  unfold haversine. cbv zeta.
  pose proof (hav_a_range lat1 lon1 lat2 lon2) as [H0 H1].
  assert (0 <= atan2 (sqrt (hav_a lat1 lon1 lat2 lon2))
                     (sqrt (1 - hav_a lat1 lon1 lat2 lon2)))
    by (apply atan2_nonneg; apply sqrt_pos).
  nra.
Qed.
End GeoFacts.

(** In exact arithmetic the distance of [haversine] is the same in both
    directions, zero from a point to itself, and never negative. *)
Lemma haversine_symmetric_zero_nonneg (lat1 lon1 lat2 lon2 : R) :
  haversine lat1 lon1 lat2 lon2 = haversine lat2 lon2 lat1 lon1
  ∧ haversine lat1 lon1 lat1 lon1 = 0%R
  ∧ (0 <= haversine lat1 lon1 lat2 lon2)%R.
Proof.
  split_and!.
  - apply haversine_sym.
  - apply haversine_same.
  - apply haversine_nonneg.
Qed.

(** ** The minimum of [min] *)

Section MinFacts.
Context {A : Type} (key : A → R).
Implicit Types (b m : A) (l : list A).

Lemma Rltb_true x y : Rltb x y = true ↔ (x < y)%R.
Proof. unfold Rltb. destruct (Rlt_dec x y); split; (done || lra). Qed.

Lemma Rltb_false x y : Rltb x y = false ↔ (y <= x)%R.
Proof. unfold Rltb. destruct (Rlt_dec x y); split; (done || lra). Qed.

(** [min_from] returns the first element of [b :: l] with the least key:
    those before it have a strictly larger key, those after it a key at
    least as large. *)
Lemma min_from_first b l :
  ∃ l1 l2,
    b :: l = l1 ++ min_from key b l :: l2
    ∧ (∀ v, v ∈ l1 → (key (min_from key b l) < key v)%R)
    ∧ (∀ v, v ∈ l2 → (key (min_from key b l) <= key v)%R).
Proof.
  revert b. induction l as [|x l IH]; intros b.
  - exists [], []. cbn. split_and!; [done| |]; intros v Hv; by apply elem_of_nil in Hv.
  - cbn [min_from]. destruct (Rltb (key x) (key b)) eqn:Hlt.
    + apply Rltb_true in Hlt.
      destruct (IH x) as (l1 & l2 & Heq & H1 & H2).
      remember (min_from key x l) as m eqn:Hm in *. clear Hm.
      assert (Hmx : (key m <= key x)%R).
      { assert (Hx : x ∈ l1 ++ m :: l2) by (rewrite <- Heq; apply list_elem_of_here).
        apply elem_of_app in Hx as [Hx|Hx]; [left; by apply H1|].
        apply elem_of_cons in Hx as [->|Hx]; [lra|by apply H2]. }
      exists (b :: l1), l2. split_and!.
      * cbn. by rewrite Heq.
      * intros v Hv. apply elem_of_cons in Hv as [->|Hv]; [lra|by apply H1].
      * done.
    + apply Rltb_false in Hlt.
      destruct (IH b) as (l1 & l2 & Heq & H1 & H2).
      remember (min_from key b l) as m eqn:Hm in *. clear Hm.
      destruct l1 as [|b' l1].
      * cbn in Heq. injection Heq as Hb Hl.
        exists [], (x :: l2). split_and!.
        -- cbn. by rewrite <- Hb, Hl.
        -- intros v Hv. by apply elem_of_nil in Hv.
        -- intros v Hv. apply elem_of_cons in Hv as [->|Hv]; [by rewrite <- Hb|by apply H2].
      * cbn in Heq. injection Heq as Hb Hl. subst b'.
        assert (Hmb : (key m < key b)%R) by (apply H1, list_elem_of_here).
        exists (b :: x :: l1), l2. split_and!.
        -- cbn. by rewrite Hl.
        -- intros v Hv. apply elem_of_cons in Hv as [->|Hv]; [done|].
           apply elem_of_cons in Hv as [->|Hv]; [lra|].
           apply H1. by apply list_elem_of_further.
        -- done.
Qed.

End MinFacts.

(** ** Haversine in floating point *)

Section FloatFacts.
Implicit Types (fl : Arith).

(** In exact arithmetic [haversine] never raises: [a] lies between 0 and
    1. *)
Lemma haversine_fl_exact lat1 lon1 lat2 lon2 :
  haversine_fl exact lat1 lon1 lat2 lon2 = inr (haversine lat1 lon1 lat2 lon2).
Proof.
  unfold haversine_fl, math_sqrt.
  change (hav_a_fl exact lat1 lon1 lat2 lon2) with (hav_a lat1 lon1 lat2 lon2).
  cbn [exact fl_sqrt fl_atan2 fl_sub fl_mul].
  destruct (hav_a_range lat1 lon1 lat2 lon2) as [H0 H1].
  assert (Ha : Rltb (hav_a lat1 lon1 lat2 lon2) 0 = false) by (apply Rltb_false; lra).
  assert (Hb : Rltb (1 - hav_a lat1 lon1 lat2 lon2) 0 = false) by (apply Rltb_false; lra).
  rewrite Ha. cbn [exc_bind]. rewrite Hb. cbn [exc_bind]. reflexivity.
Qed.

(** [haversine] raises exactly when the value of [a] it computes is
    negative or its [1 - a] is. *)
Lemma haversine_fl_raises fl lat1 lon1 lat2 lon2 :
  let a := hav_a_fl fl lat1 lon1 lat2 lon2 in
  ((a < 0)%R ∨ (fl_sub fl 1 a < 0)%R
   → haversine_fl fl lat1 lon1 lat2 lon2 = inl ValueError)
  ∧ ((0 <= a)%R → (0 <= fl_sub fl 1 a)%R
     → haversine_fl fl lat1 lon1 lat2 lon2
       = inr (fl_mul fl (fl_mul fl 6371.0 2)
                (fl_atan2 fl (fl_sqrt fl a) (fl_sqrt fl (fl_sub fl 1 a))))%R).
Proof.
  cbn zeta. unfold haversine_fl, math_sqrt.
  set (a := hav_a_fl fl lat1 lon1 lat2 lon2). split.
  - intros [Ha|Hb].
    + apply Rltb_true in Ha. by rewrite Ha.
    + destruct (Rltb a 0); [done|]. cbn [exc_bind].
      apply Rltb_true in Hb. by rewrite Hb.
  - intros Ha Hb. apply Rltb_false in Ha, Hb. rewrite Ha. cbn [exc_bind].
    by rewrite Hb.
Qed.

End FloatFacts.

Section MinFl.
Context {A : Type} (key : A → Exc R).
Implicit Types (b m : A) (l : list A).

Lemma min_from_fl_returns b kb l :
  key b = inr kb →
  (∀ x, x ∈ l → ∃ k, key x = inr k) →
  min_from_fl key b kb l
  = inr (min_from (fun x => match key x with inr k => k | inl _ => 0%R end) b l).
Proof.
  revert b kb. induction l as [|x l IH]; intros b kb Hb Hl; [done|].
  destruct (Hl x) as [kx Hx]; [apply list_elem_of_here|].
  cbn [min_from_fl min_from]. rewrite Hx, Hb. cbn [exc_bind].
  assert (Hl' : ∀ y, y ∈ l → ∃ k, key y = inr k).
  { intros y Hy. apply Hl. by apply list_elem_of_further. }
  destruct (Rltb kx kb); by apply IH.
Qed.

(** Where every key can be computed, [min] returns the first element with
    the least key. *)
Lemma py_min_fl_first l :
  l ≠ [] →
  (∀ x, x ∈ l → ∃ k, key x = inr k) →
  ∃ m km l1 l2,
    py_min_fl key l = inr m
    ∧ key m = inr km
    ∧ l = l1 ++ m :: l2
    ∧ (∀ v kv, v ∈ l1 → key v = inr kv → (km < kv)%R)
    ∧ (∀ v kv, v ∈ l2 → key v = inr kv → (km <= kv)%R).
Proof.
  intros Hne Hl. destruct l as [|b l]; [done|].
  destruct (Hl b) as [kb Hb]; [apply list_elem_of_here|].
  assert (Hl' : ∀ y, y ∈ l → ∃ k, key y = inr k).
  { intros y Hy. apply Hl. by apply list_elem_of_further. }
  set (kr := fun x => match key x with inr k => k | inl _ => 0%R end).
  destruct (min_from_first kr b l) as (l1 & l2 & Heq & H1 & H2).
  assert (Hm : min_from kr b l ∈ b :: l).
  { rewrite Heq. apply elem_of_app. right. apply list_elem_of_here. }
  destruct (Hl _ Hm) as [km Hkm].
  exists (min_from kr b l), km, l1, l2.
  assert (Hkr : kr (min_from kr b l) = km) by (unfold kr at 1; by rewrite Hkm).
  split_and!.
  - cbn [py_min_fl]. rewrite Hb. cbn [exc_bind]. by apply min_from_fl_returns.
  - done.
  - done.
  - intros v kv Hv Hk. specialize (H1 v Hv). rewrite Hkr in H1.
    unfold kr in H1. by rewrite Hk in H1.
  - intros v kv Hv Hk. specialize (H2 v Hv). rewrite Hkr in H2.
    unfold kr in H2. by rewrite Hk in H2.
Qed.

Lemma min_from_fl_raises b kb l x e :
  x ∈ l → key x = inl e → ∃ e', min_from_fl key b kb l = inl e'.
Proof.
  revert b kb. induction l as [|y l IH]; intros b kb Hx He.
  - by apply elem_of_nil in Hx.
  - cbn [min_from_fl]. destruct (key y) as [e'|ky] eqn:Hy; [by exists e'|].
    cbn [exc_bind]. apply elem_of_cons in Hx as [->|Hx]; [congruence|].
    destruct (Rltb ky kb); by apply IH.
Qed.

(** A key that cannot be computed makes [min] raise. *)
Lemma py_min_fl_raises l x e :
  x ∈ l → key x = inl e → ∃ e', py_min_fl key l = inl e'.
Proof.
  intros Hx He. destruct l as [|b l]; [by exists ValueError|].
  cbn [py_min_fl]. destruct (key b) as [e'|kb] eqn:Hb; [by exists e'|].
  cbn [exc_bind]. apply elem_of_cons in Hx as [->|Hx]; [congruence|].
  by eapply min_from_fl_raises.
Qed.

Lemma min_from_fl_elem b kb l m : min_from_fl key b kb l = inr m → m ∈ b :: l.
Proof.
  revert b kb. induction l as [|y l IH]; intros b kb H.
  - cbn in H. injection H as <-. apply list_elem_of_here.
  - cbn [min_from_fl] in H. destruct (key y) as [e'|ky]; [done|]. cbn [exc_bind] in H.
    destruct (Rltb ky kb); apply IH in H.
    + by apply list_elem_of_further.
    + apply elem_of_cons in H as [->|H]; [apply list_elem_of_here|].
      by do 2 apply list_elem_of_further.
Qed.

Lemma py_min_fl_elem l m : py_min_fl key l = inr m → m ∈ l.
Proof.
  destruct l as [|b l]; [done|]. cbn [py_min_fl].
  destruct (key b) as [e'|kb]; [done|]. cbn [exc_bind]. apply min_from_fl_elem.
Qed.

End MinFl.

(** ** The callers of [haversine] in exact arithmetic *)

Section ExactFacts.
Local Open Scope R_scope.
Implicit Types (w : World) (u : Ambulance).

Lemma get_address_cases lat lon :
  ∃ nearest,
    nearest ∈ landmarks
    ∧ (∀ l, l ∈ landmarks → landmark_km lat lon nearest <= landmark_km lat lon l)
    ∧ get_address lat lon =
      inr (if Rltb (landmark_km lat lon nearest) 5 then near (lm_name nearest)
           else highway lat lon).
Proof.
  unfold get_address, landmarks.
  match goal with |- context [py_min ?k (?l0 :: ?ls)] =>
    destruct (min_from_first k l0 ls) as (l1 & l2 & Heq & H1 & H2);
    exists (min_from k l0 ls) end.
  split_and!.
  - rewrite Heq. apply elem_of_app. right. apply list_elem_of_here.
  - intros l Hl. rewrite Heq in Hl. apply elem_of_app in Hl as [Hl|Hl].
    + left. by apply H1.
    + apply elem_of_cons in Hl as [->|Hl]; [lra|by apply H2].
  - cbn [py_min exc_bind]. by destruct (Rltb _ 5).
Qed.

Lemma get_address_returns lat lon : ∃ a, get_address lat lon = inr a.
Proof. destruct (get_address_cases lat lon) as (n & _ & _ & ->). by eexists. Qed.

Lemma dispatch_from_nearest fl cid lat lon units w nearest km :
  py_min_fl (fun u => haversine_fl fl lat lon (amb_latitude u) (amb_longitude u)) units
  = inr nearest →
  haversine_fl fl lat lon (amb_latitude nearest) (amb_longitude nearest) = inr km →
  let d' := update_crash (set_assignment waiting_for_driver (Some (amb_id nearest)))
                         cid (db w) in
  dispatch_from fl cid lat lon units w =
  match get_address_fl fl lat lon with
  | inl e => inl (e, {| db := d'; fan := fan w |})
  | inr _ =>
      inr (Some (amb_id nearest),
           {| db := d';
              fan := {| subscribers := subscribers (fan w);
                        queues := offer_all ("mission_assigned",
                                    mission_assigned_data cid (amb_id nearest) lat lon)
                                    (subscribed (fan w) (amb_id nearest))
                                    (queues (fan w)) |} |})
  end.
Proof.
  intros Hmin Hkm. unfold dispatch_from. destruct units as [|u us]; [done|].
  rewrite Hmin, Hkm. destruct (get_address_fl fl lat lon); [done|].
  by rewrite push_event_inr.
Qed.

Lemma min_from_fl_exact {A : Type} (key : A → Exc R) (k : A → R) b l :
  (∀ x, key x = inr (k x)) →
  min_from_fl key b (k b) l = inr (min_from k b l).
Proof.
  intros Hk. revert b. induction l as [|x l IH]; intros b; [done|].
  cbn [min_from_fl min_from]. rewrite Hk. cbn [exc_bind].
  destruct (Rltb (k x) (k b)); apply IH.
Qed.

Lemma py_min_fl_exact {A : Type} (key : A → Exc R) (k : A → R) l :
  (∀ x, key x = inr (k x)) → py_min_fl key l = py_min k l.
Proof.
  intros Hk. destruct l as [|b l]; [done|]. cbn [py_min_fl py_min].
  rewrite Hk. cbn [exc_bind]. by apply min_from_fl_exact.
Qed.

(** In exact arithmetic the callers of [haversine] never see it raise and
    are the functions given first. *)
Lemma get_address_fl_exact lat lon : get_address_fl exact lat lon = get_address lat lon.
Proof.
  unfold get_address_fl, get_address.
  rewrite (py_min_fl_exact _ (landmark_km lat lon))
    by (intros l; apply haversine_fl_exact).
  destruct (py_min (landmark_km lat lon) landmarks) as [e|nearest]; [done|].
  cbn [exc_bind]. by rewrite haversine_fl_exact.
Qed.

Lemma dispatch_from_exact cid lat lon units w :
  dispatch_from exact cid lat lon units w =
  inr match units with
      | [] =>
          (None, {| db := update_crash (set_status no_unit_available) cid (db w);
                    fan := fan w |})
      | u :: us =>
          let nearest := min_from (dist_km lat lon) u us in
          (Some (amb_id nearest),
           {| db := update_crash
                      (set_assignment waiting_for_driver (Some (amb_id nearest)))
                      cid (db w);
              fan := {| subscribers := subscribers (fan w);
                        queues := offer_all ("mission_assigned",
                                    mission_assigned_data cid (amb_id nearest) lat lon)
                                    (subscribed (fan w) (amb_id nearest))
                                    (queues (fan w)) |} |})
      end.
Proof.
  destruct units as [|u us]; [done|]. cbn zeta.
  erewrite dispatch_from_nearest.
  - rewrite get_address_fl_exact. by destruct (get_address_returns lat lon) as [a ->].
  - rewrite (py_min_fl_exact _ (dist_km lat lon)); [done|].
    intros x. apply haversine_fl_exact.
  - apply haversine_fl_exact.
Qed.

Lemma dispatch_fl_exact cid lat lon ex w :
  dispatch cid lat lon ex w
  = match dispatch_fl exact cid lat lon ex w with
    | inr x => inr x
    | inl (e, _) => inl e
    end.
Proof.
  unfold dispatch_fl. rewrite dispatch_from_exact.
  destruct (candidates (db w) ex) as [|u us] eqn:Hc.
  - by rewrite (dispatch_none _ _ _ _ _ Hc).
  - by rewrite (dispatch_some _ _ _ _ _ _ _ Hc).
Qed.

Lemma get_mission_fl_exact s w : get_mission_fl exact s w = get_mission s w.
Proof.
  unfold get_mission_fl, get_mission.
  destruct (get_current_driver s (db w)) as [driver|]; [|done].
  destruct (mission_row (unit_id driver) (db w)) as [[i row]|]; [|done].
  rewrite get_address_fl_exact.
  destruct (get_address (latitude row) (longitude row)) as [e|a]; [done|].
  cbn [exc_bind]. by rewrite haversine_fl_exact.
Qed.

End ExactFacts.


(** ** Nearest-unit selection *)

Section Split.
Context {A B : Type} (p : B → bool) (h : A → list B).

Lemma filter_flat_map_split ds l1 x l2 :
  List.filter p (flat_map h ds) = l1 ++ x :: l2 →
  ∃ k d, ds !! k = Some d ∧ x ∈ h d ∧ p x = true
         ∧ ∀ j d' v, (j < k)%nat → ds !! j = Some d' → v ∈ h d' → p v = true → v ∈ l1.
Proof.
  revert l1. induction ds as [|d ds IH]; intros l1 H.
  - cbn in H. by destruct l1.
  - cbn [flat_map] in H. rewrite List.filter_app in H.
    assert (Hrest : ∀ l, flat_map h ds = flat_map h ds → l1 = List.filter p (h d) ++ l →
                         List.filter p (flat_map h ds) = l ++ x :: l2 →
              ∃ k d0, (d :: ds) !! k = Some d0 ∧ x ∈ h d0 ∧ p x = true
                ∧ ∀ j d' v, (j < k)%nat → (d :: ds) !! j = Some d' → v ∈ h d' →
                            p v = true → v ∈ l1).
    { intros l _ Hl1 HF. destruct (IH l HF) as (k & d0 & Hk & Hx & Hp & Hbefore).
      exists (S k), d0. split_and!; [done..|].
      intros j d' v Hj Hd' Hv Hpv. rewrite Hl1. apply elem_of_app.
      destruct j as [|j].
      - left. cbn in Hd'. injection Hd' as <-.
        apply list_elem_of_In, filter_In. split; [by apply list_elem_of_In|done].
      - right. apply (Hbefore j d' v); [lia|done..]. }
    apply app_eq_app in H as [l [[H1 H2]|[H1 H2]]].
    + destruct l as [|y l].
      * apply (Hrest []); [done|by rewrite app_nil_r in H1; rewrite app_nil_r|done].
      * cbn in H2. injection H2 as <- _.
        assert (Hx : x ∈ List.filter p (h d)).
        { rewrite H1. apply elem_of_app. right. apply list_elem_of_here. }
        apply list_elem_of_In, filter_In in Hx as [Hx Hp].
        exists 0%nat, d. split_and!; [done|by apply list_elem_of_In|done|].
        intros j d' v Hj. lia.
    + by apply (Hrest l).
Qed.

End Split.

Section Selection.
Implicit Types (w : World) (d : DB) (u v : Ambulance) (c : Crash).

Lemma elem_of_available_units d u :
  u ∈ available_units d ↔
  u ∈ ambulances d ∧ is_available u = true
  ∧ ∃ dr, dr ∈ drivers d ∧ unit_id dr = amb_id u ∧ is_on_duty dr = true.
Proof.
  unfold available_units. rewrite list_elem_of_In, in_flat_map. split.
  - intros (dr & Hdr & Hu). apply in_flat_map in Hu as (a & Ha & Hu).
    destruct (String.eqb_spec (unit_id dr) (amb_id a)) as [Heq|]; [|done].
    destruct (is_available a) eqn:Hav; [|done].
    destruct (is_on_duty dr) eqn:Hon; [|done].
    cbn in Hu. destruct Hu as [<-|[]].
    rewrite !list_elem_of_In. split_and!; [done..|].
    exists dr. by rewrite list_elem_of_In.
  - intros (Hu & Hav & dr & Hdr & Heq & Hon).
    exists dr. split; [by apply list_elem_of_In|].
    apply in_flat_map. exists u. split; [by apply list_elem_of_In|].
    rewrite Heq, String.eqb_refl, Hav, Hon. by left.
Qed.

Lemma elem_of_candidates d ex u :
  u ∈ candidates d ex →
  u ∈ available_units d ∧ ∀ x, ex = Some x → x ≠ "" → amb_id u ≠ x.
Proof.
  unfold candidates. destruct ex as [x|].
  - destruct (String.eqb_spec x "") as [->|Hx].
    + intros Hu. split; [done|]. by intros x [= <-].
    + rewrite list_elem_of_In, filter_In, <- list_elem_of_In.
      intros [Hu Hne]. split; [done|]. intros y [= <-] _.
      apply negb_true_iff in Hne. by apply String.eqb_neq in Hne.
  - intros Hu. split; [done|]. by intros x.
Qed.

(** With a candidate at hand [dispatch] hands the crash to the first of
    the nearest ones and touches nothing else of the database. *)
Lemma dispatch_nearest cid lat lon ex w :
  candidates (db w) ex ≠ [] →
  ∃ nearest l1 l2 w',
    dispatch cid lat lon ex w = inr (Some (amb_id nearest), w')
    ∧ candidates (db w) ex = l1 ++ nearest :: l2
    ∧ (∀ v, v ∈ l1 → (dist_km lat lon nearest < dist_km lat lon v)%R)
    ∧ (∀ v, v ∈ l2 → (dist_km lat lon nearest <= dist_km lat lon v)%R)
    ∧ db w' = update_crash (set_assignment waiting_for_driver (Some (amb_id nearest)))
                           cid (db w).
Proof.
  intros Hne. destruct (candidates (db w) ex) as [|u us] eqn:Hc; [done|].
  destruct (min_from_first (dist_km lat lon) u us) as (l1 & l2 & Heq & H1 & H2).
  eexists _, l1, l2, _. split; [by apply dispatch_some|].
  split_and!; done.
Qed.

Lemma candidates_filter d ex :
  candidates d ex =
  List.filter (fun u => match ex with
                        | Some x => if String.eqb x "" then true
                                    else negb (String.eqb (amb_id u) x)
                        | None => true
                        end) (available_units d).
Proof.
  assert (Hall : ∀ l : list Ambulance, List.filter (fun _ => true) l = l).
  { induction l as [|a l IH]; [done|]. cbn. by rewrite IH. }
  unfold candidates. destruct ex as [x|]; [|by rewrite Hall].
  destruct (String.eqb x ""); [by rewrite Hall|done].
Qed.

Lemma elem_of_candidates_eligible d ex v :
  v ∈ candidates d ex ↔ ∃ dr, eligible d ex v dr.
Proof.
  unfold eligible. split.
  - intros Hv. apply elem_of_candidates in Hv as [Hv Hex].
    apply elem_of_available_units in Hv as (Hv & Hav & dr & Hdr & Hid & Hon).
    by exists dr.
  - intros (dr & Hv & Hdr & Hid & Hav & Hon & Hex).
    assert (Hin : v ∈ available_units d).
    { apply elem_of_available_units. split_and!; [done..|]. by exists dr. }
    unfold candidates. destruct ex as [x|]; [|done].
    destruct (String.eqb_spec x "") as [->|Hx]; [done|].
    apply list_elem_of_In, filter_In. split; [by apply list_elem_of_In|].
    apply negb_true_iff, String.eqb_neq. by apply Hex.
Qed.

(** The candidates come in the order of the drivers' rows: a unit chosen
    at some place of the list has a driver on duty whose row comes after
    the rows of the drivers of all candidates before that place. *)
Lemma candidates_split d ex l1 u l2 :
  candidates d ex = l1 ++ u :: l2 →
  ∃ k dr, drivers d !! k = Some dr ∧ eligible d ex u dr
          ∧ ∀ j dr' v, (j < k)%nat → drivers d !! j = Some dr' → eligible d ex v dr' →
                       v ∈ l1.
Proof.
  rewrite candidates_filter. unfold available_units. intros H.
  apply filter_flat_map_split in H as (k & dr & Hk & Hu & Hp & Hbefore).
  assert (Hrow : ∀ dr0 v, v ∈ flat_map
                   (fun a => if String.eqb (unit_id dr0) (amb_id a) && is_available a
                                && is_on_duty dr0 then [a] else []) (ambulances d)
                 ↔ v ∈ ambulances d ∧ unit_id dr0 = amb_id v
                   ∧ is_available v = true ∧ is_on_duty dr0 = true).
  { intros dr0 v. rewrite list_elem_of_In, in_flat_map. split.
    - intros (a & Ha & Hv).
      destruct (String.eqb_spec (unit_id dr0) (amb_id a)) as [Heq|]; [|done].
      destruct (is_available a) eqn:Hav; [|done].
      destruct (is_on_duty dr0) eqn:Hon; [|done].
      cbn in Hv. destruct Hv as [<-|[]]. by rewrite list_elem_of_In.
    - intros (Hv & Heq & Hav & Hon). exists v. split; [by apply list_elem_of_In|].
      rewrite Heq, String.eqb_refl, Hav, Hon. by left. }
  assert (Hkeep : ∀ v, (match ex with
                        | Some x => if String.eqb x "" then true
                                    else negb (String.eqb (amb_id v) x)
                        | None => true
                        end) = true
                       ↔ ∀ x, ex = Some x → x ≠ "" → amb_id v ≠ x).
  { intros v. destruct ex as [x|]; [|by split].
    destruct (String.eqb_spec x "") as [->|Hx].
    - split; [|done]. by intros _ y [= <-].
    - rewrite negb_true_iff, String.eqb_neq. split.
      + by intros Hne y [= <-].
      + intros Hy. by apply Hy. }
  exists k, dr. split; [done|]. split.
  - apply Hrow in Hu as (Hu & Heq & Hav & Hon).
    pose proof (proj1 (Hkeep u) Hp) as Hex.
    unfold eligible. split_and!; try done. by eapply list_elem_of_lookup_2.
  - intros j dr' v Hj Hdr' (Hv & _ & Heq & Hav & Hon & Hex).
    apply (Hbefore j dr' v); [done..| |].
    + by apply Hrow.
    + by apply (proj2 (Hkeep v)).
Qed.

(** C2: for an incident in [new] with at least one unit that is available,
    has a driver on duty and is not excluded, and whose distance to every
    such unit [haversine] can compute, [dispatch] writes
    [waiting_for_driver] and a unit that is available, staffed and not
    excluded, at the least computed distance among all those units; of
    several at that distance it is the one whose driver comes first in
    [drivers], the order the query reads them in.  [dispatch] returns
    that unit; it returns when [get_address], called after the commit,
    does. *)
Theorem dispatch_assigns_nearest fl cid c ex w :
  crashes (db w) !! cid = Some c →
  status c = new →
  (∃ v dr, eligible (db w) ex v dr) →
  (∀ v dr, eligible (db w) ex v dr →
     ∃ km, haversine_fl fl (latitude c) (longitude c) (amb_latitude v) (amb_longitude v)
           = inr km) →
  ∃ nearest dr k km c',
    eligible (db w) ex nearest dr
    ∧ drivers (db w) !! k = Some dr
    ∧ haversine_fl fl (latitude c) (longitude c) (amb_latitude nearest)
        (amb_longitude nearest) = inr km
    ∧ (∀ v dr' km',
         eligible (db w) ex v dr' →
         haversine_fl fl (latitude c) (longitude c) (amb_latitude v) (amb_longitude v)
         = inr km' →
         (km <= km')%R)
    ∧ (∀ j v dr' km',
         (j < k)%nat → drivers (db w) !! j = Some dr' → eligible (db w) ex v dr' →
         haversine_fl fl (latitude c) (longitude c) (amb_latitude v) (amb_longitude v)
         = inr km' →
         (km < km')%R)
    ∧ crashes (db (state_after (dispatch_fl fl cid (latitude c) (longitude c) ex w))) !! cid
      = Some c'
    ∧ status c' = waiting_for_driver
    ∧ assigned_ambulance_id c' = Some (amb_id nearest)
    ∧ (∀ r w', dispatch_fl fl cid (latitude c) (longitude c) ex w = inr (r, w') →
               r = Some (amb_id nearest))
    ∧ (∀ a, get_address_fl fl (latitude c) (longitude c) = inr a →
            ∃ w', dispatch_fl fl cid (latitude c) (longitude c) ex w
                  = inr (Some (amb_id nearest), w')).
Proof.
  intros Hc _ (v0 & dr0 & Hv0) Hkm.
  set (key := fun u => haversine_fl fl (latitude c) (longitude c)
                                    (amb_latitude u) (amb_longitude u)).
  assert (Hne : candidates (db w) ex ≠ []).
  { intros Hnil. assert (Hin : v0 ∈ candidates (db w) ex).
    { apply elem_of_candidates_eligible. by exists dr0. }
    rewrite Hnil in Hin. by apply elem_of_nil in Hin. }
  destruct (py_min_fl_first key (candidates (db w) ex) Hne)
    as (nearest & km & l1 & l2 & Hmin & Hkey & Heq & H1 & H2).
  { intros x Hx. apply elem_of_candidates_eligible in Hx as [dr Hx]. by eapply Hkm. }
  destruct (candidates_split _ _ _ _ _ Heq) as (k & dr & Hk & Hel & Hbefore).
  pose proof (dispatch_from_nearest fl cid (latitude c) (longitude c)
                (candidates (db w) ex) w nearest km Hmin Hkey) as Hd.
  cbn zeta in Hd. fold (dispatch_fl fl cid (latitude c) (longitude c) ex w) in Hd.
  exists nearest, dr, k, km, (set_assignment waiting_for_driver (Some (amb_id nearest)) c).
  split_and!; try done.
  - intros v dr' km' Hv Hv'.
    assert (Hin : v ∈ candidates (db w) ex).
    { apply elem_of_candidates_eligible. by exists dr'. }
    rewrite Heq in Hin. apply elem_of_app in Hin as [Hin|Hin].
    + left. by apply (H1 v).
    + apply elem_of_cons in Hin as [->|Hin].
      * unfold key in Hkey. rewrite Hkey in Hv'. injection Hv' as <-. lra.
      * by apply (H2 v).
  - intros j v dr' km' Hj Hdr' Hv Hv'. apply (H1 v); [|done].
    by apply (Hbefore j dr').
  - rewrite Hd. destruct (get_address_fl fl (latitude c) (longitude c));
      cbn [state_after db update_crash crashes]; rewrite lookup_alter;
      (case_decide; [|done]); by rewrite Hc.
  - intros r w' Hr. rewrite Hd in Hr.
    destruct (get_address_fl fl (latitude c) (longitude c)); [done|].
    by injection Hr as <- _.
  - intros a Ha. rewrite Hd, Ha. by eexists.
Qed.

Lemma dispatch_assigns_nearest_witness :
  ∃ nearest dr k km c',
    eligible (db (crash_inserted (after start duty_on_two))) None nearest dr
    ∧ drivers (db (crash_inserted (after start duty_on_two))) !! k = Some dr
    ∧ haversine_fl exact (latitude new_crash) (longitude new_crash)
        (amb_latitude nearest) (amb_longitude nearest) = inr km
    ∧ (∀ v dr' km',
         eligible (db (crash_inserted (after start duty_on_two))) None v dr' →
         haversine_fl exact (latitude new_crash) (longitude new_crash)
           (amb_latitude v) (amb_longitude v) = inr km' →
         (km <= km')%R)
    ∧ (∀ j v dr' km',
         (j < k)%nat →
         drivers (db (crash_inserted (after start duty_on_two))) !! j = Some dr' →
         eligible (db (crash_inserted (after start duty_on_two))) None v dr' →
         haversine_fl exact (latitude new_crash) (longitude new_crash)
           (amb_latitude v) (amb_longitude v) = inr km' →
         (km < km')%R)
    ∧ crashes (db (state_after
                     (dispatch_fl exact 1 (latitude new_crash) (longitude new_crash) None
                        (crash_inserted (after start duty_on_two))))) !! 1%Z
      = Some c'
    ∧ status c' = waiting_for_driver
    ∧ assigned_ambulance_id c' = Some (amb_id nearest)
    ∧ (∀ r w',
         dispatch_fl exact 1 (latitude new_crash) (longitude new_crash) None
           (crash_inserted (after start duty_on_two)) = inr (r, w') →
         r = Some (amb_id nearest))
    ∧ (∀ a, get_address_fl exact (latitude new_crash) (longitude new_crash) = inr a →
            ∃ w', dispatch_fl exact 1 (latitude new_crash) (longitude new_crash) None
                    (crash_inserted (after start duty_on_two))
                  = inr (Some (amb_id nearest), w')).
Proof.
  apply (dispatch_assigns_nearest exact 1 new_crash None
           (crash_inserted (after start duty_on_two))).
  - vm_compute. reflexivity.
  - reflexivity.
  - exists (mkAmbulance "Unit-02" 10.5167 76.2167 true), (set_on_duty true driver_2).
    unfold eligible. split_and!; try reflexivity.
    + apply list_elem_of_In. vm_compute. right. left. reflexivity.
    + apply list_elem_of_In. vm_compute. right. left. reflexivity.
    + intros x [=].
  - intros v dr _. eexists. apply haversine_fl_exact.
Defined.

(** A crash at the station of Unit-01 with Unit-01 and Unit-02 on duty goes
    to Unit-01, at distance 0: no distance is below it. *)
Lemma simulate_crash_at_station :
  ∃ w',
    simulate_crash "2024-01-01T00:00:00" 10.5276 76.2144 None (after start duty_on_two)
    = inr (ok_crash 1 (Some "Unit-01"), w')
    ∧ crashes (db w') !! 1%Z = Some (crash_1 waiting_for_driver (Some "Unit-01")).
Proof.
  unfold simulate_crash, insert_crash. cbn [capture_snapshot].
  match goal with |- context [dispatch ?i ?a ?b ?e ?v] => set (w1 := v) end.
  assert (Hc : candidates (db w1) None =
               [mkAmbulance "Unit-01" 10.5276 76.2144 true;
                mkAmbulance "Unit-02" 10.5167 76.2167 true])
    by (vm_compute; reflexivity).
  rewrite (dispatch_some _ _ _ _ _ _ _ Hc). cbn zeta. cbn [min_from].
  assert (Hmin : Rltb (dist_km 10.5276 76.2144 (mkAmbulance "Unit-02" 10.5167 76.2167 true))
                      (dist_km 10.5276 76.2144 (mkAmbulance "Unit-01" 10.5276 76.2144 true))
                 = false).
  { apply Rltb_false. unfold dist_km. cbn [amb_latitude amb_longitude].
    rewrite haversine_same. apply haversine_nonneg. }
  rewrite Hmin. cbn [exc_bind amb_id].
  eexists. split; [vm_compute; reflexivity|]. vm_compute. reflexivity.
Qed.

(** [simulate_crash] inserts the crash in [new] under the next row id and
    dispatches it: with a candidate at hand the new row ends in
    [waiting_for_driver] with the nearest candidate. *)
Lemma simulate_crash_assigns_nearest ts lat lon snap w :
  available_units (db w) ≠ [] →
  ∃ nearest l1 l2 w' c',
    simulate_crash ts lat lon snap w
    = inr (ok_crash (crash_seq (db w) + 1) (Some (amb_id nearest)), w')
    ∧ available_units (db w) = l1 ++ nearest :: l2
    ∧ (∀ v, v ∈ l1 → (dist_km lat lon nearest < dist_km lat lon v)%R)
    ∧ (∀ v, v ∈ l2 → (dist_km lat lon nearest <= dist_km lat lon v)%R)
    ∧ crashes (db w') !! (crash_seq (db w) + 1)%Z = Some c'
    ∧ latitude c' = lat ∧ longitude c' = lon
    ∧ status c' = waiting_for_driver
    ∧ assigned_ambulance_id c' = Some (amb_id nearest).
Proof.
  intros Hne. unfold simulate_crash, insert_crash.
  set (d1 := mkDB _ _ _ _).
  set (w1 := {| db := capture_snapshot (crash_seq (db w) + 1) snap d1; fan := fan w |}).
  assert (Hcand : candidates (db w1) None = available_units (db w)).
  { subst w1 d1. by destruct snap. }
  destruct (dispatch_nearest (crash_seq (db w) + 1) lat lon None w1)
    as (nearest & l1 & l2 & w' & Hd & Heq & H1 & H2 & Hdb); [by rewrite Hcand|].
  rewrite Hd. cbn [exc_bind]. rewrite Hcand in Heq.
  assert (Hrow : ∃ c1, crashes (db w1) !! (crash_seq (db w) + 1)%Z = Some c1
                       ∧ latitude c1 = lat ∧ longitude c1 = lon).
  { subst w1 d1. destruct snap as [p|]; cbn.
    - rewrite lookup_alter. case_decide; [|done]. rewrite lookup_insert_eq. by eexists.
    - rewrite lookup_insert_eq. by eexists. }
  destruct Hrow as (c1 & Hc1 & Hlat & Hlon).
  exists nearest, l1, l2, w', (set_assignment waiting_for_driver (Some (amb_id nearest)) c1).
  split_and!; try done.
  rewrite Hdb. unfold update_crash. cbn [crashes]. rewrite lookup_alter.
  case_decide; [|done]. by rewrite Hc1.
Qed.

End Selection.

(** ** No unit available *)

Section NoUnit.
Implicit Types (w : World) (d : DB) (c : Crash).

Lemma all_paired_start : all_paired (db start).
Proof. apply reachable_paired. by apply reachable_fresh. Qed.

Lemma all_paired_crash_inserted w :
  all_paired (db w) → all_paired (db (crash_inserted w)).
Proof. intros Hw. by apply all_paired_insert. Qed.

(** Without a candidate [dispatch] writes [no_unit_available] and leaves
    the other columns of the row as they were. *)
Lemma dispatch_no_candidate cid c lat lon ex w :
  crashes (db w) !! cid = Some c →
  candidates (db w) ex = [] →
  ∃ w', dispatch cid lat lon ex w = inr (None, w')
        ∧ crashes (db w') !! cid = Some (set_status no_unit_available c).
Proof.
  intros Hc Hnone. eexists. split; [by apply dispatch_none|].
  cbn. rewrite lookup_alter. case_decide; [|done]. by rewrite Hc.
Qed.



(** The two callers of [dispatch]: a reported crash for which nobody is
    available, and a decline after which nobody else is. *)
Lemma simulate_crash_no_unit ts lat lon snap w :
  available_units (db w) = [] →
  ∃ w' c',
    simulate_crash ts lat lon snap w = inr (ok_crash (crash_seq (db w) + 1) None, w')
    ∧ crashes (db w') !! (crash_seq (db w) + 1)%Z = Some c'
    ∧ status c' = no_unit_available
    ∧ assigned_ambulance_id c' = None.
Proof.
  intros Hnone. unfold simulate_crash, insert_crash.
  set (d1 := mkDB _ _ _ _).
  set (w1 := {| db := capture_snapshot (crash_seq (db w) + 1) snap d1; fan := fan w |}).
  assert (Hcand : candidates (db w1) None = []).
  { subst w1 d1. by destruct snap. }
  assert (Hrow : ∃ c1, crashes (db w1) !! (crash_seq (db w) + 1)%Z = Some c1
                       ∧ assigned_ambulance_id c1 = None).
  { subst w1 d1. destruct snap as [p|]; cbn.
    - rewrite lookup_alter. case_decide; [|done]. rewrite lookup_insert_eq. by eexists.
    - rewrite lookup_insert_eq. by eexists. }
  destruct Hrow as (c1 & Hc1 & Hunit).
  destruct (dispatch_no_candidate _ c1 lat lon None w1 Hc1 Hcand) as (w' & Hd & Hc').
  rewrite Hd. cbn [exc_bind]. by exists w', (set_status no_unit_available c1).
Qed.

Lemma decline_no_unit s driver i c w :
  get_current_driver s (db w) = Some driver →
  crashes (db w) !! i = Some c →
  candidates (db w) (Some (unit_id driver)) = [] →
  ∃ w' c',
    decline_mission s (Some i) w = inr (ok_standby None, w')
    ∧ crashes (db w') !! i = Some c'
    ∧ status c' = no_unit_available
    ∧ assigned_ambulance_id c' = None.
Proof.
  intros Hdrv Hc Hnone. unfold decline_mission. rewrite Hdrv, Hc.
  set (w1 := {| db := update_crash (set_assignment new None) i (db w); fan := fan w |}).
  assert (Hc1 : crashes (db w1) !! i = Some (set_assignment new None c)).
  { subst w1. cbn. rewrite lookup_alter. case_decide; [|done]. by rewrite Hc. }
  destruct (dispatch_no_candidate i _ (latitude c) (longitude c)
              (Some (unit_id driver)) w1 Hc1 Hnone) as (w' & Hd & Hc').
  rewrite Hd. cbn [exc_bind]. by exists w', (set_status no_unit_available (set_assignment new None c)).
Qed.

End NoUnit.

(** ** Decline and re-dispatch *)

Section Decline.
Implicit Types (w : World) (d : DB) (c : Crash).

Lemma dispatch_result cid lat lon ex w r w' :
  dispatch cid lat lon ex w = inr (r, w') →
  r = None ∨ ∃ u, u ∈ candidates (db w) ex ∧ r = Some (amb_id u).
Proof.
  intros H. destruct (candidates (db w) ex) as [|u us] eqn:Hc.
  - rewrite (dispatch_none _ _ _ _ _ Hc) in H. inversion H. by left.
  - assert (Hne : candidates (db w) ex ≠ []) by (by rewrite Hc).
    destruct (dispatch_nearest cid lat lon ex w Hne) as (n & l1 & l2 & w2 & Hd & Heq & _).
    rewrite Hd in H. inversion H; subst. right. exists n. split; [|done].
    rewrite <- Hc, Heq. apply elem_of_app. right. apply list_elem_of_here.
Qed.

(** A driver whose unit id is not the empty string is never handed the
    crash back by the re-dispatch of their own decline. *)
Lemma decline_excludes_declining_unit s driver cid w resp w' :
  get_current_driver s (db w) = Some driver →
  unit_id driver ≠ "" →
  decline_mission s cid w = inr (resp, w') →
  ∃ r, resp = ok_standby r ∧ r ≠ Some (unit_id driver).
Proof.
  intros Hdrv Hid H. unfold decline_mission in H. rewrite Hdrv in H.
  destruct cid as [i|]; [|inversion H; by eexists].
  destruct (crashes (db w) !! i) as [row|]; [|inversion H; by eexists].
  dispatched H r w2 Hd. inversion H; subst. exists r. split; [done|].
  apply dispatch_result in Hd as [->|(u & Hu & ->)]; [done|].
  apply elem_of_candidates in Hu as [_ Hu]. intros [= Heq].
  by apply (Hu (unit_id driver)).
Qed.

(** No route writes the [unit_id] column, so on the roster of [init_db.py]
    every driver has a unit id that is not empty, and the exclusion
    applies to every decline. *)
Lemma handle_unit_ids r w resp w' :
  handle r w = inr (resp, w') →
  map unit_id (drivers (db w')) = map unit_id (drivers (db w)).
Proof.
  assert (Hduty : ∀ b i d,
            map unit_id (drivers (update_is_on_duty b i d)) = map unit_id (drivers d)).
  { intros b i d. cbn. rewrite map_map. apply map_ext. intros dr.
    by destruct (Z.eqb (driver_id dr) i). }
  intros H. destruct r as [s|s b|s|s c|s c|s c|ts lat lon snap|q].
  - route H; returned H; [|done]. apply Hduty.
  - route H; returned H; [|done]. apply Hduty.
  - route H; by returned H.
  - route H; returned H; [|done]. by destruct c.
  - route H; [|by returned H].
    destruct c as [i|]; [|by returned H].
    destruct (crashes (db w) !! i) as [row|]; [|by returned H].
    dispatched H r w2 Hd. returned H.
    destruct (dispatch_returns i (latitude row) (longitude row) (Some (unit_id d))
                {| db := update_crash (set_assignment new None) i (db w); fan := fan w |})
      as (r0 & w0 & Hd0 & _ & _ & Hdrv0).
    rewrite Hd in Hd0. injection Hd0 as <- <-. by rewrite Hdrv0.
  - route H; returned H; [|done]. by destruct c.
  - route H. dispatched H r w2 Hd. returned H.
    match type of Hd with dispatch ?a ?b ?c ?e ?v = _ =>
      destruct (dispatch_returns a b c e v) as (r0 & w0 & Hd0 & _ & _ & Hdrv0) end.
    rewrite Hd in Hd0. injection Hd0 as <- <-. rewrite Hdrv0. by destruct snap.
  - cbn [handle] in H. destruct (generate_next q (fan w)). by returned H.
Qed.

Lemma serve_unit_ids rs w w' :
  serve rs w = inr w' → map unit_id (drivers (db w')) = map unit_id (drivers (db w)).
Proof.
  revert w. induction rs as [|r rs IH]; intros w H; cbn [serve] in H.
  - by inversion H; subst.
  - destruct (handle r w) as [e|[resp w1]] eqn:Hr; [done|]. cbn [exc_bind] in H.
    rewrite (IH _ H). by eapply handle_unit_ids.
Qed.

Lemma get_current_driver_elem s d driver :
  get_current_driver s d = Some driver → driver ∈ drivers d.
Proof.
  unfold get_current_driver. destruct s as [i|]; [|done].
  destruct (Z.eqb i 0); [done|]. intros H.
  apply find_some in H as [H _]. by apply list_elem_of_In.
Qed.

Lemma eligible_roster d d' ex v dr :
  ambulances d' = ambulances d → drivers d' = drivers d →
  eligible d' ex v dr → eligible d ex v dr.
Proof. unfold eligible. by intros -> ->. Qed.

(** C6: on the roster of [init_db.py], whatever requests came before, a
    decline never hands the crash back to the unit that declines: the unit
    [decline_mission] answers with, if any, is another one, available and
    with a driver on duty, and the row of the crash does not name the
    declining unit afterwards. *)
Theorem decline_excludes_the_decliner rs w s driver cid resp w' :
  serve rs start = inr w →
  get_current_driver s (db w) = Some driver →
  decline_mission s cid w = inr (resp, w') →
  ∃ r, resp = ok_standby r
       ∧ r ≠ Some (unit_id driver)
       ∧ (∀ u, r = Some u →
               ∃ v dr, eligible (db w) (Some (unit_id driver)) v dr ∧ amb_id v = u)
       ∧ (∀ i c, cid = Some i → crashes (db w') !! i = Some c →
                 assigned_ambulance_id c ≠ Some (unit_id driver)).
Proof.
  intros Hs Hdrv H.
  assert (Hid : unit_id driver ≠ "").
  { apply serve_unit_ids in Hs. apply get_current_driver_elem in Hdrv.
    assert (Hin : unit_id driver ∈ map unit_id (drivers (db w))).
    { apply list_elem_of_fmap. by exists driver. }
    rewrite Hs in Hin. cbn in Hin.
    repeat (apply elem_of_cons in Hin as [->|Hin]; [done|]).
    by apply elem_of_nil in Hin. }
  unfold decline_mission in H. rewrite Hdrv in H.
  destruct cid as [i|]; [|injection H as <- <-; exists None; by split_and!].
  destruct (crashes (db w) !! i) as [row|] eqn:Hrow.
  - set (w1 := {| db := update_crash (set_assignment new None) i (db w); fan := fan w |})
      in *.
    assert (Hrow1 : crashes (db w1) !! i = Some (set_assignment new None row))
      by exact (update_crash_lookup _ i (db w) row Hrow).
    destruct (candidates (db w1) (Some (unit_id driver))) as [|u us] eqn:Hc.
    + rewrite (dispatch_none _ _ _ _ _ Hc) in H. cbn [exc_bind] in H.
      injection H as <- <-. exists None. split_and!; try done.
      intros j c [= <-]. cbn [db].
      rewrite (update_crash_lookup _ i (db w1) _ Hrow1). by intros [= <-].
    + assert (Hne : candidates (db w1) (Some (unit_id driver)) ≠ []) by (by rewrite Hc).
      destruct (dispatch_nearest i (latitude row) (longitude row)
                  (Some (unit_id driver)) w1 Hne)
        as (n & l1 & l2 & w2 & Hd & Heq & _ & _ & Hdb).
      rewrite Hd in H. cbn [exc_bind] in H. injection H as <- <-.
      assert (Hn : n ∈ candidates (db w1) (Some (unit_id driver))).
      { rewrite Heq. apply elem_of_app. right. apply list_elem_of_here. }
      apply elem_of_candidates_eligible in Hn as [dr Hn].
      assert (Hnid : amb_id n ≠ unit_id driver).
      { destruct Hn as (_ & _ & _ & _ & _ & Hex). by apply Hex. }
      exists (Some (amb_id n)). split_and!; try done.
      * congruence.
      * intros u0 [= <-]. exists n, dr. split; [|done].
        by apply (eligible_roster (db w) (db w1)).
      * intros j c [= <-]. rewrite Hdb.
        rewrite (update_crash_lookup _ i (db w1) _ Hrow1). intros [= <-]. cbn. congruence.
  - injection H as <- <-. exists None. split_and!; try done.
    intros j c [= <-]. cbn. rewrite lookup_alter. case_decide; [|done].
    by rewrite Hrow.
Qed.

(** On a roster whose unit has the empty string as its id, which
    [init_db.py] does not create, [if exclude_unit:] is false, nothing is
    excluded, and the re-dispatch hands the crash back. *)
Lemma decline_reoffers_blank_unit :
  get_current_driver (Some 1%Z) (db (after blank_roster crash_reported))
  = Some (mkDriver 1 "Arjun Nair" "DRV-01" "driver01" "" true)
  ∧ ∃ w' c',
      decline_mission (Some 1%Z) (Some 1%Z) (after blank_roster crash_reported)
      = inr (ok_standby (Some ""), w')
      ∧ crashes (db w') !! 1%Z = Some c'
      ∧ status c' = waiting_for_driver
      ∧ assigned_ambulance_id c' = Some "".
Proof.
  split; [vm_compute; reflexivity|].
  eexists _, _. split; [vm_compute; reflexivity|].
  split; [vm_compute; reflexivity|]. split; reflexivity.
Qed.

End Decline.

Lemma decline_excludes_the_decliner_witness :
  ∃ r, ok_standby (Some "Unit-02") = ok_standby r
       ∧ r ≠ Some (unit_id driver_1)
       ∧ (∀ u, r = Some u →
               ∃ v dr, eligible (db (after start second_unit_on_duty))
                         (Some (unit_id driver_1)) v dr ∧ amb_id v = u)
       ∧ (∀ i c, Some 1%Z = Some i →
                 crashes (db (after (after start second_unit_on_duty)
                                [POST_decline (Some 1%Z) (Some 1%Z)])) !! i = Some c →
                 assigned_ambulance_id c ≠ Some (unit_id driver_1)).
Proof.
  apply (decline_excludes_the_decliner second_unit_on_duty
           (after start second_unit_on_duty) (Some 1%Z) driver_1 (Some 1%Z)).
  - vm_compute. reflexivity.
  - vm_compute. reflexivity.
  - vm_compute. reflexivity.
Defined.

(** ** Accept and arrive *)

Section AcceptArrive.
Implicit Types (w : World) (d : DB) (c : Crash) (a : Ambulance).

Lemma update_is_available_ids b unit d :
  map amb_id (ambulances (update_is_available b unit d)) = map amb_id (ambulances d).
Proof.
  cbn. rewrite map_map. apply map_ext. intros a.
  by destruct (String.eqb (amb_id a) unit).
Qed.

Lemma update_is_available_flag b unit d a :
  a ∈ ambulances (update_is_available b unit d) → amb_id a = unit →
  is_available a = b.
Proof.
  cbn. rewrite list_elem_of_In, in_map_iff. intros (a0 & <- & _).
  destruct (String.eqb_spec (amb_id a0) unit) as [_|Hne]; [done|].
  by intros ?.
Qed.

Lemma update_is_available_other b unit d a :
  a ∈ ambulances d → amb_id a ≠ unit → a ∈ ambulances (update_is_available b unit d).
Proof.
  intros Ha Hne. cbn. rewrite list_elem_of_In, in_map_iff. exists a.
  split; [|by apply list_elem_of_In].
  by destruct (String.eqb_spec (amb_id a) unit).
Qed.

(** What [accept_mission] returns for a logged-in driver. *)
Lemma accept_mission_logged_in s driver cid w :
  get_current_driver s (db w) = Some driver →
  accept_mission s cid w =
  inr (ok_status en_route,
       {| db := update_is_available false (unit_id driver)
                  match cid with
                  | Some i => update_crash (set_status en_route) i (db w)
                  | None => db w
                  end;
          fan := {| subscribers := subscribers (fan w);
                    queues := offer_all ("status_update",
                                         status_update_data cid en_route
                                           (Some (unit_id driver)))
                                (all_subscribed (fan w)) (queues (fan w)) |} |}).
Proof. intros Hdrv. unfold accept_mission. by rewrite Hdrv, push_all_inr. Qed.

(** What [arrived] returns for a logged-in driver. *)
Lemma arrived_logged_in s driver cid w :
  get_current_driver s (db w) = Some driver →
  arrived s cid w =
  inr (ok_status resolved,
       {| db := update_is_available true (unit_id driver)
                  match cid with
                  | Some i => update_crash (set_status resolved) i (db w)
                  | None => db w
                  end;
          fan := {| subscribers := subscribers (fan w);
                    queues := offer_all ("status_update",
                                         status_update_data cid resolved None)
                                (all_subscribed (fan w)) (queues (fan w)) |} |}).
Proof. intros Hdrv. unfold arrived. by rewrite Hdrv, push_all_inr. Qed.

(** C7: accepting an incident in [waiting_for_driver] writes [en_route] and
    marks the accepting driver's unit unavailable; arriving at an incident
    in [en_route] writes [resolved] and marks that unit available again. *)
Theorem accept_then_arrive s driver w :
  get_current_driver s (db w) = Some driver →
  (∀ i c, crashes (db w) !! i = Some c → status c = waiting_for_driver →
     ∃ w' c',
       accept_mission s (Some i) w = inr (ok_status en_route, w')
       ∧ crashes (db w') !! i = Some c'
       ∧ status c' = en_route
       ∧ map amb_id (ambulances (db w')) = map amb_id (ambulances (db w))
       ∧ ∀ a, a ∈ ambulances (db w') → amb_id a = unit_id driver →
              is_available a = false)
  ∧ (∀ i c, crashes (db w) !! i = Some c → status c = en_route →
       ∃ w' c',
         arrived s (Some i) w = inr (ok_status resolved, w')
         ∧ crashes (db w') !! i = Some c'
         ∧ status c' = resolved
         ∧ map amb_id (ambulances (db w')) = map amb_id (ambulances (db w))
         ∧ ∀ a, a ∈ ambulances (db w') → amb_id a = unit_id driver →
                is_available a = true).
Proof.
  intros Hdrv. split; intros i c Hc _.
  - rewrite (accept_mission_logged_in s driver (Some i) w Hdrv).
    eexists _, (set_status en_route c). split; [done|]. cbn [db].
    split_and!.
    + exact (update_crash_lookup (set_status en_route) i (db w) c Hc).
    + done.
    + by rewrite update_is_available_ids.
    + apply update_is_available_flag.
  - rewrite (arrived_logged_in s driver (Some i) w Hdrv).
    eexists _, (set_status resolved c). split; [done|]. cbn [db].
    split_and!.
    + exact (update_crash_lookup (set_status resolved) i (db w) c Hc).
    + done.
    + by rewrite update_is_available_ids.
    + apply update_is_available_flag.
Qed.

End AcceptArrive.

Lemma accept_then_arrive_witness :
  (∃ w' c',
     accept_mission (Some 1%Z) (Some 1%Z) (after start crash_reported)
     = inr (ok_status en_route, w')
     ∧ crashes (db w') !! 1%Z = Some c'
     ∧ status c' = en_route
     ∧ map amb_id (ambulances (db w'))
       = map amb_id (ambulances (db (after start crash_reported)))
     ∧ ∀ a, a ∈ ambulances (db w') → amb_id a = unit_id driver_1 →
            is_available a = false)
  ∧ (∃ w' c',
       arrived (Some 1%Z) (Some 1%Z) (after start crash_accepted)
       = inr (ok_status resolved, w')
       ∧ crashes (db w') !! 1%Z = Some c'
       ∧ status c' = resolved
       ∧ map amb_id (ambulances (db w'))
         = map amb_id (ambulances (db (after start crash_accepted)))
       ∧ ∀ a, a ∈ ambulances (db w') → amb_id a = unit_id driver_1 →
              is_available a = true).
Proof.
  split.
  - apply (proj1 (accept_then_arrive (Some 1%Z) driver_1 (after start crash_reported)
                    ltac:(vm_compute; reflexivity))
             1%Z (crash_1 waiting_for_driver (Some "Unit-01"))).
    + vm_compute. reflexivity.
    + reflexivity.
  - apply (proj2 (accept_then_arrive (Some 1%Z) driver_1 (after start crash_accepted)
                    ltac:(vm_compute; reflexivity))
             1%Z (crash_1 en_route (Some "Unit-01"))).
    + vm_compute. reflexivity.
    + reflexivity.
Defined.

(** ** What the routes do not check *)

Section Unchecked.
Implicit Types (w : World) (d : DB) (c : Crash) (a : Ambulance).

Lemma decline_mission_returns s driver i c w :
  get_current_driver s (db w) = Some driver →
  crashes (db w) !! i = Some c →
  ∃ r w' c',
    decline_mission s (Some i) w = inr (ok_standby r, w')
    ∧ crashes (db w') !! i = Some c'
    ∧ ((r = None ∧ status c' = no_unit_available ∧ assigned_ambulance_id c' = None)
       ∨ (status c' = waiting_for_driver ∧ assigned_ambulance_id c' = r ∧ is_Some r)).
Proof.
  intros Hdrv Hc. unfold decline_mission. rewrite Hdrv, Hc.
  set (w1 := {| db := update_crash (set_assignment new None) i (db w); fan := fan w |}).
  assert (Hc1 : crashes (db w1) !! i = Some (set_assignment new None c))
    by exact (update_crash_lookup (set_assignment new None) i (db w) c Hc).
  destruct (candidates (db w1) (Some (unit_id driver))) as [|u us] eqn:Hcand.
  - destruct (dispatch_no_candidate i _ (latitude c) (longitude c) _ w1 Hc1 Hcand)
      as (w' & Hd & Hc').
    rewrite Hd. cbn [exc_bind]. eexists None, w', _. split_and!; [done..|]. by left.
  - assert (Hne : candidates (db w1) (Some (unit_id driver)) ≠ []) by (by rewrite Hcand).
    destruct (dispatch_nearest i (latitude c) (longitude c) _ w1 Hne)
      as (n & l1 & l2 & w' & Hd & _ & _ & _ & Hdb).
    rewrite Hd. cbn [exc_bind]. eexists (Some (amb_id n)), w', _. split_and!; [done| |].
    + rewrite Hdb. by apply update_crash_lookup.
    + right. by split_and!.
Qed.

(** C3, as the code has it: no route looks at the status of the incident.
    For a logged-in driver and an incident in any status, [accept_mission]
    answers ok, writes [en_route] and marks the driver's unit unavailable;
    [arrived] answers ok, writes [resolved] and marks it available;
    [decline_mission] answers ok and dispatches the incident again. *)
Theorem transitions_from_any_status s driver i c w :
  get_current_driver s (db w) = Some driver →
  crashes (db w) !! i = Some c →
  (∃ w',
     accept_mission s (Some i) w = inr (ok_status en_route, w')
     ∧ crashes (db w') !! i = Some (set_status en_route c)
     ∧ ∀ a, a ∈ ambulances (db w') → amb_id a = unit_id driver → is_available a = false)
  ∧ (∃ w',
       arrived s (Some i) w = inr (ok_status resolved, w')
       ∧ crashes (db w') !! i = Some (set_status resolved c)
       ∧ ∀ a, a ∈ ambulances (db w') → amb_id a = unit_id driver → is_available a = true)
  ∧ (∃ r w' c',
       decline_mission s (Some i) w = inr (ok_standby r, w')
       ∧ crashes (db w') !! i = Some c'
       ∧ (status c' = waiting_for_driver ∨ status c' = no_unit_available)).
Proof.
  intros Hdrv Hc. split_and!.
  - rewrite (accept_mission_logged_in s driver (Some i) w Hdrv).
    eexists. split; [done|]. cbn [db]. split.
    + exact (update_crash_lookup (set_status en_route) i (db w) c Hc).
    + apply update_is_available_flag.
  - rewrite (arrived_logged_in s driver (Some i) w Hdrv).
    eexists. split; [done|]. cbn [db]. split.
    + exact (update_crash_lookup (set_status resolved) i (db w) c Hc).
    + apply update_is_available_flag.
  - destruct (decline_mission_returns s driver i c w Hdrv Hc)
      as (r & w' & c' & Hd & Hc' & Hst).
    exists r, w', c'. split_and!; [done..|].
    destruct Hst as [(_ & -> & _)|(-> & _)]; [by right|by left].
Qed.

Lemma transitions_from_any_status_witness :
  (∃ w',
     accept_mission (Some 1%Z) (Some 1%Z) (after start crash_resolved)
     = inr (ok_status en_route, w')
     ∧ crashes (db w') !! 1%Z
       = Some (set_status en_route (crash_1 resolved (Some "Unit-01")))
     ∧ ∀ a, a ∈ ambulances (db w') → amb_id a = unit_id driver_1 → is_available a = false)
  ∧ (∃ w',
       arrived (Some 1%Z) (Some 1%Z) (after start crash_resolved)
       = inr (ok_status resolved, w')
       ∧ crashes (db w') !! 1%Z
         = Some (set_status resolved (crash_1 resolved (Some "Unit-01")))
       ∧ ∀ a, a ∈ ambulances (db w') → amb_id a = unit_id driver_1 → is_available a = true)
  ∧ (∃ r w' c',
       decline_mission (Some 1%Z) (Some 1%Z) (after start crash_resolved)
       = inr (ok_standby r, w')
       ∧ crashes (db w') !! 1%Z = Some c'
       ∧ (status c' = waiting_for_driver ∨ status c' = no_unit_available)).
Proof.
  apply (transitions_from_any_status (Some 1%Z) driver_1 1%Z
           (crash_1 resolved (Some "Unit-01")) (after start crash_resolved)).
  - vm_compute. reflexivity.
  - vm_compute. reflexivity.
Defined.

(** C3 fails on the code: crash 1 is resolved, driver 1 accepts it once
    more, and the route answers ok, puts the crash back to [en_route] and
    takes Unit-01 out of service. *)
Lemma accept_after_resolved :
  crashes (db (after start crash_resolved)) !! 1%Z
  = Some (crash_1 resolved (Some "Unit-01"))
  ∧ ambulances (db (after start crash_resolved)) !! 0%nat
    = Some (mkAmbulance "Unit-01" 10.5276 76.2144 true)
  ∧ ∃ w',
      accept_mission (Some 1%Z) (Some 1%Z) (after start crash_resolved)
      = inr (ok_status en_route, w')
      ∧ crashes (db w') !! 1%Z = Some (crash_1 en_route (Some "Unit-01"))
      ∧ ambulances (db w') !! 0%nat = Some (mkAmbulance "Unit-01" 10.5276 76.2144 false).
Proof.
  split; [vm_compute; reflexivity|]. split; [vm_compute; reflexivity|].
  eexists. split; [vm_compute; reflexivity|].
  split; vm_compute; reflexivity.
Qed.

End Unchecked.

Section Login.
Implicit Types (w : World) (d : DB) (c : Crash) (a : Ambulance).

(** C4, as the code has it: the three routes check that a driver is logged
    in and nothing else.  Without a login they answer 401 and leave the
    world as it is; with one they go through even when the driver's unit
    is not the unit the incident is assigned to: the assignment stays, and
    it is the caller's unit whose availability is written. *)
Theorem only_the_login_is_checked s cid w :
  (get_current_driver s (db w) = None →
     accept_mission s cid w = inr (not_logged_in, w)
     ∧ decline_mission s cid w = inr (not_logged_in, w)
     ∧ arrived s cid w = inr (not_logged_in, w))
  ∧ (∀ driver i c,
       get_current_driver s (db w) = Some driver →
       cid = Some i →
       crashes (db w) !! i = Some c →
       assigned_ambulance_id c ≠ Some (unit_id driver) →
       (∃ w' c',
          accept_mission s cid w = inr (ok_status en_route, w')
          ∧ crashes (db w') !! i = Some c'
          ∧ status c' = en_route
          ∧ assigned_ambulance_id c' = assigned_ambulance_id c
          ∧ ∀ a, a ∈ ambulances (db w') → amb_id a = unit_id driver →
                 is_available a = false)
       ∧ (∃ w' c',
            arrived s cid w = inr (ok_status resolved, w')
            ∧ crashes (db w') !! i = Some c'
            ∧ status c' = resolved
            ∧ assigned_ambulance_id c' = assigned_ambulance_id c
            ∧ ∀ a, a ∈ ambulances (db w') → amb_id a = unit_id driver →
                   is_available a = true)
       ∧ (∃ r w' c',
            decline_mission s cid w = inr (ok_standby r, w')
            ∧ crashes (db w') !! i = Some c'
            ∧ assigned_ambulance_id c' = r)).
Proof.
  split.
  - intros Hdrv. unfold accept_mission, decline_mission, arrived. by rewrite Hdrv.
  - intros driver i c Hdrv -> Hc Hunit. split_and!.
    + rewrite (accept_mission_logged_in s driver (Some i) w Hdrv).
      eexists _, (set_status en_route c). split; [done|]. cbn [db]. split_and!; [|done..|].
      * exact (update_crash_lookup (set_status en_route) i (db w) c Hc).
      * apply update_is_available_flag.
    + rewrite (arrived_logged_in s driver (Some i) w Hdrv).
      eexists _, (set_status resolved c). split; [done|]. cbn [db]. split_and!; [|done..|].
      * exact (update_crash_lookup (set_status resolved) i (db w) c Hc).
      * apply update_is_available_flag.
    + destruct (decline_mission_returns s driver i c w Hdrv Hc)
        as (r & w' & c' & Hd & Hc' & Hst).
      exists r, w', c'. split_and!; [done..|].
      destruct Hst as [(-> & _ & ->)|(_ & -> & _)]; done.
Qed.

(** C4 fails on the code: crash 1 waits for Unit-01, driver 2 of Unit-02
    accepts it, and the route answers ok, puts the crash to [en_route] and
    takes Unit-02 out of service. *)
Lemma accept_by_another_unit :
  crashes (db (after start crash_reported)) !! 1%Z
  = Some (crash_1 waiting_for_driver (Some "Unit-01"))
  ∧ get_current_driver (Some 2%Z) (db (after start crash_reported)) = Some driver_2
  ∧ ambulances (db (after start crash_reported)) !! 1%nat
    = Some (mkAmbulance "Unit-02" 10.5167 76.2167 true)
  ∧ ∃ w',
      accept_mission (Some 2%Z) (Some 1%Z) (after start crash_reported)
      = inr (ok_status en_route, w')
      ∧ crashes (db w') !! 1%Z = Some (crash_1 en_route (Some "Unit-01"))
      ∧ ambulances (db w') !! 1%nat = Some (mkAmbulance "Unit-02" 10.5167 76.2167 false).
Proof.
  split; [vm_compute; reflexivity|]. split; [vm_compute; reflexivity|].
  split; [vm_compute; reflexivity|].
  eexists. split; [vm_compute; reflexivity|].
  split; vm_compute; reflexivity.
Qed.

End Login.

(** ** Status and assigned unit in reachable worlds *)

Section Pairing.
Implicit Types (w : World) (c : Crash).

(** While requests are served one after the other, a crash in [new] or
    [no_unit_available] has no assigned unit, a crash in
    [waiting_for_driver] has one, and a crash with an assigned unit is in
    [waiting_for_driver], [en_route] or [resolved]. *)
Lemma reachable_status_pairing w i c :
  reachable w →
  crashes (db w) !! i = Some c →
  (status c = new ∨ status c = no_unit_available → assigned_ambulance_id c = None)
  ∧ (status c = waiting_for_driver → is_Some (assigned_ambulance_id c))
  ∧ (is_Some (assigned_ambulance_id c) →
     status c = waiting_for_driver ∨ status c = en_route ∨ status c = resolved).
Proof.
  intros Hw Hc. pose proof (reachable_paired w Hw i c Hc) as Hp.
  unfold paired in Hp. split_and!.
  - by intros [Hs|Hs]; rewrite Hs in Hp.
  - intros Hs. rewrite Hs in Hp. by destruct (assigned_ambulance_id c); [eexists|].
  - intros [u Hu]. rewrite Hu in Hp. destruct (status c); auto; discriminate.
Qed.

End Pairing.

(** ** Status and assigned unit while requests overlap *)

Section Threads.
Implicit Types (w : World) (d : DB) (c : Crash) (fl : Arith) (s : Server).

Lemma play_cons fl t ts s s1 :
  turn fl t s = inr s1 → play fl (t :: ts) s = play fl ts s1.
Proof. intros H. cbn [play]. by rewrite H. Qed.

Lemma running_play fl ts s s' : running fl s → play fl ts s = inr s' → running fl s'.
Proof.
  revert s. induction ts as [|t ts IH]; intros s Hs H; cbn [play] in H.
  - by injection H as <-.
  - destruct (turn fl t s) as [e|s1] eqn:Ht; [done|]. cbn [exc_bind] in H.
    apply (IH s1); [|done]. by eapply running_turn.
Qed.

Lemma dispatch_from_weakly_paired fl cid lat lon units w :
  all_weakly_paired (db w) →
  all_weakly_paired (db (state_after (dispatch_from fl cid lat lon units w))).
Proof.
  intros Hw. unfold dispatch_from. destruct units as [|u us].
  - cbn [state_after db]. by apply all_weakly_paired_alter.
  - destruct (py_min_fl _ (u :: us)) as [e|nearest]; [done|].
    destruct (haversine_fl fl lat lon (amb_latitude nearest) (amb_longitude nearest))
      as [e|km]; [done|].
    assert (Hw1 : all_weakly_paired
              (update_crash (set_assignment waiting_for_driver (Some (amb_id nearest)))
                            cid (db w))).
    { apply all_weakly_paired_alter; [|done]. intros c _. by unfold weakly_paired. }
    destruct (get_address_fl fl lat lon) as [e|a]; [done|].
    by rewrite push_event_inr.
Qed.

Lemma handle_weakly_paired r w resp w' :
  (∀ ts lat lon snap, r ≠ POST_simulate_crash ts lat lon snap) →
  (∀ session crash_id, r ≠ POST_decline session crash_id) →
  all_weakly_paired (db w) → handle r w = inr (resp, w') → all_weakly_paired (db w').
Proof.
  intros Hr1 Hr2 Hw H. destruct r as [s|s b|s|s c|s c|s c|ts lat lon snap|q].
  - route H; returned H; [|done]. by eapply all_weakly_paired_roster.
  - route H; returned H; [|done]. by eapply all_weakly_paired_roster.
  - route H; by returned H.
  - route H; returned H; [|done].
    eapply all_weakly_paired_roster; [|reflexivity].
    destruct c as [i|]; [|done]. by apply all_weakly_paired_alter.
  - by destruct (Hr2 s c).
  - route H; returned H; [|done].
    eapply all_weakly_paired_roster; [|reflexivity].
    destruct c as [i|]; [|done]. by apply all_weakly_paired_alter.
  - by destruct (Hr1 ts lat lon snap).
  - cbn [handle] in H. destruct (generate_next q (fan w)). by returned H.
Qed.

(** Every turn keeps the weak pairing. *)
Lemma turn_weakly_paired fl t s s' :
  all_weakly_paired (db (world s)) → turn fl t s = inr s' →
  all_weakly_paired (db (world s')).
Proof.
  intros Hw H. destruct t as [r|k].
  - assert (Hother : (∀ ts lat lon snap, r ≠ POST_simulate_crash ts lat lon snap) →
                     (∀ session crash_id, r ≠ POST_decline session crash_id) →
                     (do (_, w') <- handle r (world s);
                      inr {| world := w'; threads := threads s |}) = inr s' →
                     all_weakly_paired (db (world s'))).
    { intros Hr1 Hr2 Hh. destruct (handle r (world s)) as [e|[resp w']] eqn:Hr; [done|].
      cbn [exc_bind] in Hh. injection Hh as <-. cbn [world].
      by eapply handle_weakly_paired. }
    destruct r as [s0|s0 b|s0|s0 c|s0 c|s0 c|ts lat lon snap|q];
      try (apply Hother; [by intros| by intros|exact H]).
    + cbn [turn] in H.
      destruct (get_current_driver s0 (db (world s))) as [driver|];
        [|by injection H as <-].
      destruct c as [i|]; [|by injection H as <-].
      injection H as <-. cbn [world db].
      apply all_weakly_paired_alter; [|done]. by intros c _.
    + cbn [turn] in H. unfold insert_crash in H. injection H as <-. cbn [world db].
      intros j c. cbn [crashes]. rewrite lookup_insert.
      case_decide; [by intros [= <-]|apply Hw].
  - cbn [turn] in H. destruct (threads s !! k) as [[i lat lon snap|i lat lon ex|i lat lon units]|];
      injection H as <-; cbn [world db]; try done.
    + destruct snap as [p|]; [|done]. cbn [capture_snapshot].
      apply all_weakly_paired_alter; [|done]. intros c Hc.
      unfold weakly_paired in *. cbn. done.
    + by apply dispatch_from_weakly_paired.
Qed.

Lemma running_weakly_paired fl s : running fl s → all_weakly_paired (db (world s)).
Proof.
  induction 1 as [w Hfresh|s t s' _ IH Hstep].
  - intros i c. cbn. by rewrite Hfresh, lookup_empty.
  - by eapply turn_weakly_paired.
Qed.

(** C1, as the code has it: in every state of the threaded server, between
    the commits of requests that overlap as well, a crash in [new] has no
    assigned unit and a crash in [waiting_for_driver] has one; so a crash
    with an assigned unit is never [new]. *)
Theorem running_status_pairing fl s i c :
  running fl s →
  crashes (db (world s)) !! i = Some c →
  (status c = new → assigned_ambulance_id c = None)
  ∧ (status c = waiting_for_driver → is_Some (assigned_ambulance_id c))
  ∧ (is_Some (assigned_ambulance_id c) → status c ≠ new).
Proof.
  intros Hs Hc. pose proof (running_weakly_paired fl s Hs i c Hc) as Hp.
  unfold weakly_paired in Hp. split_and!.
  - intros Hst. by rewrite Hst in Hp.
  - intros Hst. rewrite Hst in Hp. by destruct (assigned_ambulance_id c).
  - intros [u Hu] Hst. rewrite Hst in Hp. congruence.
Qed.

(** The dispatch a decline starts reads the units at one moment and writes
    the crash at a later one; whatever was committed in between, it
    neither returns nor writes the unit that declined. *)
Lemma redispatch_excludes_the_decliner fl cid lat lon x w0 w :
  x ≠ "" →
  (∀ r w', dispatch_from fl cid lat lon (candidates (db w0) (Some x)) w = inr (r, w') →
           r ≠ Some x)
  ∧ ∀ c, crashes (db (state_after
                        (dispatch_from fl cid lat lon (candidates (db w0) (Some x)) w)))
         !! cid = Some c →
         assigned_ambulance_id c = Some x →
         ∃ c0, crashes (db w) !! cid = Some c0 ∧ assigned_ambulance_id c0 = Some x.
Proof.
  intros Hx.
  assert (Hkeep : ∀ c, crashes (db w) !! cid = Some c → assigned_ambulance_id c = Some x →
                       ∃ c0, crashes (db w) !! cid = Some c0
                             ∧ assigned_ambulance_id c0 = Some x) by (by eexists).
  unfold dispatch_from.
  destruct (candidates (db w0) (Some x)) as [|u us] eqn:Hc.
  - split; [by intros r w' [= <- _]|]. cbn [state_after db].
    intros c. unfold update_crash. cbn [crashes]. rewrite lookup_alter.
    case_decide; [|done].
    destruct (crashes (db w) !! cid) as [c0|]; [|done]. cbn.
    intros [= <-] Hu. by exists c0.
  - destruct (py_min_fl _ (u :: us)) as [e|nearest] eqn:Hmin; [by split|].
    assert (Hn : amb_id nearest ≠ x).
    { apply py_min_fl_elem in Hmin. rewrite <- Hc in Hmin.
      apply elem_of_candidates in Hmin as [_ Hmin]. by apply Hmin. }
    destruct (haversine_fl fl lat lon (amb_latitude nearest) (amb_longitude nearest))
      as [e|km]; [by split|].
    assert (Hrow : ∀ c, crashes (update_crash
                     (set_assignment waiting_for_driver (Some (amb_id nearest)))
                     cid (db w)) !! cid = Some c →
                   assigned_ambulance_id c = Some x → False).
    { intros c. unfold update_crash. cbn [crashes]. rewrite lookup_alter.
      case_decide; [|done].
      destruct (crashes (db w) !! cid) as [c0|]; [|done]. cbn.
      intros [= <-]. cbn. congruence. }
    destruct (get_address_fl fl lat lon) as [e|a].
    + split; [done|]. cbn [state_after db]. intros c Hcid Hu.
      by destruct (Hrow c Hcid Hu).
    + rewrite push_event_inr. split.
      * intros r w' [= <- _]. congruence.
      * cbn [state_after db]. intros c Hcid Hu. by destruct (Hrow c Hcid Hu).
Qed.

End Threads.

(** In exact arithmetic the turn that writes the crash gives what
    [dispatch] gives, and a request served alone goes through its turns to
    the world its route gives. *)
Section ThreadRuns.
Implicit Types (w : World) (fl : Arith).

Lemma turn_update_exact k i lat lon units (s : Server) :
  threads s !! k = Some (at_update i lat lon units) →
  turn exact (resumes k) s =
  inr {| world :=
           match units with
           | [] =>
               {| db := update_crash (set_status no_unit_available) i (db (world s));
                  fan := fan (world s) |}
           | u :: us =>
               let nearest := min_from (dist_km lat lon) u us in
               {| db := update_crash
                          (set_assignment waiting_for_driver (Some (amb_id nearest)))
                          i (db (world s));
                  fan := {| subscribers := subscribers (fan (world s));
                            queues := offer_all ("mission_assigned",
                                        mission_assigned_data i (amb_id nearest) lat lon)
                                        (subscribed (fan (world s)) (amb_id nearest))
                                        (queues (fan (world s))) |} |}
           end;
         threads := delete k (threads s) |}.
Proof.
  intros Hk. cbn [turn]. rewrite Hk, dispatch_from_exact. by destruct units.
Qed.

(** Served alone, a request goes through its turns to the world its route
    gives. *)
Lemma handle_in_turns r w resp w' :
  handle r w = inr (resp, w') →
  ∃ ts, play exact ts {| world := w; threads := [] |}
        = inr {| world := w'; threads := [] |}.
Proof.
  intros H.
  assert (Hone : (do (_, w1) <- handle r w; inr {| world := w1; threads := [] |})
                 = inr {| world := w'; threads := [] |}) by (by rewrite H).
  destruct r as [s|s b|s|s c|s c|s c|ts lat lon snap|q];
    try (match type of H with handle ?r0 _ = _ => exists [arrives r0] end;
         cbn [play turn world threads]; by rewrite H).
  - cbn [handle] in H. unfold decline_mission in H.
    destruct (get_current_driver s (db w)) as [driver|] eqn:Hdrv.
    + destruct c as [i|].
      * destruct (crashes (db w) !! i) as [row|] eqn:Hrow.
        -- exists [arrives (POST_decline s (Some i)); resumes 0; resumes 0].
           erewrite play_cons;
             [|cbn [turn world threads]; rewrite Hdrv, Hrow; reflexivity].
           erewrite play_cons; [|reflexivity].
           erewrite play_cons; [|by apply turn_update_exact].
           cbn [play world threads]. f_equal. f_equal.
           rewrite dispatch_fl_exact in H. unfold dispatch_fl in H.
           rewrite dispatch_from_exact in H. cbn [db fan] in H.
           destruct (candidates _ _) as [|u us]; cbn [exc_bind] in H;
             by injection H as _ <-.
        -- exists [arrives (POST_decline s (Some i))].
           erewrite play_cons;
             [|cbn [turn world threads]; rewrite Hdrv, Hrow; reflexivity].
           cbn [play]. by injection H as _ <-.
      * exists []. cbn [play]. by injection H as _ <-.
    + exists []. cbn [play]. by injection H as _ <-.
  - cbn [handle] in H. unfold simulate_crash, insert_crash in H.
    exists [arrives (POST_simulate_crash ts lat lon snap); resumes 0; resumes 0; resumes 0].
    erewrite play_cons; [|reflexivity].
    erewrite play_cons; [|reflexivity].
    erewrite play_cons; [|reflexivity].
    erewrite play_cons; [|by apply turn_update_exact].
    cbn [play world threads]. f_equal. f_equal.
    rewrite dispatch_fl_exact in H. unfold dispatch_fl in H.
    rewrite dispatch_from_exact in H. cbn [db fan] in H.
    destruct (candidates _ _) as [|u us]; cbn [exc_bind] in H;
      by injection H as _ <-.
Qed.

Lemma reachable_running w : reachable w → running exact {| world := w; threads := [] |}.
Proof.
  induction 1 as [w Hfresh|w r resp w' _ IH Hstep].
  - by apply running_fresh.
  - destruct (handle_in_turns r w resp w' Hstep) as [ts Hts].
    by eapply running_play.
Qed.

End ThreadRuns.

Lemma running_boot : running exact boot.
Proof. by apply running_fresh. Qed.

(** Runs the next turn of a scenario. *)
Ltac turn_computed :=
  lazymatch goal with
  | |- play ?fl (?t :: ?ts) ?s = _ =>
      let r := eval vm_compute in (turn fl t s) in
      lazymatch r with
      | inr ?s1 => rewrite (play_cons fl t ts s s1) by (vm_compute; reflexivity)
      end
  end.

Ltac turn_update :=
  lazymatch goal with
  | |- play exact (resumes ?k :: ?ts) ?s = _ =>
      let th := eval vm_compute in (threads s !! k) in
      lazymatch th with
      | Some (at_update ?i ?lat ?lon ?units) =>
          erewrite (play_cons exact (resumes k) ts s);
          [|apply (turn_update_exact k i lat lon units s); vm_compute; reflexivity]
      end
  end.

Ltac turns := repeat first [turn_update | turn_computed].

Lemma running_status_pairing_witness :
  (status new_crash = new → assigned_ambulance_id new_crash = None)
  ∧ (status new_crash = waiting_for_driver → is_Some (assigned_ambulance_id new_crash))
  ∧ (is_Some (assigned_ambulance_id new_crash) → status new_crash ≠ new).
Proof.
  apply (running_status_pairing exact
           {| world := crash_inserted (after start duty_on);
              threads := [at_snapshot 1 10.5276 76.2144 None] |} 1%Z).
  - apply (running_play exact report_under_way boot); [apply running_boot|].
    vm_compute. reflexivity.
  - vm_compute. reflexivity.
Defined.

(** C1 fails on the code: after the crash is resolved its row still names
    Unit-01; a crash nobody was available for, once accepted, is
    [en_route] without a unit; and when two declines overlap the crash
    ends in [no_unit_available] with Unit-01 assigned. *)
Lemma status_pairing_broken :
  (∃ s, play exact resolved_in_turn boot = inr s
        ∧ running exact s
        ∧ crashes (db (world s)) !! 1%Z = Some (crash_1 resolved (Some "Unit-01")))
  ∧ (∃ s, play exact unattended_in_turn boot = inr s
          ∧ running exact s
          ∧ crashes (db (world s)) !! 1%Z = Some (crash_1 en_route None))
  ∧ (∃ s, play exact overlapping_declines boot = inr s
          ∧ running exact s
          ∧ crashes (db (world s)) !! 1%Z
            = Some (crash_1 no_unit_available (Some "Unit-01"))).
Proof.
  assert (Hrun : ∀ ts s c,
            play exact ts boot = inr s →
            crashes (db (world s)) !! 1%Z = Some c →
            ∃ s0, play exact ts boot = inr s0 ∧ running exact s0
                  ∧ crashes (db (world s0)) !! 1%Z = Some c).
  { intros ts s c Hp Hc. exists s. split_and!; [done| |done].
    eapply running_play; [apply running_boot|done]. }
  split_and!.
  - eapply Hrun.
    + unfold resolved_in_turn, report_done, report_under_way. cbn [app].
      turns. reflexivity.
    + vm_compute. reflexivity.
  - eapply Hrun.
    + unfold unattended_in_turn. turns. reflexivity.
    + vm_compute. reflexivity.
  - eapply Hrun.
    + unfold overlapping_declines, report_done, report_under_way. cbn [app].
      turns. reflexivity.
    + vm_compute. reflexivity.
Qed.


(** ** Publishing *)

Section Publishing.
Implicit Types (f : Fanout) (w : World).

Lemma offer_all_is_Some msg l (qs : gmap nat Queue) r :
  is_Some (offer_all msg l qs !! r) ↔ is_Some (qs !! r).
Proof.
  revert qs. induction l as [|x l IH]; intros qs; [done|].
  unfold offer_all in *. cbn [foldl]. rewrite IH, lookup_alter.
  case_decide; [subst x|done]. by rewrite fmap_is_Some.
Qed.

Lemma registry_ok_queues f qs :
  registry_ok f → (∀ r, is_Some (queues f !! r) → is_Some (qs !! r)) →
  registry_ok {| subscribers := subscribers f; queues := qs |}.
Proof.
  intros Hf Hqs u. destruct (Hf u) as [Hnd Hin]. split; [done|].
  intros r Hr. apply Hqs, Hin, Hr.
Qed.

Lemma dispatch_registry_ok cid lat lon ex w r w' :
  registry_ok (fan w) → dispatch cid lat lon ex w = inr (r, w') → registry_ok (fan w').
Proof.
  intros Hw H. destruct (candidates (db w) ex) as [|u us] eqn:Hc.
  - rewrite (dispatch_none _ _ _ _ _ Hc) in H. by returned H.
  - rewrite (dispatch_some _ _ _ _ _ _ _ Hc) in H. returned H.
    apply registry_ok_queues; [done|]. intros r0. by rewrite offer_all_is_Some.
Qed.

(** The routes keep the registry well-formed: [/events] adds a queue the
    store did not hold, and nothing else touches the lists. *)
Lemma handle_registry_ok r w resp w' :
  registry_ok (fan w) → handle r w = inr (resp, w') → registry_ok (fan w').
Proof.
  intros Hw H.
  assert (Hpub : ∀ msg l, registry_ok {| subscribers := subscribers (fan w);
                                         queues := offer_all msg l (queues (fan w)) |}).
  { intros msg l. apply registry_ok_queues; [done|].
    intros r0. by rewrite offer_all_is_Some. }
  destruct r as [s|s b|s|s c|s c|s c|ts lat lon snap|q].
  - route H; by returned H.
  - route H; by returned H.
  - route H; returned H; [|done].
    set (q := fresh (dom (queues (fan w)))).
    assert (Hq : queues (fan w) !! q = None) by apply not_elem_of_dom, is_fresh.
    intros u. unfold subscribed. cbn [subscribers queues].
    destruct (decide (u = unit_id d)) as [->|Hne].
    + rewrite lookup_insert_eq. cbn [default].
      destruct (Hw (unit_id d)) as [Hnd Hin]. fold (subscribed (fan w) (unit_id d)).
      split.
      * apply NoDup_app. split_and!; [done| |apply NoDup_singleton].
        intros r Hr Hr'. apply list_elem_of_singleton in Hr' as ->.
        apply Hin in Hr as [? Hr]. by rewrite Hq in Hr.
      * intros r Hr. rewrite lookup_insert. case_decide; [done|].
        apply elem_of_app in Hr as [Hr|Hr]; [by apply Hin|].
        by apply list_elem_of_singleton in Hr.
    + rewrite lookup_insert_ne by done. fold (subscribed (fan w) u).
      destruct (Hw u) as [Hnd Hin]. split; [done|].
      intros r Hr. rewrite lookup_insert. case_decide; [done|by apply Hin].
  - route H; by returned H.
  - route H; [|by returned H].
    destruct c as [i|]; [|by returned H].
    destruct (crashes (db w) !! i) as [row|]; [|by returned H].
    dispatched H r w2 Hd. returned H. by eapply dispatch_registry_ok in Hd.
  - route H; by returned H.
  - route H. dispatched H r w2 Hd. returned H. by eapply dispatch_registry_ok in Hd.
  - cbn [handle] in H. unfold generate_next in H.
    destruct (queues (fan w) !! q) as [qu|] eqn:Hq; [|by returned H].
    destruct (get qu) as [e|[m qu']]; returned H; [done|].
    apply registry_ok_queues; [done|].
    intros r0 Hr0. rewrite lookup_insert. by case_decide.
Qed.

Lemma serve_registry_ok rs w w' :
  registry_ok (fan w) → serve rs w = inr w' → registry_ok (fan w').
Proof.
  revert w. induction rs as [|r rs IH]; intros w Hw H; cbn [serve] in H.
  - by inversion H; subst.
  - destruct (handle r w) as [e|[resp w1]] eqn:Hr; [done|]. cbn [exc_bind] in H.
    eapply IH; [|done]. by eapply handle_registry_ok.
Qed.

Lemma registry_ok_start : registry_ok (fan start).
Proof.
  intros u. unfold subscribed. cbn. rewrite lookup_empty. cbn.
  split; [apply NoDup_nil_2|]. intros r Hr. by apply elem_of_nil in Hr.
Qed.

(** C8: [push_event] never raises.  Every queue in the list [_subscribers]
    holds for the unit that is not full gets the message appended behind
    what it holds, a full one is left as it is (this one message is
    dropped for it), and what happens to a queue depends on that queue
    alone; queues that are not in the list of the unit, and all queues
    when the unit has no list, are not touched. *)
Theorem push_event_best_effort u et data f :
  (∀ l, subscribers f !! u = Some l → NoDup l) →
  ∃ f',
    push_event u et data f = inr f'
    ∧ (∀ r, queues f !! r = None → queues f' !! r = None)
    ∧ (∀ r q, queues f !! r = Some q →
         (∀ l, subscribers f !! u = Some l → r ∈ l → full q = false →
               queues f' !! r = Some (mkQueue (maxsize q) (items q ++ [(et, data)])))
         ∧ (∀ l, subscribers f !! u = Some l → r ∈ l → full q = true →
                 queues f' !! r = Some q)
         ∧ ((∀ l, subscribers f !! u = Some l → r ∉ l) → queues f' !! r = Some q)).
Proof.
  intros Hnd. rewrite push_event_inr. eexists. split; [done|]. cbn [queues].
  assert (Hsub : ∀ l, subscribers f !! u = Some l → subscribed f u = l).
  { intros l Hl. unfold subscribed. by rewrite Hl. }
  assert (Hnd' : NoDup (subscribed f u)).
  { unfold subscribed. destruct (subscribers f !! u) as [l|] eqn:Hl; [by apply Hnd|].
    apply NoDup_nil_2. }
  assert (Hlook : ∀ r, r ∈ subscribed f u →
            offer_all (et, data) (subscribed f u) (queues f) !! r
            = offer (et, data) <$> queues f !! r)
    by (intros r; by apply offer_all_elem).
  split.
  - intros r Hr. destruct (decide (r ∈ subscribed f u)) as [Hin|Hout].
    + by rewrite Hlook, Hr.
    + by rewrite offer_all_not_elem.
  - intros r q Hq. split_and!.
    + intros l Hl Hin Hroom. rewrite <- (Hsub l Hl) in Hin.
      rewrite Hlook, Hq by done. cbn. unfold offer. by rewrite Hroom.
    + intros l Hl Hin Hfull. rewrite <- (Hsub l Hl) in Hin.
      rewrite Hlook, Hq by done. cbn. unfold offer. by rewrite Hfull.
    + intros Hout. rewrite offer_all_not_elem; [done|].
      unfold subscribed. destruct (subscribers f !! u) as [l|] eqn:Hl.
      * by apply Hout.
      * apply not_elem_of_nil.
Qed.

Lemma push_event_best_effort_witness :
  ∃ f',
    push_event "Unit-01" "mission_assigned" assignment busy_fanout = inr f'
    ∧ (∀ r, queues busy_fanout !! r = None → queues f' !! r = None)
    ∧ (∀ r q, queues busy_fanout !! r = Some q →
         (∀ l, subscribers busy_fanout !! "Unit-01" = Some l → r ∈ l → full q = false →
               queues f' !! r
               = Some (mkQueue (maxsize q) (items q ++ [("mission_assigned", assignment)])))
         ∧ (∀ l, subscribers busy_fanout !! "Unit-01" = Some l → r ∈ l → full q = true →
                 queues f' !! r = Some q)
         ∧ ((∀ l, subscribers busy_fanout !! "Unit-01" = Some l → r ∉ l) →
            queues f' !! r = Some q)).
Proof.
  apply (push_event_best_effort "Unit-01" "mission_assigned" assignment busy_fanout).
  intros l Hl. vm_compute in Hl. injection Hl as <-.
  apply NoDup_cons. split; [|apply NoDup_singleton].
  intros H. by apply list_elem_of_singleton in H.
Defined.

(** On [busy_fanout] the message for Unit-01 is dropped for the full queue
    0, queued for queue 1, and queue 2 of Unit-02 does not see it. *)
Lemma push_event_busy_fanout :
  ∃ f',
    push_event "Unit-01" "mission_assigned" assignment busy_fanout = inr f'
    ∧ subscribers f' = subscribers busy_fanout
    ∧ queues f' !! 0%nat = Some (mkQueue 30 (replicate 30 pending))
    ∧ queues f' !! 1%nat = Some (mkQueue 30 [("mission_assigned", assignment)])
    ∧ queues f' !! 2%nat = Some (mkQueue 30 []).
Proof.
  eexists. split; [apply push_event_inr|]. cbn [subscribers queues].
  split; [done|]. split_and!; vm_compute; reflexivity.
Qed.

(** Two messages published in a row sit in the queue in that order, and
    [get] hands out the older one first. *)
Lemma push_event_in_order u r q et1 data1 et2 data2 f f1 f2 :
  subscribed f u = [r] →
  queues f !! r = Some q →
  (maxsize q = 0 ∨ qsize q + 2 <= maxsize q)%nat →
  push_event u et1 data1 f = inr f1 →
  push_event u et2 data2 f1 = inr f2 →
  queues f2 !! r = Some (mkQueue (maxsize q) (items q ++ [(et1, data1); (et2, data2)])).
Proof.
  intros Hsub Hq Hroom H1 H2.
  rewrite push_event_inr in H1. injection H1 as <-.
  rewrite push_event_inr in H2. injection H2 as <-.
  cbn [queues]. unfold subscribed. cbn [subscribers]. fold (subscribed f u).
  rewrite Hsub. unfold offer_all. cbn [foldl].
  rewrite !lookup_alter, !decide_True, Hq by done.
  cbn [fmap option_fmap option_map]. f_equal.
  assert (Hroom1 : full q = false).
  { unfold full. apply andb_false_iff. destruct Hroom as [->|Hroom]; [by left|right].
    apply Nat.leb_gt. unfold qsize in *. lia. }
  assert (Hroom2 : full (mkQueue (maxsize q) (items q ++ [(et1, data1)])) = false).
  { unfold full, qsize. cbn [maxsize items]. apply andb_false_iff.
    destruct Hroom as [->|Hroom]; [by left|right].
    apply Nat.leb_gt. rewrite length_app. unfold qsize in *. cbn. lia. }
  assert (Hoffer : ∀ msg q0, full q0 = false →
            offer msg q0 = mkQueue (maxsize q0) (items q0 ++ [msg]))
    by (intros msg q0 Hq0; unfold offer; by rewrite Hq0).
  rewrite (Hoffer _ q Hroom1), (Hoffer _ _ Hroom2).
  cbn [maxsize items]. by rewrite <- app_assoc.
Qed.

(** C10: publishing leaves [_subscribers] as it is.  [push_event] and
    [push_all] return with the registry they were given; of the routes,
    only [/events] changes it, appending one new queue to the list of the
    caller's unit; and [cleanup] takes the first occurrence of its queue
    out of the list of its unit and changes nothing else. *)
Theorem publishing_keeps_subscribers :
  (∀ u et data f,
     ∃ f', push_event u et data f = inr f' ∧ subscribers f' = subscribers f)
  ∧ (∀ et data f,
       ∃ f', push_all et data f = inr f' ∧ subscribers f' = subscribers f)
  ∧ (∀ r w resp w',
       handle r w = inr (resp, w') →
       subscribers (fan w') = subscribers (fan w)
       ∨ ∃ s driver q,
           r = GET_events s ∧ get_current_driver s (db w) = Some driver
           ∧ resp = ok_stream q ∧ queues (fan w) !! q = None
           ∧ subscribers (fan w') =
             <[unit_id driver := subscribed (fan w) (unit_id driver) ++ [q]]>
               (subscribers (fan w)))
  ∧ (∀ u q f,
       queues (cleanup u q f) = queues f
       ∧ (((q ∉ subscribed f u) ∧ subscribers (cleanup u q f) = subscribers f)
          ∨ ∃ l1 l2, subscribed f u = l1 ++ (q :: l2) ∧ (q ∉ l1)
                     ∧ subscribers (cleanup u q f) = <[u := l1 ++ l2]> (subscribers f))).
Proof.
  split_and!.
  - intros u et data f. rewrite push_event_inr. by eexists.
  - intros et data f. rewrite push_all_inr. by eexists.
  - apply handle_subscribers.
  - apply cleanup_subscribers.
Qed.

End Publishing.

(** * Further properties *)

(** ** The history of crashes *)

Section History.
Implicit Types (w : World) (d : DB) (c : Crash).

Lemma history_kept_refl d : history_kept d d.
Proof. intros i c Hc. by exists c. Qed.

Lemma history_kept_trans d1 d2 d3 :
  history_kept d1 d2 → history_kept d2 d3 → history_kept d1 d3.
Proof.
  intros H12 H23 i c Hc. destruct (H12 i c Hc) as (c2 & Hc2 & Ht & Hla & Hlo).
  destruct (H23 i c2 Hc2) as (c3 & Hc3 & Ht' & Hla' & Hlo').
  exists c3. split; [done|]. unfold same_incident. by rewrite Ht', Hla', Hlo'.
Qed.

Lemma history_kept_roster d d' : crashes d' = crashes d → history_kept d d'.
Proof. intros Heq i c Hc. exists c. by rewrite Heq. Qed.

Lemma history_kept_update g j d :
  (∀ c, same_incident c (g c)) → history_kept d (update_crash g j d).
Proof.
  intros Hg i c Hc. cbn. rewrite lookup_alter. case_decide; [subst j|by exists c].
  rewrite Hc. cbn. by exists (g c).
Qed.

Lemma history_kept_insert d ts lat lon st :
  ids_bounded d → history_kept d (snd (insert_crash ts lat lon st d)).
Proof.
  intros Hb i c Hc. exists c. split; [|done]. cbn.
  rewrite lookup_insert_ne; [done|].
  assert (i <= crash_seq d)%Z by (apply Hb; by eexists). lia.
Qed.

Lemma ids_bounded_update g j d : ids_bounded d → ids_bounded (update_crash g j d).
Proof.
  intros Hb i. cbn. rewrite lookup_alter. case_decide; [subst j|apply Hb].
  rewrite fmap_is_Some. apply Hb.
Qed.

Lemma ids_bounded_insert d ts lat lon st :
  ids_bounded d → ids_bounded (snd (insert_crash ts lat lon st d)).
Proof.
  intros Hb i. cbn. rewrite lookup_insert. case_decide; [lia|].
  intros Hi. apply Hb in Hi. lia.
Qed.

Lemma ids_bounded_roster d d' :
  crashes d' = crashes d → crash_seq d' = crash_seq d → ids_bounded d → ids_bounded d'.
Proof. intros Hc Hs Hb i. rewrite Hc, Hs. apply Hb. Qed.

(** The database [dispatch] leaves: the one it was given with the row of
    the crash rewritten. *)
Lemma dispatch_db cid lat lon ex w r w' :
  dispatch cid lat lon ex w = inr (r, w') →
  ∃ g, db w' = update_crash g cid (db w) ∧ ∀ c, same_incident c (g c).
Proof.
  intros H. destruct (candidates (db w) ex) as [|u us] eqn:Hc.
  - rewrite (dispatch_none _ _ _ _ _ Hc) in H. returned H. by eexists.
  - rewrite (dispatch_some _ _ _ _ _ _ _ Hc) in H. returned H. by eexists.
Qed.

Lemma handle_history r w resp w' :
  ids_bounded (db w) → handle r w = inr (resp, w') →
  history_kept (db w) (db w') ∧ ids_bounded (db w').
Proof.
  intros Hb H. destruct r as [s|s b|s|s c|s c|s c|ts lat lon snap|q].
  - route H; returned H; split; try done; by apply history_kept_refl || apply history_kept_roster.
  - route H; returned H; split; try done; by apply history_kept_refl || apply history_kept_roster.
  - route H; returned H; split; try done; apply history_kept_refl.
  - route H; returned H; [|split; [apply history_kept_refl|done]].
    destruct c as [i|].
    + split.
      * eapply history_kept_trans; [by apply (history_kept_update (set_status en_route) i)|].
        by apply history_kept_roster.
      * eapply ids_bounded_roster; [| |by apply (ids_bounded_update (set_status en_route) i)];
          done.
    + split; [by apply history_kept_roster|by eapply ids_bounded_roster].
  - route H; [|returned H; split; [apply history_kept_refl|done]].
    destruct c as [i|]; [|returned H; split; [apply history_kept_refl|done]].
    destruct (crashes (db w) !! i) as [row|] eqn:Hrow.
    + dispatched H r w2 Hd. returned H.
      apply dispatch_db in Hd as (g & -> & Hg). cbn [db]. split.
      * eapply history_kept_trans; [by apply (history_kept_update (set_assignment new None) i)|].
        by apply history_kept_update.
      * by do 2 apply ids_bounded_update.
    + returned H. split; [by apply history_kept_update|by apply ids_bounded_update].
  - route H; returned H; [|split; [apply history_kept_refl|done]].
    destruct c as [i|].
    + split.
      * eapply history_kept_trans; [by apply (history_kept_update (set_status resolved) i)|].
        by apply history_kept_roster.
      * eapply ids_bounded_roster; [| |by apply (ids_bounded_update (set_status resolved) i)];
          done.
    + split; [by apply history_kept_roster|by eapply ids_bounded_roster].
  - route H. dispatched H r w2 Hd. returned H.
    apply dispatch_db in Hd as (g & -> & Hg). cbn [db].
    pose proof (history_kept_insert (db w) ts lat lon new Hb) as Hins.
    pose proof (ids_bounded_insert (db w) ts lat lon new Hb) as Hbi.
    cbn [snd insert_crash] in Hins, Hbi.
    destruct snap as [p|]; cbn [capture_snapshot].
    + split.
      * eapply history_kept_trans; [exact Hins|].
        eapply history_kept_trans; [by apply (history_kept_update (set_snapshot_path p))|].
        by apply history_kept_update.
      * by do 2 apply ids_bounded_update.
    + split.
      * eapply history_kept_trans; [exact Hins|]. by apply history_kept_update.
      * by apply ids_bounded_update.
  - cbn [handle] in H. destruct (generate_next q (fan w)). returned H.
    split; [apply history_kept_refl|done].
Qed.

Lemma reachable_ids_bounded w : reachable w → ids_bounded (db w).
Proof.
  induction 1 as [w Hfresh|w r resp w' _ IH Hstep].
  - intros i. rewrite Hfresh, lookup_empty. by intros [? ?].
  - by apply (handle_history r w resp w').
Qed.

(** X1: no route deletes a crash or moves it: a crash that is in the table
    of a reachable world is in the table after any further request, with
    the timestamp and the coordinates it was reported with. *)
Theorem crashes_are_never_lost w r resp w' i c :
  reachable w →
  handle r w = inr (resp, w') →
  crashes (db w) !! i = Some c →
  ∃ c', crashes (db w') !! i = Some c'
        ∧ timestamp c' = timestamp c
        ∧ latitude c' = latitude c
        ∧ longitude c' = longitude c.
Proof.
  intros Hw H Hc.
  destruct (handle_history r w resp w' (reachable_ids_bounded w Hw) H) as [Hk _].
  destruct (Hk i c Hc) as (c' & Hc' & Hs). by exists c'.
Qed.

End History.

Lemma crashes_are_never_lost_witness :
  ∃ c', crashes (db (after start crash_accepted)) !! 1%Z = Some c'
        ∧ timestamp c' = timestamp (crash_1 waiting_for_driver (Some "Unit-01"))
        ∧ latitude c' = latitude (crash_1 waiting_for_driver (Some "Unit-01"))
        ∧ longitude c' = longitude (crash_1 waiting_for_driver (Some "Unit-01")).
Proof.
  apply (crashes_are_never_lost (after start crash_reported)
           (POST_accept (Some 1%Z) (Some 1%Z)) (ok_status en_route)
           (after start crash_accepted) 1%Z).
  - eapply reachable_after; [by apply reachable_fresh|]. vm_compute. reflexivity.
  - vm_compute. reflexivity.
  - vm_compute. reflexivity.
Defined.

(** ** Reporting a crash *)

Section Report.
Implicit Types (w : World) (d : DB) (c : Crash).

(** What [dispatch] returns is read off the candidates and the place
    alone. *)
Lemma dispatch_choice cid lat lon ex w r w' :
  dispatch cid lat lon ex w = inr (r, w') →
  r = match candidates (db w) ex with
      | [] => None
      | u :: us => Some (amb_id (min_from (dist_km lat lon) u us))
      end.
Proof.
  intros H. destruct (candidates (db w) ex) as [|u us] eqn:Hc.
  - rewrite (dispatch_none _ _ _ _ _ Hc) in H. by inversion H.
  - rewrite (dispatch_some _ _ _ _ _ _ _ Hc) in H. by inversion H.
Qed.

Lemma simulate_crash_dispatch ts lat lon snap w resp w' :
  simulate_crash ts lat lon snap w = inr (resp, w') →
  ∃ r, resp = ok_crash (crash_seq (db w) + 1) r
       ∧ dispatch (crash_seq (db w) + 1) lat lon None
           {| db := capture_snapshot (crash_seq (db w) + 1) snap
                      (snd (insert_crash ts lat lon new (db w)));
              fan := fan w |} = inr (r, w').
Proof.
  intros H. route H. dispatched H r w2 Hd. returned H. by exists r.
Qed.

Lemma capture_snapshot_roster i snap d :
  ambulances (capture_snapshot i snap d) = ambulances d
  ∧ drivers (capture_snapshot i snap d) = drivers d.
Proof. by destruct snap. Qed.

Lemma simulate_crash_roster ts lat lon snap w resp w' :
  simulate_crash ts lat lon snap w = inr (resp, w') →
  ambulances (db w') = ambulances (db w) ∧ drivers (db w') = drivers (db w).
Proof.
  intros H. apply simulate_crash_dispatch in H as (r & _ & Hd).
  match type of Hd with dispatch ?a ?b ?c ?e ?v = _ =>
    destruct (dispatch_returns a b c e v) as (r0 & w0 & Hd0 & _ & Ha & Hdr) end.
  rewrite Hd in Hd0. injection Hd0 as <- <-. rewrite Ha, Hdr. cbn [db].
  by destruct snap.
Qed.

Lemma update_crash_lookup_ne g i j d :
  j ≠ i → crashes (update_crash g i d) !! j = crashes d !! j.
Proof. intros Hj. cbn. by rewrite lookup_alter, decide_False. Qed.

(** The row a report adds, given that no id is above the counter. *)
Lemma simulate_crash_effect ts lat lon snap w resp w' :
  ids_bounded (db w) →
  simulate_crash ts lat lon snap w = inr (resp, w') →
  ∃ i assigned c,
    resp = ok_crash i assigned
    ∧ crashes (db w) !! i = None
    ∧ crashes (db w') !! i = Some c
    ∧ timestamp c = ts ∧ latitude c = lat ∧ longitude c = lon
    ∧ snapshot_path c = snap
    ∧ assigned_ambulance_id c = assigned
    ∧ status c = match assigned with
                 | Some _ => waiting_for_driver
                 | None => no_unit_available
                 end
    ∧ ∀ j, j ≠ i → crashes (db w') !! j = crashes (db w) !! j.
Proof.
  intros Hw H.
  apply simulate_crash_dispatch in H as (r & -> & Hd).
  set (i := (crash_seq (db w) + 1)%Z) in *.
  assert (Hfresh : crashes (db w) !! i = None).
  { destruct (crashes (db w) !! i) eqn:Hi; [|done].
    assert (i <= crash_seq (db w))%Z by (apply Hw; by eexists). lia. }
  set (w1 := {| db := capture_snapshot i snap _; fan := fan w |}) in Hd.
  assert (Hrow : crashes (db w1) !! i = Some (mkCrash ts lat lon snap new None)).
  { subst w1. cbn [db insert_crash snd]. fold i. destruct snap as [p|]; cbn.
    - rewrite lookup_alter, decide_True by done. by rewrite lookup_insert_eq.
    - by rewrite lookup_insert_eq. }
  assert (Hother : ∀ j, j ≠ i → crashes (db w1) !! j = crashes (db w) !! j).
  { intros j Hj. subst w1. cbn [db insert_crash snd]. fold i. destruct snap as [p|]; cbn.
    - rewrite lookup_alter, decide_False by done. by rewrite lookup_insert_ne.
    - by rewrite lookup_insert_ne. }
  destruct (candidates (db w1) None) as [|u us] eqn:Hc.
  - rewrite (dispatch_none _ _ _ _ _ Hc) in Hd. injection Hd as <- <-.
    exists i, None, (set_status no_unit_available (mkCrash ts lat lon snap new None)).
    split_and!; try done.
    + exact (update_crash_lookup _ i (db w1) _ Hrow).
    + intros j Hj. rewrite <- (Hother j Hj). by apply update_crash_lookup_ne.
  - rewrite (dispatch_some _ _ _ _ _ _ _ Hc) in Hd. cbn zeta in Hd.
    injection Hd as <- <-.
    eexists i, (Some _), (set_assignment waiting_for_driver _ (mkCrash ts lat lon snap new None)).
    split_and!; try done.
    + exact (update_crash_lookup _ i (db w1) _ Hrow).
    + intros j Hj. rewrite <- (Hother j Hj). by apply update_crash_lookup_ne.
Qed.



(** X3: a report reserves nothing.  It leaves the roster as it is, so a
    second report from the same place, with no request in between, is
    answered with the same unit while the first crash still waits for
    it. *)
Theorem report_reserves_no_unit ts1 ts2 lat lon snap1 snap2 w i1 a1 w1 i2 a2 w2 :
  simulate_crash ts1 lat lon snap1 w = inr (ok_crash i1 a1, w1) →
  simulate_crash ts2 lat lon snap2 w1 = inr (ok_crash i2 a2, w2) →
  ambulances (db w1) = ambulances (db w)
  ∧ drivers (db w1) = drivers (db w)
  ∧ a2 = a1.
Proof.
  intros H1 H2. destruct (simulate_crash_roster _ _ _ _ _ _ _ H1) as [Ha Hd].
  split_and!; [done..|].
  apply simulate_crash_dispatch in H1 as (r1 & [= _ <-] & Hd1).
  apply simulate_crash_dispatch in H2 as (r2 & [= _ <-] & Hd2).
  apply dispatch_choice in Hd1, Hd2. rewrite Hd1, Hd2.
  assert (Hc : ∀ i snap ts d,
            candidates (capture_snapshot i snap (snd (insert_crash ts lat lon new d))) None
            = available_units d) by (intros ? [?|] ? ?; done).
  cbn [db]. rewrite !Hc. unfold available_units. by rewrite Ha, Hd.
Qed.

Lemma report_reserves_no_unit_witness :
  ambulances (db (after start crash_reported)) = ambulances (db (after start duty_on))
  ∧ drivers (db (after start crash_reported)) = drivers (db (after start duty_on))
  ∧ Some "Unit-01" = Some "Unit-01".
Proof.
  apply (report_reserves_no_unit "2024-01-01T00:00:00" "2024-01-01T00:05:00"
           10.5276 76.2144 None None (after start duty_on) 1 (Some "Unit-01")
           (after start crash_reported) 2 (Some "Unit-01")
           (after (after start crash_reported)
              [POST_simulate_crash "2024-01-01T00:05:00" 10.5276 76.2144 None])).
  - vm_compute. reflexivity.
  - vm_compute. reflexivity.
Defined.

End Report.

(** ** Duty and availability *)

Section Duty.
Implicit Types (w : World) (d : DB) (c : Crash) (a : Ambulance).

Lemma update_is_available_keeps b unit d k a :
  ambulances d !! k = Some a → amb_id a ≠ unit →
  ambulances (update_is_available b unit d) !! k = Some a.
Proof.
  intros Ha Hne. cbn. rewrite list_lookup_fmap, Ha. cbn.
  by destruct (String.eqb_spec (amb_id a) unit).
Qed.

(** X4: [accept_mission] and [arrived] write one crash row and one unit.
    Every other crash, every driver, and every unit other than the
    caller's is as before. *)
Theorem accept_and_arrived_touch_nothing_else s driver i w resp w' :
  get_current_driver s (db w) = Some driver →
  accept_mission s (Some i) w = inr (resp, w')
  ∨ arrived s (Some i) w = inr (resp, w') →
  (∀ j, j ≠ i → crashes (db w') !! j = crashes (db w) !! j)
  ∧ crash_seq (db w') = crash_seq (db w)
  ∧ drivers (db w') = drivers (db w)
  ∧ ∀ k a, ambulances (db w) !! k = Some a → amb_id a ≠ unit_id driver →
           ambulances (db w') !! k = Some a.
Proof.
  intros Hdrv [H|H].
  - rewrite (accept_mission_logged_in s driver (Some i) w Hdrv) in H.
    injection H as <- <-. cbn [db]. split_and!; [|done..|].
    + intros j Hj. exact (update_crash_lookup_ne _ i j (db w) Hj).
    + intros k a Ha Hne. by apply update_is_available_keeps.
  - rewrite (arrived_logged_in s driver (Some i) w Hdrv) in H.
    injection H as <- <-. cbn [db]. split_and!; [|done..|].
    + intros j Hj. exact (update_crash_lookup_ne _ i j (db w) Hj).
    + intros k a Ha Hne. by apply update_is_available_keeps.
Qed.

Lemma accept_and_arrived_touch_nothing_else_witness :
  (∀ j, j ≠ 1%Z →
        crashes (db (after start crash_accepted)) !! j
        = crashes (db (after start crash_reported)) !! j)
  ∧ crash_seq (db (after start crash_accepted)) = crash_seq (db (after start crash_reported))
  ∧ drivers (db (after start crash_accepted)) = drivers (db (after start crash_reported))
  ∧ ∀ k a, ambulances (db (after start crash_reported)) !! k = Some a →
           amb_id a ≠ unit_id driver_1 →
           ambulances (db (after start crash_accepted)) !! k = Some a.
Proof.
  apply (accept_and_arrived_touch_nothing_else (Some 1%Z) driver_1 1%Z
           (after start crash_reported) (ok_status en_route)
           (after start crash_accepted)).
  - vm_compute. reflexivity.
  - left. vm_compute. reflexivity.
Defined.

Lemma not_available_not_candidate d unit :
  (∀ a, a ∈ ambulances d → amb_id a = unit → is_available a = false) →
  ∀ ex a, a ∈ candidates d ex → amb_id a ≠ unit.
Proof.
  intros Hoff ex a Ha Hid. apply elem_of_candidates in Ha as [Ha _].
  apply elem_of_available_units in Ha as (Hin & Hav & _).
  rewrite (Hoff a Hin Hid) in Hav. discriminate.
Qed.

Lemma dispatch_never_off_unit cid lat lon ex w r w' unit :
  (∀ a, a ∈ ambulances (db w) → amb_id a = unit → is_available a = false) →
  dispatch cid lat lon ex w = inr (r, w') → r ≠ Some unit.
Proof.
  intros Hoff Hd. apply dispatch_result in Hd as [->|(u & Hu & ->)]; [done|].
  intros [= Hid]. by apply (not_available_not_candidate _ _ Hoff ex u).
Qed.

(** X5: after [logout] the driver's unit is out of service: it is no
    candidate, and no dispatch from the world [logout] leaves, for any
    crash and any exclusion, names it.  Without a session [logout]
    answers ok all the same and changes nothing. *)
Theorem logout_takes_the_unit_out s w :
  (get_current_driver s (db w) = None → logout s w = inr (ok_plain, w))
  ∧ (∀ driver, get_current_driver s (db w) = Some driver →
       ∃ w', logout s w = inr (ok_plain, w')
             ∧ crashes (db w') = crashes (db w)
             ∧ fan w' = fan w
             ∧ (∀ ex a, a ∈ candidates (db w') ex → amb_id a ≠ unit_id driver)
             ∧ ∀ cid lat lon ex r w'',
                 dispatch cid lat lon ex w' = inr (r, w'') → r ≠ Some (unit_id driver)).
Proof.
  split.
  - intros Hdrv. unfold logout. by rewrite Hdrv.
  - intros driver Hdrv. unfold logout. rewrite Hdrv. eexists. split; [done|].
    cbn [db fan].
    assert (Hoff : ∀ a,
              a ∈ ambulances (update_is_available false (unit_id driver)
                                (update_is_on_duty false (driver_id driver) (db w))) →
              amb_id a = unit_id driver → is_available a = false)
      by apply update_is_available_flag.
    split_and!; [done..| |].
    + by apply not_available_not_candidate.
    + intros cid lat lon ex r w'' Hd. by eapply dispatch_never_off_unit in Hd.
Qed.

Lemma get_current_driver_id s d driver :
  get_current_driver s d = Some driver → s = Some (driver_id driver) ∧ driver_id driver ≠ 0%Z.
Proof.
  unfold get_current_driver. destruct s as [i|]; [|done].
  destruct (Z.eqb_spec i 0) as [|Hne]; [done|]. intros H.
  apply find_some in H as [_ H]. apply Z.eqb_eq in H. by subst i.
Qed.

(** X6: [/api/availability] with [on_duty] true puts the driver's unit in
    service: the driver is on duty afterwards, and each row of the unit is
    available and a candidate of the next dispatch.  With [on_duty] false
    the unit is no candidate, as after [logout]. *)
Theorem availability_switches_the_unit s driver w :
  get_current_driver s (db w) = Some driver →
  (∃ w',
     set_availability s true w = inr (ok_on_duty true, w')
     ∧ crashes (db w') = crashes (db w)
     ∧ get_current_driver s (db w') = Some (set_on_duty true driver)
     ∧ ∀ a, a ∈ ambulances (db w) → amb_id a = unit_id driver →
            set_available true a ∈ candidates (db w') None)
  ∧ (∃ w',
       set_availability s false w = inr (ok_on_duty false, w')
       ∧ crashes (db w') = crashes (db w)
       ∧ get_current_driver s (db w') = Some (set_on_duty false driver)
       ∧ ∀ ex a, a ∈ candidates (db w') ex → amb_id a ≠ unit_id driver).
Proof.
  intros Hdrv.
  assert (Hme : ∀ b,
            get_current_driver s
              (update_is_available b (unit_id driver)
                 (update_is_on_duty b (driver_id driver) (db w)))
            = Some (set_on_duty b driver)).
  { intros b. destruct (get_current_driver_id _ _ _ Hdrv) as [-> Hid].
    unfold get_current_driver in *. destruct (Z.eqb (driver_id driver) 0); [done|].
    cbn [drivers update_is_available update_is_on_duty].
    induction (drivers (db w)) as [|dr l IH]; [done|]. cbn in Hdrv |- *.
    destruct (Z.eqb_spec (driver_id dr) (driver_id driver)) as [Heq|Hne].
    - injection Hdrv as <-. cbn. by rewrite Z.eqb_refl.
    - cbn. destruct (Z.eqb_spec (driver_id dr) (driver_id driver)); [done|]. by apply IH. }
  split.
  - unfold set_availability. rewrite Hdrv, push_all_inr. cbn [exc_bind].
    eexists. split; [done|]. cbn [db]. split_and!; [done|apply Hme|].
    intros a Ha Hid. unfold candidates. apply elem_of_available_units. split_and!.
    + cbn. apply list_elem_of_fmap. exists a. split; [|done].
      by rewrite Hid, String.eqb_refl.
    + done.
    + exists (set_on_duty true driver). split_and!; [|exact (eq_sym Hid)|done].
      apply get_current_driver_elem with (s := s). apply (Hme true).
  - unfold set_availability. rewrite Hdrv, push_all_inr. cbn [exc_bind].
    eexists. split; [done|]. cbn [db]. split_and!; [done|apply Hme|].
    apply not_available_not_candidate. apply update_is_available_flag.
Qed.

End Duty.

Lemma availability_switches_the_unit_witness :
  (∃ w',
     set_availability (Some 2%Z) true start = inr (ok_on_duty true, w')
     ∧ crashes (db w') = crashes (db start)
     ∧ get_current_driver (Some 2%Z) (db w') = Some (set_on_duty true driver_2)
     ∧ ∀ a, a ∈ ambulances (db start) → amb_id a = unit_id driver_2 →
            set_available true a ∈ candidates (db w') None)
  ∧ (∃ w',
       set_availability (Some 2%Z) false start = inr (ok_on_duty false, w')
       ∧ crashes (db w') = crashes (db start)
       ∧ get_current_driver (Some 2%Z) (db w') = Some (set_on_duty false driver_2)
       ∧ ∀ ex a, a ∈ candidates (db w') ex → amb_id a ≠ unit_id driver_2).
Proof.
  apply (availability_switches_the_unit (Some 2%Z) driver_2 start).
  vm_compute. reflexivity.
Defined.

(** ** Streams *)

Section Streams.
Implicit Types (f : Fanout) (w : World).

Lemma elem_of_all_subscribed f r :
  r ∈ all_subscribed f ↔ ∃ u, r ∈ subscribed f u.
Proof.
  unfold all_subscribed, subscribed. rewrite list_elem_of_In, in_concat. split.
  - intros (l & Hl & Hr). apply in_map_iff in Hl as ([u l'] & <- & Hul).
    apply list_elem_of_In, elem_of_map_to_list in Hul. exists u.
    rewrite Hul. cbn. by apply list_elem_of_In.
  - intros (u & Hr). destruct (subscribers f !! u) as [l|] eqn:Hu; cbn in Hr.
    + exists l. split; [|by apply list_elem_of_In].
      apply in_map_iff. exists (u, l). split; [done|].
      by apply list_elem_of_In, elem_of_map_to_list.
    + by apply elem_of_nil in Hr.
Qed.

Lemma NoDup_concat_snd (l : list (string * list nat)) :
  NoDup (map fst l) →
  (∀ k v, (k, v) ∈ l → NoDup v) →
  (∀ k1 v1 k2 v2 x, (k1, v1) ∈ l → (k2, v2) ∈ l → x ∈ v1 → x ∈ v2 → k1 = k2) →
  NoDup (concat (map snd l)).
Proof.
  induction l as [|[k v] l IH]; intros Hk Hv Hx; cbn; [apply NoDup_nil_2|].
  cbn in Hk. apply NoDup_cons in Hk as [Hk Hks].
  apply NoDup_app. split_and!.
  - apply (Hv k). apply list_elem_of_here.
  - intros x Hxv Hxl. apply list_elem_of_In, in_concat in Hxl as (v2 & Hv2 & Hx2).
    apply in_map_iff in Hv2 as ([k2 v2'] & Heq & Hin). cbn in Heq. subst v2'.
    apply list_elem_of_In in Hin. apply list_elem_of_In in Hx2.
    assert (k = k2).
    { eapply (Hx k v k2 v2 x); [apply list_elem_of_here|by apply list_elem_of_further|done..]. }
    subst k2. apply Hk. apply list_elem_of_fmap. by exists (k, v2).
  - apply IH; [done| |].
    + intros k' v' Hin. apply (Hv k'). by apply list_elem_of_further.
    + intros k1 v1 k2 v2 x H1 H2. apply Hx; by apply list_elem_of_further.
Qed.

Lemma NoDup_all_subscribed f : registry_ok f → exclusive f → NoDup (all_subscribed f).
Proof.
  intros Hok Hex. unfold all_subscribed. apply NoDup_concat_snd.
  - apply NoDup_fst_map_to_list.
  - intros k v Hkv. apply elem_of_map_to_list in Hkv.
    destruct (Hok k) as [Hnd _]. unfold subscribed in Hnd. by rewrite Hkv in Hnd.
  - intros k1 v1 k2 v2 x H1 H2 Hx1 Hx2.
    apply elem_of_map_to_list in H1, H2. apply (Hex k1 k2 x); unfold subscribed.
    + by rewrite H1.
    + by rewrite H2.
Qed.

(** X7: [push_all] never raises and reaches every stream once.  Where each
    queue is subscribed once and to one unit, a subscribed queue with room
    gets the message behind what it holds, a full one is left as it is,
    and a queue no unit lists is not touched. *)
Theorem push_all_reaches_every_stream et data f :
  registry_ok f →
  exclusive f →
  ∃ f',
    push_all et data f = inr f'
    ∧ (∀ r, queues f !! r = None → queues f' !! r = None)
    ∧ (∀ r q, queues f !! r = Some q →
         ((∃ u, r ∈ subscribed f u) → full q = false →
          queues f' !! r = Some (mkQueue (maxsize q) (items q ++ [(et, data)])))
         ∧ ((∃ u, r ∈ subscribed f u) → full q = true → queues f' !! r = Some q)
         ∧ ((∀ u, r ∉ subscribed f u) → queues f' !! r = Some q)).
Proof.
  intros Hok Hex. rewrite push_all_inr. eexists. split; [done|]. cbn [queues].
  pose proof (NoDup_all_subscribed f Hok Hex) as Hnd.
  assert (Hlook : ∀ r, (∃ u, r ∈ subscribed f u) →
            offer_all (et, data) (all_subscribed f) (queues f) !! r
            = offer (et, data) <$> queues f !! r).
  { intros r Hr. apply offer_all_elem; [done|]. by apply elem_of_all_subscribed. }
  assert (Hout : ∀ r, (∀ u, r ∉ subscribed f u) →
            offer_all (et, data) (all_subscribed f) (queues f) !! r = queues f !! r).
  { intros r Hr. apply offer_all_not_elem. rewrite elem_of_all_subscribed.
    intros (u & Hu). by apply (Hr u). }
  split.
  - intros r Hr. destruct (decide (r ∈ all_subscribed f)) as [Hin|Hnin].
    + rewrite Hlook, Hr; [done|]. by apply elem_of_all_subscribed.
    + by rewrite offer_all_not_elem.
  - intros r q Hq. split_and!.
    + intros Hin Hroom. rewrite Hlook, Hq by done. cbn. unfold offer. by rewrite Hroom.
    + intros Hin Hfull. rewrite Hlook, Hq by done. cbn. unfold offer. by rewrite Hfull.
    + intros Hnin. by rewrite Hout.
Qed.

End Streams.

Section StreamInvariants.
Implicit Types (f : Fanout) (w : World).

Lemma busy_fanout_ok : registry_ok busy_fanout ∧ exclusive busy_fanout.
Proof.
  assert (Hsub : ∀ u, subscribed busy_fanout u =
            if decide (u = "Unit-01") then [0; 1]%nat
            else if decide (u = "Unit-02") then [2%nat] else []).
  { intros u. unfold subscribed, busy_fanout. cbn [subscribers].
    rewrite lookup_insert. case_decide as H1; [subst; by rewrite decide_True|].
    rewrite decide_False by done. rewrite lookup_insert.
    case_decide as H2; [subst; by rewrite decide_True|].
    rewrite decide_False by done. by rewrite lookup_empty. }
  split.
  - intros u. rewrite Hsub. repeat case_decide.
    + split.
      { apply NoDup_cons. split; [|apply NoDup_singleton].
        intros Hin. by apply list_elem_of_singleton in Hin. }
      intros r Hr. repeat (apply elem_of_cons in Hr as [->|Hr]; [by eexists|]).
      by apply elem_of_nil in Hr.
    + split; [apply NoDup_singleton|].
      intros r Hr. repeat (apply elem_of_cons in Hr as [->|Hr]; [by eexists|]).
      by apply elem_of_nil in Hr.
    + split; [constructor|]. intros r Hr. by apply elem_of_nil in Hr.
  - intros u1 u2 r. rewrite !Hsub.
    repeat case_decide; subst; try done; intros Hr1 Hr2;
      repeat (apply elem_of_cons in Hr1 as [->|Hr1]);
      repeat (apply elem_of_cons in Hr2 as [?|Hr2]);
      try done; by apply elem_of_nil in Hr1 || by apply elem_of_nil in Hr2.
Qed.

Lemma offer_all_preserves (P : Queue → Prop) msg l (qs : gmap nat Queue) :
  (∀ q, P q → P (offer msg q)) →
  (∀ r q, qs !! r = Some q → P q) →
  ∀ r q, offer_all msg l qs !! r = Some q → P q.
Proof.
  intros Hoffer. revert qs. induction l as [|x l IH]; intros qs Hqs r q; [apply Hqs|].
  unfold offer_all in *. cbn [foldl]. apply IH. intros r0 q0.
  rewrite lookup_alter. case_decide; [subst x|apply Hqs].
  destruct (qs !! r0) as [q1|] eqn:Hq1; [|done]. cbn. intros [= <-].
  by apply Hoffer, (Hqs r0).
Qed.

Lemma offer_bounded msg q :
  maxsize q = 30%nat ∧ (qsize q <= 30)%nat →
  maxsize (offer msg q) = 30%nat ∧ (qsize (offer msg q) <= 30)%nat.
Proof.
  intros [Hm Hs]. unfold offer. destruct (full q) eqn:Hf; [done|].
  unfold full, qsize in *. cbn [maxsize items]. split; [done|].
  rewrite length_app. cbn [length].
  apply andb_false_iff in Hf as [Hf|Hf].
  - apply Nat.ltb_ge in Hf. lia.
  - apply Nat.leb_gt in Hf. lia.
Qed.

Lemma queues_bounded_publish f msg l :
  queues_bounded f →
  queues_bounded {| subscribers := subscribers f; queues := offer_all msg l (queues f) |}.
Proof.
  intros Hf r q. cbn [queues].
  apply (offer_all_preserves (fun q => maxsize q = 30%nat ∧ (qsize q <= 30)%nat)).
  - apply offer_bounded.
  - apply Hf.
Qed.

Lemma dispatch_fan cid lat lon ex w r w' :
  dispatch cid lat lon ex w = inr (r, w') →
  fan w' = fan w
  ∨ ∃ msg l, fan w' = {| subscribers := subscribers (fan w);
                         queues := offer_all msg l (queues (fan w)) |}.
Proof.
  intros H. destruct (candidates (db w) ex) as [|u us] eqn:Hc.
  - rewrite (dispatch_none _ _ _ _ _ Hc) in H. returned H. by left.
  - rewrite (dispatch_some _ _ _ _ _ _ _ Hc) in H. returned H. right. by eexists _, _.
Qed.

Lemma handle_queues_bounded r w resp w' :
  queues_bounded (fan w) → handle r w = inr (resp, w') → queues_bounded (fan w').
Proof.
  intros Hw H. destruct r as [s|s b|s|s c|s c|s c|ts lat lon snap|q].
  - route H; by returned H.
  - route H; returned H; [by apply queues_bounded_publish|done].
  - route H; returned H; [|done].
    intros r q. cbn [queues]. rewrite lookup_insert. case_decide; [|apply Hw].
    intros [= <-]. unfold qsize. cbn. split; [done|lia].
  - route H; returned H; [by apply queues_bounded_publish|done].
  - route H; [|by returned H].
    destruct c as [i|]; [|by returned H].
    destruct (crashes (db w) !! i) as [row|]; [|by returned H].
    dispatched H r w2 Hd. returned H.
    apply dispatch_fan in Hd as [->|(msg & l & ->)]; [done|by apply queues_bounded_publish].
  - route H; returned H; [by apply queues_bounded_publish|done].
  - route H. dispatched H r w2 Hd. returned H.
    apply dispatch_fan in Hd as [->|(msg & l & ->)]; [done|by apply queues_bounded_publish].
  - cbn [handle] in H. unfold generate_next in H.
    destruct (queues (fan w) !! q) as [qu|] eqn:Hq; [|by returned H].
    unfold get in H. destruct (items qu) as [|m rest] eqn:Hi; returned H; [done|].
    intros r q0. cbn [queues]. rewrite lookup_insert. case_decide; [|apply Hw].
    intros [= <-]. destruct (Hw q qu Hq) as [Hm Hs]. unfold qsize in *. cbn.
    rewrite Hi in Hs. cbn in Hs. split; [done|lia].
Qed.

Lemma handle_exclusive r w resp w' :
  registry_ok (fan w) → exclusive (fan w) →
  handle r w = inr (resp, w') → exclusive (fan w').
Proof.
  intros Hok Hex H.
  destruct (handle_subscribers r w resp w' H) as [Heq|(s & driver & q & -> & Hdrv & -> & Hq & Heq)].
  - intros u1 u2 x. unfold subscribed. rewrite Heq. apply Hex.
  - assert (Hsub : ∀ u, subscribed (fan w') u =
              if decide (u = unit_id driver) then subscribed (fan w) u ++ [q]
              else subscribed (fan w) u).
    { intros u. unfold subscribed at 1. rewrite Heq, lookup_insert.
      case_decide; [subst; by rewrite decide_True|by rewrite decide_False]. }
    assert (Hfresh : ∀ u, q ∉ subscribed (fan w) u).
    { intros u Hin. destruct (Hok u) as [_ Hall]. apply Hall in Hin as [? Hin].
      by rewrite Hq in Hin. }
    intros u1 u2 x. rewrite !Hsub.
    repeat case_decide; subst; try done; rewrite ?elem_of_app, ?list_elem_of_singleton.
    + intros [Hx1| ->] Hx2; [by apply (Hex _ _ x)|by apply Hfresh in Hx2].
    + intros Hx1 [Hx2| ->]; [by apply (Hex _ _ x)|by apply Hfresh in Hx1].
    + apply Hex.
Qed.

(** X8: the routes keep the streams in order.  From a registry in which
    each queue is subscribed once, to one unit, and holds at most its 30
    messages, any sequence of requests leads to such a registry again: a
    stream that is not read fills up to 30 messages and no further. *)
Theorem streams_stay_bounded rs w w' :
  registry_ok (fan w) →
  exclusive (fan w) →
  queues_bounded (fan w) →
  serve rs w = inr w' →
  registry_ok (fan w') ∧ exclusive (fan w') ∧ queues_bounded (fan w').
Proof.
  revert w. induction rs as [|r rs IH]; intros w Hok Hex Hb H; cbn [serve] in H.
  - by inversion H; subst.
  - destruct (handle r w) as [e|[resp w1]] eqn:Hr; [done|]. cbn [exc_bind] in H.
    apply (IH w1); [| | |done].
    + by eapply handle_registry_ok.
    + by eapply handle_exclusive.
    + by eapply handle_queues_bounded.
Qed.

End StreamInvariants.

Lemma push_all_reaches_every_stream_witness :
  ∃ f',
    push_all "status_update" (snd pending) busy_fanout = inr f'
    ∧ (∀ r, queues busy_fanout !! r = None → queues f' !! r = None)
    ∧ (∀ r q, queues busy_fanout !! r = Some q →
         ((∃ u, r ∈ subscribed busy_fanout u) → full q = false →
          queues f' !! r
          = Some (mkQueue (maxsize q) (items q ++ [("status_update", snd pending)])))
         ∧ ((∃ u, r ∈ subscribed busy_fanout u) → full q = true →
            queues f' !! r = Some q)
         ∧ ((∀ u, r ∉ subscribed busy_fanout u) → queues f' !! r = Some q)).
Proof.
  apply (push_all_reaches_every_stream "status_update" (snd pending) busy_fanout).
  - apply busy_fanout_ok.
  - apply busy_fanout_ok.
Defined.

Lemma start_streams_ok :
  registry_ok (fan start) ∧ exclusive (fan start) ∧ queues_bounded (fan start).
Proof.
  split_and!.
  - apply registry_ok_start.
  - intros u1 u2 r. unfold subscribed. cbn. rewrite lookup_empty. cbn.
    intros Hr. by apply elem_of_nil in Hr.
  - intros r q. cbn. by rewrite lookup_empty.
Qed.

Lemma streams_stay_bounded_witness :
  registry_ok (fan (after start stream_then_crash))
  ∧ exclusive (fan (after start stream_then_crash))
  ∧ queues_bounded (fan (after start stream_then_crash)).
Proof.
  apply (streams_stay_bounded stream_then_crash start).
  - apply start_streams_ok.
  - apply start_streams_ok.
  - apply start_streams_ok.
  - vm_compute. reflexivity.
Defined.

Section Subscription.
Implicit Types (f : Fanout) (w : World).

(** What [sse_stream] leaves for a logged-in driver, on a well-formed
    registry: a new, empty queue at the end of the list of the unit. *)
Lemma sse_stream_logged_in s driver w :
  registry_ok (fan w) →
  get_current_driver s (db w) = Some driver →
  ∃ q w1,
    sse_stream s w = inr (ok_stream q, w1)
    ∧ db w1 = db w
    ∧ queues (fan w) !! q = None
    ∧ queues (fan w1) = <[q := mkQueue 30 []]> (queues (fan w))
    ∧ subscribers (fan w1)
      = <[unit_id driver := subscribed (fan w) (unit_id driver) ++ [q]]> (subscribers (fan w))
    ∧ subscribed (fan w1) (unit_id driver) = subscribed (fan w) (unit_id driver) ++ [q]
    ∧ (q ∉ subscribed (fan w) (unit_id driver))
    ∧ NoDup (subscribed (fan w1) (unit_id driver)).
Proof.
  intros Hok Hdrv. unfold sse_stream. rewrite Hdrv.
  set (q := fresh (dom (queues (fan w)))).
  assert (Hq : queues (fan w) !! q = None) by apply not_elem_of_dom, is_fresh.
  assert (Hnew : q ∉ subscribed (fan w) (unit_id driver)).
  { intros Hin. destruct (Hok (unit_id driver)) as [_ Hall].
    apply Hall in Hin as [? Hin]. by rewrite Hq in Hin. }
  eexists q, _. split; [done|]. cbn [db fan queues subscribers].
  split_and!; try done.
  - unfold subscribed at 1. cbn [subscribers]. by rewrite lookup_insert_eq.
  - unfold subscribed at 1. cbn [subscribers]. rewrite lookup_insert_eq. cbn [default].
    fold (subscribed (fan w) (unit_id driver)).
    apply NoDup_app. split_and!; [apply Hok| |apply NoDup_singleton].
    intros r Hr Hr'. apply list_elem_of_singleton in Hr' as ->. by apply Hnew.
Qed.

(** X9: what is published to a unit after a driver of the unit has opened
    a stream comes out of the stream in the order it was published, once
    each; after that the stream yields heartbeats. *)
Theorem stream_reads_in_publish_order s driver w et1 data1 et2 data2 :
  registry_ok (fan w) →
  get_current_driver s (db w) = Some driver →
  ∃ q w1 f2 f3 f4 f5,
    sse_stream s w = inr (ok_stream q, w1)
    ∧ push_event (unit_id driver) et1 data1 (fan w1) = inr f2
    ∧ push_event (unit_id driver) et2 data2 f2 = inr f3
    ∧ generate_next q f3 = (event (et1, data1), f4)
    ∧ generate_next q f4 = (event (et2, data2), f5)
    ∧ generate_next q f5 = (heartbeat, f5).
Proof.
  intros Hok Hdrv.
  destruct (sse_stream_logged_in s driver w Hok Hdrv)
    as (q & w1 & Hsse & _ & _ & Hqs & _ & Hsub & _ & Hnd).
  assert (Hin : q ∈ subscribed (fan w1) (unit_id driver)).
  { rewrite Hsub. apply elem_of_app. right. by apply list_elem_of_singleton. }
  set (f2 := {| subscribers := subscribers (fan w1);
                queues := offer_all (et1, data1) (subscribed (fan w1) (unit_id driver))
                            (queues (fan w1)) |}).
  set (f3 := {| subscribers := subscribers f2;
                queues := offer_all (et2, data2) (subscribed f2 (unit_id driver))
                            (queues f2) |}).
  assert (H2 : queues f2 !! q = Some (mkQueue 30 [(et1, data1)])).
  { subst f2. cbn [queues]. rewrite offer_all_elem by done.
    by rewrite Hqs, lookup_insert_eq. }
  assert (H3 : queues f3 !! q = Some (mkQueue 30 [(et1, data1); (et2, data2)])).
  { subst f3. cbn [queues]. rewrite offer_all_elem by done. by rewrite H2. }
  set (f4 := {| subscribers := subscribers f3;
                queues := <[q := mkQueue 30 [(et2, data2)]]> (queues f3) |}).
  set (f5 := {| subscribers := subscribers f4;
                queues := <[q := mkQueue 30 []]> (queues f4) |}).
  exists q, w1, f2, f3, f4, f5. split_and!.
  - done.
  - apply push_event_inr.
  - apply push_event_inr.
  - unfold generate_next. by rewrite H3.
  - unfold generate_next. subst f4. cbn [queues]. by rewrite lookup_insert_eq.
  - unfold generate_next. subst f5. cbn [queues]. by rewrite lookup_insert_eq.
Qed.

Lemma stream_reads_in_publish_order_witness :
  ∃ q w1 f2 f3 f4 f5,
    sse_stream (Some 1%Z) start = inr (ok_stream q, w1)
    ∧ push_event (unit_id driver_1) "mission_assigned" assignment (fan w1) = inr f2
    ∧ push_event (unit_id driver_1) "status_update" (snd pending) f2 = inr f3
    ∧ generate_next q f3 = (event ("mission_assigned", assignment), f4)
    ∧ generate_next q f4 = (event ("status_update", snd pending), f5)
    ∧ generate_next q f5 = (heartbeat, f5).
Proof.
  apply (stream_reads_in_publish_order (Some 1%Z) (set_on_duty false driver_1) start).
  - apply registry_ok_start.
  - vm_compute. reflexivity.
Defined.

Lemma list_remove_first_last q l :
  q ∉ l → list_remove_first q (l ++ [q]) = inr l.
Proof.
  induction l as [|y l IH]; intros Hq; cbn.
  - by rewrite Nat.eqb_refl.
  - apply not_elem_of_cons in Hq as [Hne Hq].
    destruct (Nat.eqb_spec y q) as [->|_]; [done|]. by rewrite IH.
Qed.

(** X10: [cleanup] undoes [sse_stream].  Run on the queue a driver has just
    subscribed, it leaves every unit with the subscriptions it had before,
    and what is published to the unit from then on does not reach the
    queue. *)
Theorem cleanup_undoes_subscription s driver w :
  registry_ok (fan w) →
  get_current_driver s (db w) = Some driver →
  ∃ q w1,
    sse_stream s w = inr (ok_stream q, w1)
    ∧ q ∈ subscribed (fan w1) (unit_id driver)
    ∧ (∀ u, subscribed (cleanup (unit_id driver) q (fan w1)) u = subscribed (fan w) u)
    ∧ ∀ et data f',
        push_event (unit_id driver) et data (cleanup (unit_id driver) q (fan w1)) = inr f' →
        queues f' !! q = Some (mkQueue 30 []).
Proof.
  intros Hok Hdrv.
  destruct (sse_stream_logged_in s driver w Hok Hdrv)
    as (q & w1 & Hsse & _ & _ & Hqs & Hsubs & Hsub & Hnew & _).
  exists q, w1. split; [done|].
  assert (Hclean : cleanup (unit_id driver) q (fan w1)
                   = {| subscribers := <[unit_id driver := subscribed (fan w) (unit_id driver)]>
                                         (subscribers (fan w1));
                        queues := queues (fan w1) |}).
  { unfold cleanup. rewrite Hsubs, lookup_insert_eq.
    by rewrite (list_remove_first_last q _ Hnew). }
  assert (Hback : ∀ u, subscribed (cleanup (unit_id driver) q (fan w1)) u
                       = subscribed (fan w) u).
  { intros u. rewrite Hclean. unfold subscribed at 1. cbn [subscribers].
    rewrite Hsubs, lookup_insert. case_decide; [by subst|].
    rewrite lookup_insert_ne by done. done. }
  split_and!.
  - rewrite Hsub. apply elem_of_app. right. by apply list_elem_of_singleton.
  - done.
  - intros et data f' Hpush. rewrite push_event_inr in Hpush. injection Hpush as <-.
    cbn [queues]. rewrite offer_all_not_elem by (by rewrite Hback).
    rewrite Hclean. cbn [queues]. by rewrite Hqs, lookup_insert_eq.
Qed.

Lemma cleanup_undoes_subscription_witness :
  ∃ q w1,
    sse_stream (Some 1%Z) start = inr (ok_stream q, w1)
    ∧ q ∈ subscribed (fan w1) (unit_id (set_on_duty false driver_1))
    ∧ (∀ u, subscribed (cleanup (unit_id (set_on_duty false driver_1)) q (fan w1)) u
            = subscribed (fan start) u)
    ∧ ∀ et data f',
        push_event (unit_id (set_on_duty false driver_1)) et data
          (cleanup (unit_id (set_on_duty false driver_1)) q (fan w1)) = inr f' →
        queues f' !! q = Some (mkQueue 30 []).
Proof.
  apply (cleanup_undoes_subscription (Some 1%Z) (set_on_duty false driver_1) start).
  - apply registry_ok_start.
  - vm_compute. reflexivity.
Defined.

End Subscription.

(** ** Addresses *)

Section Addresses.
Local Open Scope R_scope.
Implicit Types (fl : Arith).

(** X11: [get_address] in floating point.  It raises exactly when
    [haversine] raises for one of the landmarks.  It names a landmark only
    when that landmark is a nearest one, by the distances computed, and
    less than 5 km away, and falls back to the highway text only when
    every landmark is 5 km away or more. *)
Theorem get_address_names_the_nearest fl lat lon :
  ((∃ e, get_address_fl fl lat lon = inl e)
   ↔ ∃ l e, l ∈ landmarks
            ∧ haversine_fl fl lat lon (lm_latitude l) (lm_longitude l) = inl e)
  ∧ (∀ n, get_address_fl fl lat lon = inr (near n) →
          ∃ l km, l ∈ landmarks ∧ lm_name l = n
                  ∧ haversine_fl fl lat lon (lm_latitude l) (lm_longitude l) = inr km
                  ∧ km < 5
                  ∧ ∀ l' km', l' ∈ landmarks →
                              haversine_fl fl lat lon (lm_latitude l') (lm_longitude l')
                              = inr km' →
                              km <= km')
  ∧ (∀ a b, get_address_fl fl lat lon = inr (highway a b) →
            a = lat ∧ b = lon
            ∧ ∀ l km, l ∈ landmarks →
                      haversine_fl fl lat lon (lm_latitude l) (lm_longitude l) = inr km →
                      5 <= km).
Proof.
  set (key := fun l => haversine_fl fl lat lon (lm_latitude l) (lm_longitude l)).
  assert (Hcases :
    (∃ l e, l ∈ landmarks ∧ key l = inl e)
    ∨ (∀ l, l ∈ landmarks → ∃ k, key l = inr k)).
  { assert (Hall : ∀ ls : list Landmark,
              (∃ l e, l ∈ ls ∧ key l = inl e) ∨ (∀ l, l ∈ ls → ∃ k, key l = inr k)).
    { induction ls as [|x ls IH].
      - right. intros l Hl. by apply elem_of_nil in Hl.
      - destruct (key x) as [e|k] eqn:Hx.
        + left. exists x, e. split; [apply list_elem_of_here|done].
        + destruct IH as [(l & e & Hl & He)|IH].
          * left. exists l, e. split; [by apply list_elem_of_further|done].
          * right. intros l Hl. apply elem_of_cons in Hl as [->|Hl]; [by exists k|].
            by apply IH. }
    apply Hall. }
  destruct Hcases as [(l & e & Hl & He)|Hret].
  - destruct (py_min_fl_raises key landmarks l e Hl He) as [e' Hmin].
    assert (Hget : get_address_fl fl lat lon = inl e').
    { unfold get_address_fl. fold key. by rewrite Hmin. }
    unfold key in *. split_and!.
    + split; [intros _; by exists l, e|intros _; by exists e'].
    + intros n Hn. congruence.
    + intros a b Hab. congruence.
  - destruct (py_min_fl_first key landmarks) as (m & km & l1 & l2 & Hmin & Hkey & Heq & H1 & H2);
      [done|done|].
    assert (Hm : m ∈ landmarks).
    { rewrite Heq. apply elem_of_app. right. apply list_elem_of_here. }
    assert (Hleast : ∀ l' km', l' ∈ landmarks → key l' = inr km' → km <= km').
    { intros l' km' Hl' Hk'. rewrite Heq in Hl'. apply elem_of_app in Hl' as [Hl'|Hl'].
      - left. by apply (H1 l').
      - apply elem_of_cons in Hl' as [->|Hl'].
        + rewrite Hkey in Hk'. injection Hk' as <-. lra.
        + by apply (H2 l'). }
    assert (Hget : get_address_fl fl lat lon
                   = inr (if Rltb km 5 then near (lm_name m) else highway lat lon)).
    { unfold get_address_fl. fold key. rewrite Hmin. cbn [exc_bind].
      change (key m = inr km) in Hkey. unfold key in Hkey. rewrite Hkey.
      cbn [exc_bind]. by destruct (Rltb km 5). }
    unfold key in *. split_and!.
    + split.
      * intros [e He]. congruence.
      * intros (l & e & Hl & He). destruct (Hret l Hl) as [k Hk]. congruence.
    + intros n Hn. rewrite Hget in Hn.
      destruct (Rltb km 5) eqn:Hlt; [|done]. injection Hn as <-.
      apply Rltb_true in Hlt. exists m, km. by split_and!.
    + intros a b Hab. rewrite Hget in Hab.
      destruct (Rltb km 5) eqn:Hlt; [done|]. injection Hab as <- <-.
      apply Rltb_false in Hlt. split_and!; [done..|].
      intros l k Hl Hk. specialize (Hleast l k Hl Hk). lra.
Qed.

End Addresses.

(** ** The mission of a driver *)

Section Missions.
Implicit Types (w : World) (d : DB) (c : Crash).

Lemma is_active_true unit c :
  is_active unit c = true ↔
  assigned_ambulance_id c = Some unit
  ∧ (status c = waiting_for_driver ∨ status c = en_route).
Proof.
  unfold is_active. rewrite andb_true_iff. split.
  - intros [Ha Hs]. destruct (assigned_ambulance_id c) as [a|]; [|done].
    apply String.eqb_eq in Ha as ->. split; [done|].
    destruct (status c); auto; discriminate.
  - intros [-> Hs]. rewrite String.eqb_refl. split; [done|].
    by destruct Hs as [-> | ->].
Qed.

Lemma foldl_newer_Some l acc b :
  foldl newer acc l = Some b →
  (acc = Some b ∨ b ∈ l)
  ∧ (∀ a, acc = Some a → (fst a <= fst b)%Z)
  ∧ ∀ x, x ∈ l → (fst x <= fst b)%Z.
Proof.
  revert acc. induction l as [|x l IH]; intros acc H; cbn in H.
  - split_and!; [by left|by intros a ->; injection H as ->|].
    intros x Hx. by apply elem_of_nil in Hx.
  - apply IH in H as (Hin & Hacc & Hl).
    assert (Hx : (fst x <= fst b)%Z ∧ ∀ a, acc = Some a → (fst a <= fst b)%Z).
    { destruct acc as [a|]; cbn in Hacc.
      - destruct (Z.ltb_spec (fst a) (fst x)).
        + specialize (Hacc x eq_refl). split; [done|]. intros a' [= <-]. lia.
        + specialize (Hacc a eq_refl). split; [lia|]. by intros a' [= <-].
      - specialize (Hacc x eq_refl). split; [done|]. by intros a'. }
    destruct Hx as [Hx Hacc']. split_and!.
    + destruct Hin as [Hin|Hin]; [|right; by apply list_elem_of_further].
      destruct acc as [a|]; cbn in Hin.
      * destruct (fst a <? fst x)%Z; injection Hin as <-;
          [right; apply list_elem_of_here|by left].
      * injection Hin as <-. right. apply list_elem_of_here.
    + done.
    + intros y Hy. apply elem_of_cons in Hy as [->|Hy]; [done|by apply Hl].
Qed.

Lemma foldl_newer_None l acc : foldl newer acc l = None → acc = None ∧ l = [].
Proof.
  destruct l as [|x l]; cbn; [done|]. intros H.
  assert (Hsome : ∀ l a, foldl newer (Some a) l ≠ None).
  { clear. induction l as [|y l IH]; intros a; cbn; [done|].
    destruct (fst a <? fst y)%Z; apply IH. }
  destruct acc as [a|]; cbn in H; [|by apply Hsome in H].
  destruct (fst a <? fst x)%Z; by apply Hsome in H.
Qed.

Lemma mission_row_Some unit d i c :
  mission_row unit d = Some (i, c) →
  crashes d !! i = Some c
  ∧ is_active unit c = true
  ∧ ∀ j c', crashes d !! j = Some c' → is_active unit c' = true → (j <= i)%Z.
Proof.
  unfold mission_row. intros H. apply foldl_newer_Some in H as ([?|Hin] & _ & Hmax); [done|].
  apply list_elem_of_In, filter_In in Hin as [Hin Hact].
  apply list_elem_of_In, elem_of_map_to_list in Hin. split_and!; [done..|].
  intros j c' Hj Hact'. apply (Hmax (j, c')).
  apply list_elem_of_In, filter_In. split; [|done].
  by apply list_elem_of_In, elem_of_map_to_list.
Qed.

Lemma mission_row_None unit d :
  mission_row unit d = None →
  ∀ j c', crashes d !! j = Some c' → is_active unit c' = false.
Proof.
  unfold mission_row. intros H j c' Hj. apply foldl_newer_None in H as [_ H].
  destruct (is_active unit c') eqn:Hact; [|done].
  assert (Hin : In (j, c') (List.filter (fun row => is_active unit (snd row))
                              (map_to_list (crashes d)))).
  { apply filter_In. split; [|done]. by apply list_elem_of_In, elem_of_map_to_list. }
  rewrite H in Hin. destruct Hin.
Qed.

(** The answer of [/api/mission], case by case. *)
Lemma get_mission_shows_the_newest_aux s driver w :
  get_current_driver s (db w) = Some driver →
  (get_mission s w = inr mission_standby
   ∧ ∀ j c, crashes (db w) !! j = Some c →
            assigned_ambulance_id c = Some (unit_id driver) →
            status c ≠ waiting_for_driver ∧ status c ≠ en_route)
  ∨ ∃ m c,
      get_mission s w = inr (mission_active m)
      ∧ crashes (db w) !! m_crash_id m = Some c
      ∧ assigned_ambulance_id c = Some (unit_id driver)
      ∧ (status c = waiting_for_driver ∨ status c = en_route)
      ∧ m_status m = status c
      ∧ m_crash_lat m = latitude c
      ∧ m_crash_lon m = longitude c
      ∧ m_timestamp m = timestamp c
      ∧ ∀ j c', crashes (db w) !! j = Some c' →
                assigned_ambulance_id c' = Some (unit_id driver) →
                status c' = waiting_for_driver ∨ status c' = en_route →
                (j <= m_crash_id m)%Z.
Proof.
  intros Hdrv. unfold get_mission. rewrite Hdrv.
  destruct (mission_row (unit_id driver) (db w)) as [[i c]|] eqn:Hrow.
  - right. apply mission_row_Some in Hrow as (Hc & Hact & Hmax).
    apply is_active_true in Hact as [Hunit Hst].
    destruct (get_address_returns (latitude c) (longitude c)) as (a & ->).
    cbn [exc_bind]. eexists _, c. split; [done|]. cbn. split_and!; try done.
    intros j c' Hj Hu Hs. apply (Hmax j c' Hj). by apply is_active_true.
  - left. split; [done|]. intros j c Hj Hu.
    pose proof (mission_row_None _ _ Hrow j c Hj) as Hact.
    split; intros Hs;
      assert (is_active (unit_id driver) c = true) by (apply is_active_true; auto);
      congruence.
Qed.

(** X12: [/api/mission] in floating point.  For a logged-in driver it
    answers standby exactly when no crash assigned to the driver's unit is
    [waiting_for_driver] or [en_route].  Otherwise it turns to the one of
    those with the largest id: when it answers, it shows that crash with
    its status, place and timestamp and the address [get_address] gives,
    and it raises only when [get_address] or [haversine] does for the
    place of that crash. *)
Theorem get_mission_shows_the_newest fl s driver w :
  get_current_driver s (db w) = Some driver →
  (get_mission_fl fl s w = inr mission_standby
   ∧ ∀ j c, crashes (db w) !! j = Some c →
            assigned_ambulance_id c = Some (unit_id driver) →
            status c ≠ waiting_for_driver ∧ status c ≠ en_route)
  ∨ ∃ i c,
      crashes (db w) !! i = Some c
      ∧ assigned_ambulance_id c = Some (unit_id driver)
      ∧ (status c = waiting_for_driver ∨ status c = en_route)
      ∧ (∀ j c', crashes (db w) !! j = Some c' →
                 assigned_ambulance_id c' = Some (unit_id driver) →
                 status c' = waiting_for_driver ∨ status c' = en_route →
                 (j <= i)%Z)
      ∧ (∀ r, get_mission_fl fl s w = inr r →
              ∃ m, r = mission_active m
                   ∧ m_crash_id m = i
                   ∧ m_status m = status c
                   ∧ m_crash_lat m = latitude c
                   ∧ m_crash_lon m = longitude c
                   ∧ m_timestamp m = timestamp c
                   ∧ get_address_fl fl (latitude c) (longitude c) = inr (m_address m))
      ∧ (∀ e, get_mission_fl fl s w = inl e →
              get_address_fl fl (latitude c) (longitude c) = inl e
              ∨ ∃ lat lon, haversine_fl fl (latitude c) (longitude c) lat lon = inl e)
      ∧ (∀ a, get_address_fl fl (latitude c) (longitude c) = inr a →
              (∀ lat lon, ∃ km, haversine_fl fl (latitude c) (longitude c) lat lon
                                = inr km) →
              ∃ m, get_mission_fl fl s w = inr (mission_active m)).
Proof.
  intros Hdrv. unfold get_mission_fl. rewrite Hdrv.
  destruct (mission_row (unit_id driver) (db w)) as [[i c]|] eqn:Hrow.
  - right. apply mission_row_Some in Hrow as (Hc & Hact & Hmax).
    apply is_active_true in Hact as [Hunit Hst].
    exists i, c. split_and!; try done.
    + intros j c' Hj Hu Hs. apply (Hmax j c' Hj). by apply is_active_true.
    + intros r Hr.
      destruct (get_address_fl fl (latitude c) (longitude c)) as [e|a]; [done|].
      cbn [exc_bind] in Hr.
      destruct (haversine_fl fl (latitude c) (longitude c) _ _) as [e|km]; [done|].
      cbn [exc_bind] in Hr. injection Hr as <-. eexists. by split_and!.
    + intros e He.
      destruct (get_address_fl fl (latitude c) (longitude c)) as [e0|a];
        [left; by injection He as ->|].
      cbn [exc_bind] in He. right.
      destruct (haversine_fl fl (latitude c) (longitude c) _ _) as [e0|km] eqn:Hkm;
        [|done].
      cbn [exc_bind] in He. injection He as <-. by eexists _, _.
    + intros a Ha Hkm. rewrite Ha. cbn [exc_bind].
      match goal with |- context [haversine_fl fl ?a1 ?a2 ?a3 ?a4] =>
        destruct (Hkm a3 a4) as [km ->] end.
      cbn [exc_bind]. by eexists.
  - left. split; [done|]. intros j c Hj Hu.
    pose proof (mission_row_None _ _ Hrow j c Hj) as Hact.
    split; intros Hs;
      assert (is_active (unit_id driver) c = true) by (apply is_active_true; auto);
      congruence.
Qed.

Lemma get_mission_shows_the_newest_witness :
  (get_mission_fl exact (Some 1%Z) (after start crash_reported) = inr mission_standby
   ∧ ∀ j c, crashes (db (after start crash_reported)) !! j = Some c →
            assigned_ambulance_id c = Some (unit_id driver_1) →
            status c ≠ waiting_for_driver ∧ status c ≠ en_route)
  ∨ ∃ i c,
      crashes (db (after start crash_reported)) !! i = Some c
      ∧ assigned_ambulance_id c = Some (unit_id driver_1)
      ∧ (status c = waiting_for_driver ∨ status c = en_route)
      ∧ (∀ j c', crashes (db (after start crash_reported)) !! j = Some c' →
                 assigned_ambulance_id c' = Some (unit_id driver_1) →
                 status c' = waiting_for_driver ∨ status c' = en_route →
                 (j <= i)%Z)
      ∧ (∀ r, get_mission_fl exact (Some 1%Z) (after start crash_reported) = inr r →
              ∃ m, r = mission_active m
                   ∧ m_crash_id m = i
                   ∧ m_status m = status c
                   ∧ m_crash_lat m = latitude c
                   ∧ m_crash_lon m = longitude c
                   ∧ m_timestamp m = timestamp c
                   ∧ get_address_fl exact (latitude c) (longitude c) = inr (m_address m))
      ∧ (∀ e, get_mission_fl exact (Some 1%Z) (after start crash_reported) = inl e →
              get_address_fl exact (latitude c) (longitude c) = inl e
              ∨ ∃ lat lon, haversine_fl exact (latitude c) (longitude c) lat lon = inl e)
      ∧ (∀ a, get_address_fl exact (latitude c) (longitude c) = inr a →
              (∀ lat lon, ∃ km, haversine_fl exact (latitude c) (longitude c) lat lon
                                = inr km) →
              ∃ m, get_mission_fl exact (Some 1%Z) (after start crash_reported)
                   = inr (mission_active m)).
Proof.
  apply (get_mission_shows_the_newest exact (Some 1%Z) driver_1
           (after start crash_reported)).
  vm_compute. reflexivity.
Defined.

End Missions.

Section MissionFlow.
Implicit Types (w : World) (d : DB) (c : Crash).

Lemma get_mission_active s w m :
  get_mission s w = inr (mission_active m) →
  ∃ driver c,
    get_current_driver s (db w) = Some driver
    ∧ crashes (db w) !! m_crash_id m = Some c
    ∧ is_active (unit_id driver) c = true
    ∧ m_status m = status c.
Proof.
  unfold get_mission. destruct (get_current_driver s (db w)) as [driver|]; [|done].
  destruct (mission_row (unit_id driver) (db w)) as [[i c]|] eqn:Hrow; [|done].
  apply mission_row_Some in Hrow as (Hc & Hact & _).
  destruct (get_address_returns (latitude c) (longitude c)) as (a & ->).
  cbn [exc_bind]. intros [= <-]. by exists driver, c.
Qed.

Lemma simulate_crash_seq ts lat lon snap w resp w' :
  simulate_crash ts lat lon snap w = inr (resp, w') →
  crash_seq (db w') = (crash_seq (db w) + 1)%Z.
Proof.
  intros H. apply simulate_crash_dispatch in H as (r & _ & Hd).
  apply dispatch_db in Hd as (g & -> & _). cbn. by destruct snap.
Qed.


End MissionFlow.


Section MissionEnd.
Implicit Types (w : World) (d : DB) (c : Crash).

Lemma decline_mission_drivers s cid w resp w' :
  decline_mission s cid w = inr (resp, w') → drivers (db w') = drivers (db w).
Proof.
  intros H. route H; [|by returned H].
  destruct cid as [i|]; [|by returned H].
  destruct (crashes (db w) !! i) as [row|]; [|by returned H].
  dispatched H r w2 Hd. returned H.
  match type of Hd with dispatch ?a ?b ?c ?e ?v = _ =>
    destruct (dispatch_returns a b c e v) as (r0 & w0 & Hd0 & _ & _ & Hdr) end.
  rewrite Hd in Hd0. injection Hd0 as <- <-. by rewrite Hdr.
Qed.

Lemma get_current_driver_roster s d d' :
  drivers d' = drivers d → get_current_driver s d' = get_current_driver s d.
Proof. intros Heq. unfold get_current_driver. by rewrite Heq. Qed.

(** X14: a mission ends for the driver who arrives or declines.  After
    [arrived] on crash [i] no driver is shown crash [i] by [/api/mission]
    any more; after [decline_mission] on crash [i] the driver who declined
    is not shown it (the unit id not being the empty string). *)
Theorem mission_ends_on_arrival_and_decline s driver i w :
  get_current_driver s (db w) = Some driver →
  (∀ resp w' s' m,
     arrived s (Some i) w = inr (resp, w') →
     get_mission s' w' = inr (mission_active m) → m_crash_id m ≠ i)
  ∧ (unit_id driver ≠ "" →
     ∀ resp w' m,
       decline_mission s (Some i) w = inr (resp, w') →
       get_mission s w' = inr (mission_active m) → m_crash_id m ≠ i).
Proof.
  intros Hdrv. split.
  - intros resp w' s' m H Hm Hi.
    rewrite (arrived_logged_in s driver (Some i) w Hdrv) in H. injection H as <- <-.
    apply get_mission_active in Hm as (dr & c & _ & Hc & Hact & _).
    rewrite Hi in Hc. cbn in Hc. rewrite lookup_alter, decide_True in Hc by done.
    destruct (crashes (db w) !! i) as [c0|]; [|done]. cbn in Hc. injection Hc as <-.
    apply is_active_true in Hact as [_ [Hs|Hs]]; discriminate.
  - intros Hid resp w' m H Hm Hi.
    pose proof (decline_mission_drivers _ _ _ _ _ H) as Hdr.
    apply get_mission_active in Hm as (dr & c & Hdrv' & Hc & Hact & _).
    rewrite (get_current_driver_roster s _ _ Hdr), Hdrv in Hdrv'. injection Hdrv' as <-.
    apply is_active_true in Hact as [Hunit Hst]. rewrite Hi in Hc.
    destruct (crashes (db w) !! i) as [c0|] eqn:Hc0.
    + destruct (decline_mission_returns s driver i c0 w Hdrv Hc0)
        as (r & w2 & c' & Hd & Hc' & Hcase).
      rewrite Hd in H. injection H as <- <-. rewrite Hc in Hc'. injection Hc' as <-.
      destruct Hcase as [(_ & Hs & _)|(_ & Ha & _)].
      * destruct Hst as [Hst|Hst]; rewrite Hst in Hs; discriminate.
      * destruct (decline_excludes_declining_unit s driver (Some i) w _ _ Hdrv Hid Hd)
          as (r' & [= <-] & Hne). by rewrite Hunit in Ha.
    + unfold decline_mission in H. rewrite Hdrv, Hc0 in H. injection H as <- <-.
      cbn in Hc. rewrite lookup_alter, decide_True, Hc0 in Hc by done. done.
Qed.

Lemma mission_ends_on_arrival_and_decline_witness :
  (∀ resp w' s' m,
     arrived (Some 1%Z) (Some 1%Z) (after start crash_accepted) = inr (resp, w') →
     get_mission s' w' = inr (mission_active m) → m_crash_id m ≠ 1%Z)
  ∧ (unit_id driver_1 ≠ "" →
     ∀ resp w' m,
       decline_mission (Some 1%Z) (Some 1%Z) (after start crash_accepted) = inr (resp, w') →
       get_mission (Some 1%Z) w' = inr (mission_active m) → m_crash_id m ≠ 1%Z).
Proof.
  apply (mission_ends_on_arrival_and_decline (Some 1%Z) driver_1 1%Z
           (after start crash_accepted)).
  vm_compute. reflexivity.
Defined.

End MissionEnd.

(** ** Login and sessions *)

Section Sessions.
Implicit Types (w : World) (d : DB) (dr : Driver).

Lemma find_by_id l dr :
  NoDup (map driver_id l) → dr ∈ l →
  List.find (fun x => Z.eqb (driver_id x) (driver_id dr)) l = Some dr.
Proof.
  induction l as [|x l IH]; intros Hnd Hin; [by apply elem_of_nil in Hin|].
  cbn in Hnd. apply NoDup_cons in Hnd as [Hx Hnd]. cbn.
  apply elem_of_cons in Hin as [->|Hin]; [by rewrite Z.eqb_refl|].
  destruct (Z.eqb_spec (driver_id x) (driver_id dr)) as [Heq|_]; [|by apply IH].
  exfalso. apply Hx. rewrite Heq. apply list_elem_of_fmap. by exists dr.
Qed.

(** X15: [login] and the session it opens.  A login is refused exactly
    when no driver has the normalised badge with the hash of the
    password.  Otherwise the session holds the id of the first such
    driver, and, ids being unique, [/api/me] answers with that driver as
    long as the id is not 0; a session holding the id 0 counts as logged
    out. *)
Theorem login_opens_the_session hash_pw strip_upper data_badge data_password d :
  NoDup (map driver_id (drivers d)) →
  (login hash_pw strip_upper data_badge data_password d = login_refused
   ∧ ∀ dr, dr ∈ drivers d →
           ¬ (badge dr = strip_upper (default "" data_badge)
              ∧ password dr = hash_pw (default "" data_password)))
  ∨ ∃ dr,
      login hash_pw strip_upper data_badge data_password d = login_ok (driver_id dr) dr
      ∧ dr ∈ drivers d
      ∧ badge dr = strip_upper (default "" data_badge)
      ∧ password dr = hash_pw (default "" data_password)
      ∧ (driver_id dr ≠ 0%Z → me (Some (driver_id dr)) d = Some dr)
      ∧ (driver_id dr = 0%Z → me (Some (driver_id dr)) d = None).
Proof.
  intros Hnd. unfold login.
  destruct (List.find _ (drivers d)) as [dr|] eqn:Hfind.
  - right. exists dr. apply find_some in Hfind as [Hin Hmatch].
    apply andb_true_iff in Hmatch as [Hb Hp].
    apply String.eqb_eq in Hb, Hp. apply list_elem_of_In in Hin.
    split_and!; try done.
    + intros Hid. unfold me, get_current_driver.
      destruct (Z.eqb_spec (driver_id dr) 0); [done|]. by apply find_by_id.
    + intros Hid. unfold me, get_current_driver. by rewrite Hid.
  - left. split; [done|]. intros dr Hin [Hb Hp].
    apply list_elem_of_In in Hin.
    pose proof (find_none _ _ Hfind dr Hin) as Hno. cbn in Hno.
    rewrite Hb, Hp, !String.eqb_refl in Hno. discriminate.
Qed.

Lemma login_opens_the_session_witness :
  (login (fun pw => pw) (fun b => b) (Some "DRV-01") (Some "driver01") init = login_refused
   ∧ ∀ dr, dr ∈ drivers init →
           ¬ (badge dr = default "" (Some "DRV-01")
              ∧ password dr = default "" (Some "driver01")))
  ∨ ∃ dr,
      login (fun pw => pw) (fun b => b) (Some "DRV-01") (Some "driver01") init
      = login_ok (driver_id dr) dr
      ∧ dr ∈ drivers init
      ∧ badge dr = default "" (Some "DRV-01")
      ∧ password dr = default "" (Some "driver01")
      ∧ (driver_id dr ≠ 0%Z → me (Some (driver_id dr)) init = Some dr)
      ∧ (driver_id dr = 0%Z → me (Some (driver_id dr)) init = None).
Proof.
  apply (login_opens_the_session (fun pw => pw) (fun b => b)
           (Some "DRV-01") (Some "driver01") init).
  apply (bool_decide_unpack (NoDup (map driver_id (drivers init)))).
  vm_compute. exact I.
Defined.

Lemma handle_driver_rows r w resp w' :
  handle r w = inr (resp, w') →
  map (set_on_duty false) (drivers (db w')) = map (set_on_duty false) (drivers (db w)).
Proof.
  assert (Hduty : ∀ b i d,
            map (set_on_duty false) (drivers (update_is_on_duty b i d))
            = map (set_on_duty false) (drivers d)).
  { intros b i d. cbn. rewrite map_map. apply map_ext. intros dr.
    by destruct (Z.eqb (driver_id dr) i). }
  intros H. destruct r as [s|s b|s|s c|s c|s c|ts lat lon snap|q].
  - route H; returned H; [|done]. apply Hduty.
  - route H; returned H; [|done]. apply Hduty.
  - route H; by returned H.
  - route H; returned H; [|done]. by destruct c.
  - by rewrite (decline_mission_drivers _ _ _ _ _ H).
  - route H; returned H; [|done]. by destruct c.
  - by destruct (simulate_crash_roster _ _ _ _ _ _ _ H) as [_ ->].
  - cbn [handle] in H. destruct (generate_next q (fan w)). by returned H.
Qed.

Lemma serve_driver_rows rs w w' :
  serve rs w = inr w' →
  map (set_on_duty false) (drivers (db w')) = map (set_on_duty false) (drivers (db w)).
Proof.
  revert w. induction rs as [|r rs IH]; intros w H; cbn [serve] in H.
  - by inversion H; subst.
  - destruct (handle r w) as [e|[resp w1]] eqn:Hr; [done|]. cbn [exc_bind] in H.
    rewrite (IH _ H). by eapply handle_driver_rows.
Qed.

Lemma find_same_driver i (l l' : list Driver) dr :
  map (set_on_duty false) l' = map (set_on_duty false) l →
  List.find (fun x => Z.eqb (driver_id x) i) l = Some dr →
  ∃ dr', List.find (fun x => Z.eqb (driver_id x) i) l' = Some dr' ∧ same_driver dr dr'.
Proof.
  revert l'. induction l as [|x l IH]; intros [|x' l'] Heq Hfind; try done.
  cbn [map] in Heq.
  pose proof (f_equal (fun l => match l with y :: _ => y | [] => set_on_duty false x end) Heq)
    as Hx.
  pose proof (f_equal (fun l => match l with _ :: t => t | [] => [] end) Heq) as Hl.
  cbn beta iota in Hx, Hl.
  assert (Hid : driver_id x' = driver_id x) by exact (f_equal driver_id Hx).
  cbn in Hfind |- *. rewrite Hid. destruct (Z.eqb (driver_id x) i).
  - injection Hfind as <-. exists x'. split; [done|]. exact (eq_sym Hx).
  - by apply IH.
Qed.

Lemma browse_serve ks s w s' w' :
  browse ks s w = inr (s', w') → ∃ rs, serve rs w = inr w'.
Proof.
  revert s w. induction ks as [|k ks IH]; intros s w H; cbn [browse] in H.
  - injection H as _ <-. by exists [].
  - destruct (handle (request_of s k) w) as [e|[resp w1]] eqn:Hk; [done|].
    cbn [exc_bind] in H. destruct (IH _ _ H) as [rs Hrs].
    exists (request_of s k :: rs). cbn [serve]. by rewrite Hk.
Qed.

Lemma browse_cookie ks s w s' w' :
  browse ks s w = inr (s', w') →
  (own_logout ∉ ks → s' = s) ∧ (own_logout ∈ ks → s' = None).
Proof.
  revert s w. induction ks as [|k ks IH]; intros s w H; cbn [browse] in H.
  - injection H as <- _. split; [done|]. intros Hin. by apply elem_of_nil in Hin.
  - destruct (handle (request_of s k) w) as [e|[resp w1]]; [done|].
    cbn [exc_bind] in H. destruct (IH _ _ H) as [Hkeep Hout].
    assert (Hnone : ∀ ks0 w0 s0 w0', browse ks0 None w0 = inr (s0, w0') → s0 = None).
    { clear. induction ks0 as [|k0 ks0 IH0]; intros w0 s0 w0' H0; cbn [browse] in H0.
      - by injection H0 as <- _.
      - destruct (handle (request_of None k0) w0) as [e|[resp w1]]; [done|].
        cbn [exc_bind] in H0.
        assert (Hc : cookie_after None k0 = None) by (by destruct k0).
        rewrite Hc in H0. by eapply IH0. }
    split.
    + intros Hnot. rewrite Hkeep.
      * destruct k; try done. exfalso. apply Hnot. apply list_elem_of_here.
      * intros Hin. apply Hnot. by apply list_elem_of_further.
    + intros Hin. apply elem_of_cons in Hin as [<-|Hin]; [|by apply Hout].
      cbn [cookie_after] in H. by eapply Hnone.
Qed.



End Sessions.

(** ** The initializer *)

Section Initializer.
Implicit Types (d : DB) (a : Ambulance) (dr : Driver) (s : Store).

Lemma insert_or_ignore_unit_spec d row :
  (has_unit d (amb_id row) ∧ insert_or_ignore_unit d row = d)
  ∨ (¬ has_unit d (amb_id row)
     ∧ insert_or_ignore_unit d row
       = mkDB (crashes d) (crash_seq d) (ambulances d ++ [row]) (drivers d)).
Proof.
  unfold insert_or_ignore_unit.
  destruct (existsb _ (ambulances d)) eqn:He.
  - left. split; [|done]. apply existsb_exists in He as (a & Ha & Heq).
    exists a. split; [by apply list_elem_of_In|by apply String.eqb_eq].
  - right. split; [|done]. intros (a & Ha & Heq).
    assert (existsb (fun a0 => String.eqb (amb_id a0) (amb_id row)) (ambulances d) = true);
      [|congruence].
    apply existsb_exists. exists a. split; [by apply list_elem_of_In|by apply String.eqb_eq].
Qed.

Lemma max_id_bound (l : list Driver) dr :
  dr ∈ l → (driver_id dr <= foldr Z.max 0 (map driver_id l))%Z.
Proof.
  induction l as [|x l IH]; intros Hin; [by apply elem_of_nil in Hin|].
  cbn. apply elem_of_cons in Hin as [->|Hin]; [lia|]. specialize (IH Hin). lia.
Qed.

Lemma max_id_snoc (l : list Driver) dr :
  (0 <= driver_id dr)%Z →
  foldr Z.max 0%Z (map driver_id (l ++ [dr]))
  = Z.max (foldr Z.max 0%Z (map driver_id l)) (driver_id dr).
Proof. intros Hdr. induction l as [|x l IH]; cbn; [lia|]. rewrite IH. lia. Qed.

Lemma max_id_nonneg (l : list Driver) : (0 <= foldr Z.max 0 (map driver_id l))%Z.
Proof. induction l as [|x l IH]; cbn; lia. Qed.

Lemma next_driver_id_above s :
  (driver_seq s < next_driver_id s)%Z
  ∧ (0 < next_driver_id s)%Z
  ∧ ∀ dr, dr ∈ drivers (tables s) → (driver_id dr < next_driver_id s)%Z.
Proof.
  unfold next_driver_id. pose proof (max_id_nonneg (drivers (tables s))).
  split_and!; [lia..|]. intros dr Hdr. pose proof (max_id_bound _ _ Hdr). lia.
Qed.

(** What a pass of [INSERT OR IGNORE] over unit rows leaves. *)
Lemma unit_pass rows d :
  let d' := foldl insert_or_ignore_unit d rows in
  crashes d' = crashes d ∧ crash_seq d' = crash_seq d ∧ drivers d' = drivers d
  ∧ (∃ l, ambulances d' = ambulances d ++ l ∧ ∀ a, a ∈ l → a ∈ rows)
  ∧ (∀ row, row ∈ rows → has_unit d' (amb_id row))
  ∧ ((∀ row, row ∈ rows → has_unit d (amb_id row)) → d' = d).
Proof.
  revert d. induction rows as [|row rows IH]; intros d; cbn.
  - split_and!; try done.
    + exists []. split; [by rewrite app_nil_r|]. intros a Ha. by apply elem_of_nil in Ha.
    + intros row Hrow. by apply elem_of_nil in Hrow.
  - destruct (IH (insert_or_ignore_unit d row)) as (Hc & Hs & Hd & (l & Hl & Hin) & Hhas & Hid).
    destruct (insert_or_ignore_unit_spec d row) as [[Hrow Heq]|[Hrow Heq]];
      rewrite Heq in *; cbn [crashes crash_seq drivers ambulances] in *.
    + split_and!; try done.
      * exists l. split; [done|]. intros a Ha. apply list_elem_of_further. by apply Hin.
      * intros r Hr. apply elem_of_cons in Hr as [->|Hr]; [|by apply Hhas].
        destruct Hrow as (a & Ha & Hida). exists a. split; [|done].
        rewrite Hl. apply elem_of_app. by left.
      * intros Hall. apply Hid. intros r Hr. apply Hall. by apply list_elem_of_further.
    + split_and!; try done.
      * exists (row :: l). split; [by rewrite Hl, <- app_assoc|].
        intros a Ha. apply elem_of_cons in Ha as [->|Ha];
          [apply list_elem_of_here|apply list_elem_of_further; by apply Hin].
      * intros r Hr. apply elem_of_cons in Hr as [->|Hr]; [|by apply Hhas].
        exists row. split; [|done]. rewrite Hl. apply elem_of_app. left.
        apply elem_of_app. right. apply list_elem_of_here.
      * intros Hall. exfalso. apply Hrow. apply Hall. apply list_elem_of_here.
Qed.

Lemma insert_or_ignore_driver_spec s row :
  driver_seq (insert_or_ignore_driver s row) = next_driver_id s
  ∧ next_driver_id (insert_or_ignore_driver s row) = (next_driver_id s + 1)%Z
  ∧ ((has_badge (tables s) (badge row)
      ∧ tables (insert_or_ignore_driver s row) = tables s)
     ∨ (¬ has_badge (tables s) (badge row)
        ∧ tables (insert_or_ignore_driver s row)
          = mkDB (crashes (tables s)) (crash_seq (tables s)) (ambulances (tables s))
                 (drivers (tables s) ++
                  [mkDriver (next_driver_id s) (name row) (badge row)
                            (password row) (unit_id row) false]))).
Proof.
  destruct (next_driver_id_above s) as (Hseq & Hpos & Hids).
  assert (Hmax : (foldr Z.max 0 (map driver_id (drivers (tables s)))
                  < next_driver_id s)%Z) by (unfold next_driver_id; lia).
  unfold insert_or_ignore_driver.
  destruct (existsb _ (drivers (tables s))) eqn:He.
  - split; [done|]. split.
    + unfold next_driver_id at 1. cbn [tables driver_seq]. lia.
    + left. split; [|done]. apply existsb_exists in He as (x & Hx & Heq).
      exists x. split; [by apply list_elem_of_In|by apply String.eqb_eq].
  - split; [done|]. split.
    + unfold next_driver_id at 1. cbn [tables driver_seq drivers].
      rewrite max_id_snoc by (cbn; lia). cbn [driver_id]. lia.
    + right. split; [|done]. intros (x & Hx & Heq).
      assert (existsb (fun x0 => String.eqb (badge x0) (badge row)) (drivers (tables s))
              = true); [|congruence].
      apply existsb_exists. exists x.
      split; [by apply list_elem_of_In|by apply String.eqb_eq].
Qed.

(** What a pass of [INSERT OR IGNORE] over driver rows leaves. *)
Lemma driver_pass rows s :
  crashes (tables (foldl insert_or_ignore_driver s rows)) = crashes (tables s)
  ∧ crash_seq (tables (foldl insert_or_ignore_driver s rows)) = crash_seq (tables s)
  ∧ ambulances (tables (foldl insert_or_ignore_driver s rows)) = ambulances (tables s)
  ∧ (∃ l, drivers (tables (foldl insert_or_ignore_driver s rows))
          = drivers (tables s) ++ l
          ∧ NoDup (map driver_id l)
          ∧ ∀ dr, dr ∈ l →
                  is_on_duty dr = false
                  ∧ (next_driver_id s <= driver_id dr
                     < next_driver_id (foldl insert_or_ignore_driver s rows))%Z)
  ∧ (∀ row, row ∈ rows →
            has_badge (tables (foldl insert_or_ignore_driver s rows)) (badge row))
  ∧ ((∀ row, row ∈ rows → has_badge (tables s) (badge row)) →
     tables (foldl insert_or_ignore_driver s rows) = tables s)
  ∧ next_driver_id (foldl insert_or_ignore_driver s rows)
    = (next_driver_id s + Z.of_nat (length rows))%Z
  ∧ (rows ≠ [] →
     driver_seq (foldl insert_or_ignore_driver s rows)
     = (next_driver_id s + Z.of_nat (length rows) - 1)%Z).
Proof.
  revert s. induction rows as [|row rows IH]; intros s; cbn [foldl].
  - split_and!; try done.
    + exists []. split_and!; [by rewrite app_nil_r|apply NoDup_nil_2|].
      intros a Ha. by apply elem_of_nil in Ha.
    + intros row Hrow. by apply elem_of_nil in Hrow.
    + cbn. lia.
  - destruct (IH (insert_or_ignore_driver s row))
      as (Hc & Hs & Ha & (l & Hl & Hndl & Hnew) & Hhas & Hid & Hnext & Hseq).
    destruct (insert_or_ignore_driver_spec s row) as (Hsq & Hnx & [[Hrow Heq]|[Hrow Heq]]);
      rewrite Heq in *; rewrite Hnx in *;
      cbn [crashes crash_seq drivers ambulances] in *.
    + split_and!; try done.
      * exists l. split_and!; [done..|]. intros dr Hdr.
        destruct (Hnew dr Hdr) as (Hoff & Hrange). split; [done|lia].
      * intros r Hr. apply elem_of_cons in Hr as [->|Hr]; [|by apply Hhas].
        destruct Hrow as (x & Hx & Hbx). exists x. split; [|done].
        rewrite Hl. apply elem_of_app. by left.
      * intros Hall. apply Hid. intros r Hr. apply Hall. by apply list_elem_of_further.
      * rewrite Hnext. cbn [length]. lia.
      * intros _. destruct rows as [|r0 rows0].
        -- cbn [foldl length]. rewrite Hsq. lia.
        -- rewrite Hseq by done. cbn [length]. lia.
    + split_and!; try done.
      * eexists (_ :: l). split_and!; [by rewrite Hl, <- app_assoc| |].
        -- cbn. apply NoDup_cons. split; [|done]. intros Hin.
           apply list_elem_of_fmap in Hin as (x & Hxid & Hx).
           destruct (Hnew x Hx) as (_ & Hrange). lia.
        -- intros x Hx. apply elem_of_cons in Hx as [->|Hx].
           ++ cbn. split; [done|]. rewrite Hnext. lia.
           ++ destruct (Hnew x Hx) as (Hoff & Hrange). split; [done|lia].
      * intros r Hr. apply elem_of_cons in Hr as [->|Hr]; [|by apply Hhas].
        eexists. split; [rewrite Hl; apply elem_of_app; left; apply elem_of_app; right;
                         apply list_elem_of_here|done].
      * intros Hall. exfalso. apply Hrow. apply Hall. apply list_elem_of_here.
      * rewrite Hnext. cbn [length]. lia.
      * intros _. destruct rows as [|r0 rows0].
        -- cbn [foldl length]. rewrite Hsq. lia.
        -- rewrite Hseq by done. cbn [length]. lia.
Qed.

(** X17: [init] can be run on every start.  It leaves the crashes and all
    rows it finds as they are (a unit keeps its availability, a driver
    the duty flag), adds the seed units and drivers that are missing, the
    drivers off duty and under ids that are new, and keeps the driver ids
    distinct.  Run a second time it changes no row, but uses up five more
    driver ids; on an empty file it gives the tables [init]. *)
Theorem init_db_keeps_what_it_finds s :
  tables (init_db (init_db s)) = tables (init_db s)
  ∧ driver_seq (init_db (init_db s)) = (driver_seq (init_db s) + 5)%Z
  ∧ driver_seq (init_db s) = (next_driver_id s + 4)%Z
  ∧ crashes (tables (init_db s)) = crashes (tables s)
  ∧ crash_seq (tables (init_db s)) = crash_seq (tables s)
  ∧ (∃ l, ambulances (tables (init_db s)) = ambulances (tables s) ++ l
          ∧ ∀ a, a ∈ l → a ∈ seed_units)
  ∧ (∃ l, drivers (tables (init_db s)) = drivers (tables s) ++ l
          ∧ ∀ dr, dr ∈ l →
                  is_on_duty dr = false
                  ∧ (driver_seq s < driver_id dr)%Z
                  ∧ ∀ x, x ∈ drivers (tables s) → (driver_id x < driver_id dr)%Z)
  ∧ (NoDup (map driver_id (drivers (tables s))) →
     NoDup (map driver_id (drivers (tables (init_db s)))))
  ∧ (∀ u, u ∈ seed_units →
          ∃ a, a ∈ ambulances (tables (init_db s)) ∧ amb_id a = amb_id u)
  ∧ (∀ r, r ∈ seed_drivers →
          ∃ dr, dr ∈ drivers (tables (init_db s)) ∧ badge dr = badge r)
  ∧ init_db {| tables := {| crashes := ∅; crash_seq := 0; ambulances := [];
                            drivers := [] |};
               driver_seq := 0 |}
    = {| tables := init; driver_seq := 5 |}.
Proof.
  assert (Hrun : ∀ s0,
    ∃ s1, init_db s0 = foldl insert_or_ignore_driver s1 seed_drivers
          ∧ tables s1 = foldl insert_or_ignore_unit (tables s0) seed_units
          ∧ next_driver_id s1 = next_driver_id s0
          ∧ drivers (tables s1) = drivers (tables s0)).
  { intros s0. eexists. split; [reflexivity|]. split; [reflexivity|].
    destruct (unit_pass seed_units (tables s0)) as (_ & _ & Hd & _).
    cbn zeta in Hd. unfold next_driver_id. cbn [tables driver_seq]. by rewrite Hd. }
  destruct (Hrun s) as (s1 & Hinit & Ht1 & Hnx1 & Hd1).
  destruct (unit_pass seed_units (tables s)) as (Hc1 & Hs1 & _ & Hl1 & Hhas1 & _).
  cbn zeta in Hc1, Hs1, Hl1, Hhas1. rewrite <- Ht1 in Hc1, Hs1, Hl1, Hhas1.
  destruct (driver_pass seed_drivers s1)
    as (Hc2 & Hs2 & Ha2 & (l & Hl2 & Hndl & Hnew2) & Hhas2 & _ & Hnx2 & Hsq2).
  rewrite <- Hinit in Hc2, Hs2, Ha2, Hl2, Hnew2, Hhas2, Hnx2, Hsq2.
  destruct (next_driver_id_above s) as (Hseq & Hpos & Hids).
  destruct (Hrun (init_db s)) as (s2 & Hinit' & Ht2 & Hnx1' & Hd1').
  destruct (unit_pass seed_units (tables (init_db s))) as (_ & _ & _ & _ & _ & Hid1).
  cbn zeta in Hid1. rewrite <- Ht2 in Hid1.
  assert (Hsame1 : tables s2 = tables (init_db s)).
  { apply Hid1. intros row Hrow.
    destruct (Hhas1 row Hrow) as (a & Ha & Hida). exists a. by rewrite Ha2. }
  destruct (driver_pass seed_drivers s2) as (_ & _ & _ & _ & _ & Hid2 & Hnx3 & Hsq3).
  rewrite <- Hinit' in Hid2, Hnx3, Hsq3.
  assert (Hlen : Z.of_nat (length seed_drivers) = 5%Z) by reflexivity.
  rewrite Hlen in Hnx2, Hsq2, Hnx3, Hsq3.
  split_and!.
  - rewrite Hid2; [done|]. rewrite Hsame1. apply Hhas2.
  - rewrite Hsq3, Hsq2 by done. rewrite Hnx1', Hnx2. lia.
  - rewrite Hsq2 by done. rewrite Hnx1. lia.
  - by rewrite Hc2.
  - by rewrite Hs2.
  - by rewrite Ha2.
  - exists l. rewrite Hl2, Hd1. split; [done|]. intros dr Hdr.
    destruct (Hnew2 dr Hdr) as (Hoff & Hrange). rewrite Hnx1 in Hrange.
    split_and!; [done|lia|]. intros x Hx. specialize (Hids x Hx). lia.
  - intros Hnd. rewrite Hl2, Hd1, map_app. apply NoDup_app. split_and!; [done| |done].
    intros i Hi Hi'. apply list_elem_of_fmap in Hi as (x & -> & Hx).
    apply list_elem_of_fmap in Hi' as (y & Hxy & Hy).
    destruct (Hnew2 y Hy) as (_ & Hrange). rewrite Hnx1 in Hrange.
    specialize (Hids x Hx). lia.
  - intros u Hu. destruct (Hhas1 u Hu) as (a & Ha & Hida). exists a. by rewrite Ha2.
  - apply Hhas2.
  - vm_compute. reflexivity.
Qed.

End Initializer.

(** ** Data endpoints *)

Section Listings.
Implicit Types (d : DB) (a : Ambulance) (dr : Driver).

#[local] Instance id_desc_trans : Transitive id_desc.
Proof. intros x y z. unfold id_desc. lia. Qed.

#[local] Instance id_desc_total : Total id_desc.
Proof. intros x y. unfold id_desc. lia. Qed.

Lemma strictly_sorted (l : list (Z * Crash)) :
  StronglySorted id_desc l → NoDup (map fst l) → StronglySorted id_above l.
Proof.
  induction l as [|x l IH]; intros Hs Hnd; [constructor|].
  apply StronglySorted_cons in Hs as [Hx Hs]. cbn in Hnd.
  apply NoDup_cons in Hnd as [Hnx Hnd]. apply StronglySorted_cons. split; [|by apply IH].
  rewrite Forall_forall in *. intros y Hy. specialize (Hx y Hy).
  unfold id_desc, id_above in *.
  assert (fst y ≠ fst x); [|lia].
  intros Heq. apply Hnx. rewrite <- Heq. apply list_elem_of_fmap. by exists y.
Qed.

(** X18: [/api/crashes] lists the 50 newest crashes, newest first: at most
    50 rows, each a row of the table, the ids strictly decreasing, every
    crash that is left out older than every crash listed, and nothing left
    out while the table has 50 rows or fewer. *)
Theorem list_crashes_newest_first d :
  (length (list_crashes d) <= 50)%nat
  ∧ (∀ i c, (i, c) ∈ list_crashes d → crashes d !! i = Some c)
  ∧ StronglySorted id_above (list_crashes d)
  ∧ (∀ i c j c', (i, c) ∈ list_crashes d → crashes d !! j = Some c' →
                 (j, c') ∉ list_crashes d → (j < i)%Z)
  ∧ ((size (crashes d) <= 50)%nat →
     ∀ i c, crashes d !! i = Some c → (i, c) ∈ list_crashes d).
Proof.
  unfold list_crashes.
  set (L := merge_sort id_desc (map_to_list (crashes d))).
  assert (Hperm : L ≡ₚ map_to_list (crashes d)) by apply merge_sort_Permutation.
  assert (Hsort : StronglySorted id_desc L) by (apply StronglySorted_merge_sort; apply _).
  assert (Hnd : NoDup (map fst L)).
  { rewrite Hperm. apply NoDup_fst_map_to_list. }
  assert (Hin : ∀ i c, (i, c) ∈ L ↔ crashes d !! i = Some c).
  { intros i c. rewrite Hperm. apply elem_of_map_to_list. }
  pose proof (take_drop 50 L) as Hsplit.
  split_and!.
  - rewrite length_take. lia.
  - intros i c Hic. apply Hin. by apply (subseteq_take 50 L).
  - apply strictly_sorted.
    + rewrite <- Hsplit in Hsort. by apply StronglySorted_app_1_l in Hsort.
    + rewrite <- Hsplit, map_app in Hnd. by apply NoDup_app in Hnd as [Hnd _].
  - intros i c j c' Hic Hj Hout.
    assert (Hjd : (j, c') ∈ drop 50 L).
    { apply Hin in Hj. rewrite <- Hsplit in Hj. by apply elem_of_app in Hj as [Hj|Hj]. }
    assert (Hle : id_desc (i, c) (j, c')).
    { rewrite <- Hsplit in Hsort.
      by apply (StronglySorted_app_1_elem_of _ _ _ _ _ Hsort). }
    unfold id_desc in Hle. cbn in Hle.
    assert (j ≠ i); [|lia]. intros ->.
    assert (c' = c).
    { apply (subseteq_take 50 L), Hin in Hic. congruence. }
    subst c'. done.
  - intros Hsize i c Hic. rewrite take_ge; [by apply Hin|].
    rewrite Hperm, length_map_to_list. done.
Qed.

Lemma elem_of_list_ambulances_Some d a dr :
  (a, Some dr) ∈ list_ambulances d ↔
  a ∈ ambulances d ∧ dr ∈ drivers d ∧ unit_id dr = amb_id a.
Proof.
  unfold list_ambulances. rewrite list_elem_of_In, in_flat_map. split.
  - intros (a0 & Ha0 & Hrow).
    destruct (List.filter _ (drivers d)) as [|x ds] eqn:Hf.
    + destruct Hrow as [[=]|[]].
    + apply in_map_iff in Hrow as (y & [= <- <-] & Hy).
      rewrite <- Hf in Hy. apply filter_In in Hy as [Hy Heq].
      apply String.eqb_eq in Heq. rewrite !list_elem_of_In. done.
  - intros (Ha & Hdr & Heq). exists a. split; [by apply list_elem_of_In|].
    assert (Hin : In dr (List.filter (fun x => String.eqb (unit_id x) (amb_id a)) (drivers d))).
    { apply filter_In. split; [by apply list_elem_of_In|by apply String.eqb_eq]. }
    destruct (List.filter _ (drivers d)) as [|x ds]; [destruct Hin|].
    apply in_map_iff. by exists dr.
Qed.

Lemma elem_of_list_ambulances_None d a :
  (a, None) ∈ list_ambulances d ↔
  a ∈ ambulances d ∧ ∀ dr, dr ∈ drivers d → unit_id dr ≠ amb_id a.
Proof.
  unfold list_ambulances. rewrite list_elem_of_In, in_flat_map. split.
  - intros (a0 & Ha0 & Hrow).
    destruct (List.filter _ (drivers d)) as [|x ds] eqn:Hf.
    + destruct Hrow as [[= <-]|[]]. split; [by apply list_elem_of_In|].
      intros dr Hdr Heq.
      assert (Hin : In dr (List.filter (fun x => String.eqb (unit_id x) (amb_id a0))
                             (drivers d))).
      { apply filter_In. split; [by apply list_elem_of_In|by apply String.eqb_eq]. }
      rewrite Hf in Hin. destruct Hin.
    + apply in_map_iff in Hrow as (y & [=] & _).
  - intros (Ha & Hnone). exists a. split; [by apply list_elem_of_In|].
    destruct (List.filter _ (drivers d)) as [|x ds] eqn:Hf; [by left|].
    exfalso. assert (Hx : In x (x :: ds)) by by left.
    rewrite <- Hf in Hx. apply filter_In in Hx as [Hx Heq].
    apply String.eqb_eq in Heq. by apply (Hnone x); [apply list_elem_of_In|].
Qed.

Lemma NoDup_flat_map {A B : Type} (f : A → list B) (l : list A) :
  (∀ x, x ∈ l → NoDup (f x)) →
  (∀ i j x y b, l !! i = Some x → l !! j = Some y → b ∈ f x → b ∈ f y → i = j) →
  NoDup (flat_map f l).
Proof.
  induction l as [|x l IH]; intros Hf Hdisj; cbn; [apply NoDup_nil_2|].
  apply NoDup_app. split_and!.
  - apply Hf, list_elem_of_here.
  - intros b Hb Hb'. apply list_elem_of_In, in_flat_map in Hb' as (y & Hy & Hby).
    apply list_elem_of_In, list_elem_of_lookup in Hy as [j Hj].
    apply list_elem_of_In in Hby.
    by pose proof (Hdisj 0%nat (S j) x y b eq_refl Hj Hb Hby).
  - apply IH.
    + intros y Hy. apply Hf. by apply list_elem_of_further.
    + intros i j y z b Hi Hj Hy Hz.
      pose proof (Hdisj (S i) (S j) y z b Hi Hj Hy Hz). lia.
Qed.

Lemma NoDup_filter {A : Type} (p : A → bool) (l : list A) :
  NoDup l → NoDup (List.filter p l).
Proof.
  induction 1 as [|x l Hx Hl IH]; cbn; [apply NoDup_nil_2|].
  destruct (p x); [|done]. apply NoDup_cons. split; [|done].
  intros Hin. apply Hx. by apply list_elem_of_In, filter_In in Hin as [Hin%list_elem_of_In _].
Qed.

Lemma NoDup_map_fst_inv {A B : Type} (f : A → B) (l : list A) :
  NoDup (map f l) → NoDup l.
Proof. apply (NoDup_fmap_1 f). Qed.

Lemma list_ambulances_once d :
  NoDup (map amb_id (ambulances d)) →
  NoDup (map driver_id (drivers d)) →
  NoDup (list_ambulances d).
Proof.
  intros Ha Hd. unfold list_ambulances. apply NoDup_flat_map.
  - intros a _.
    destruct (List.filter _ (drivers d)) as [|x ds] eqn:Hf;
      [apply NoDup_singleton|].
    rewrite <- Hf.
    assert (Hinj : Inj (=) (=) (fun dr : Driver => (a, Some dr)))
      by (intros x1 x2 Heq; by injection Heq).
    apply (NoDup_fmap_2 (fun dr : Driver => (a, Some dr))).
    apply NoDup_filter. by apply NoDup_map_fst_inv in Hd.
  - intros i j a1 a2 b Hi Hj Hb1 Hb2.
    assert (Hfst : ∀ a (b0 : Ambulance * option Driver),
              b0 ∈ match List.filter (fun dr => String.eqb (unit_id dr) (amb_id a))
                           (drivers d) with
                   | [] => [(a, None)]
                   | x :: ds => map (fun dr => (a, Some dr)) (x :: ds)
                   end → fst b0 = a).
    { intros a b0.
      destruct (List.filter (fun dr => String.eqb (unit_id dr) (amb_id a)) (drivers d))
        as [|x ds]; intros Hb0.
      - by apply list_elem_of_singleton in Hb0 as ->.
      - apply list_elem_of_fmap in Hb0 as (y & -> & _). done. }
    apply Hfst in Hb1, Hb2. subst a1. 
    apply (NoDup_lookup (map amb_id (ambulances d)) i j (amb_id a2)); [done|..].
    + rewrite list_lookup_fmap, Hi. cbn. by rewrite <- Hb2.
    + by rewrite list_lookup_fmap, Hj.
Qed.

(** X19: [/api/ambulances] shows every unit: once for each driver of the
    unit, and once without a driver when the unit has none; unit ids and
    driver ids being primary keys, no row comes twice.  The candidates of
    [dispatch] are the units of the rows that show an available unit with
    a driver on duty. *)
Theorem list_ambulances_shows_every_unit d :
  (NoDup (map amb_id (ambulances d)) → NoDup (map driver_id (drivers d)) →
   NoDup (list_ambulances d))
  ∧ (∀ a, a ∈ ambulances d → ∃ o, (a, o) ∈ list_ambulances d)
  ∧ (∀ a dr, (a, Some dr) ∈ list_ambulances d ↔
             a ∈ ambulances d ∧ dr ∈ drivers d ∧ unit_id dr = amb_id a)
  ∧ (∀ a, (a, None) ∈ list_ambulances d ↔
          a ∈ ambulances d ∧ ∀ dr, dr ∈ drivers d → unit_id dr ≠ amb_id a)
  ∧ (∀ a, a ∈ available_units d ↔
          ∃ dr, (a, Some dr) ∈ list_ambulances d
                ∧ is_available a = true ∧ is_on_duty dr = true).
Proof.
  split_and!.
  - apply list_ambulances_once.
  - intros a Ha.
    destruct (List.filter (fun x => String.eqb (unit_id x) (amb_id a)) (drivers d))
      as [|x ds] eqn:Hf.
    + exists None. apply elem_of_list_ambulances_None. split; [done|].
      intros dr Hdr Heq.
      assert (Hin : In dr (List.filter (fun x => String.eqb (unit_id x) (amb_id a))
                             (drivers d))).
      { apply filter_In. split; [by apply list_elem_of_In|by apply String.eqb_eq]. }
      rewrite Hf in Hin. destruct Hin.
    + exists (Some x). apply elem_of_list_ambulances_Some.
      assert (Hx : In x (x :: ds)) by by left.
      rewrite <- Hf in Hx. apply filter_In in Hx as [Hx Heq].
      apply String.eqb_eq in Heq. split_and!; [done|by apply list_elem_of_In|done].
  - apply elem_of_list_ambulances_Some.
  - apply elem_of_list_ambulances_None.
  - intros a. rewrite elem_of_available_units. split.
    + intros (Ha & Hav & dr & Hdr & Heq & Hon). exists dr.
      split_and!; [|done..]. by apply elem_of_list_ambulances_Some.
    + intros (dr & Hrow & Hav & Hon).
      apply elem_of_list_ambulances_Some in Hrow as (Ha & Hdr & Heq).
      split_and!; [done..|]. by exists dr.
Qed.

End Listings.
